(** * talking-timer: the notation compiler, the schedule and the tick dispatcher

    A shallow embedding of the scheduling core of [talking-timer.js] and the
    properties of its specification, followed by the display, the parsing
    of the attributes and the play, pause and end handlers.

    Conventions of the embedding.
    - JavaScript strings are [string]s (one [ascii] per code unit; code units
      above 255 are outside the model).
    - Integer quantities (parsed numbers, loop counters, wall-clock
      milliseconds) are [Z].
    - Quantities the code divides ([milliseconds / 2],
      [milliseconds / denominator], the offsets built from them) are exact
      rationals [Q] in the first model of the schedule.  A JavaScript number
      is a binary64 float; the two agree as long as every intermediate
      result is a number that binary64 holds exactly.
    - Where a property depends on the rounding, or on a loop that the
      rounding can keep from ending, it is stated on [Module Binary64]: the
      same functions on binary64 numbers, each operation rounded to
      nearest, ties to even, and each such loop run on fuel.
    - The object [this] is passed explicitly: the pieces of it a method
      reads are arguments, the pieces it writes are results. *)

From Stdlib Require Import ZArith QArith Qround Qabs Qpower Lqa Lia List String Ascii Bool.
From Stdlib Require Import DecimalString Permutation SetoidList Sorted.
From Stdlib Require Qcanon.
Import ListNotations.

Local Open Scope string_scope.
Local Open Scope Z_scope.

(** ** A backtracking matcher for the regular expressions of the source

    The [RegExp] literals of the source are written below as values of
    [regex].  The matcher follows the ECMAScript backtracking semantics:
    alternatives in order, greedy quantifiers, capture groups, a positive
    lookahead, and the [i] flag on ASCII letters. *)
Module Regex.

Inductive cls : Type :=
| Range (lo hi : ascii)          (* [lo-hi] *)
| OneOf (cs : string)            (* [abc] *)
| Space.                         (* \s *)

Inductive regex : Type :=
| Str (s : string)                       (* literal characters *)
| Cls (c : cls)                          (* one character of a class *)
| Rep (c : cls) (lo : nat) (hi : option nat)  (* c{lo,hi}, greedy; + is {1,}, * is {0,} *)
| Seq (r1 r2 : regex)
| Alt (r1 r2 : regex)                    (* r1|r2 *)
| Opt (r : regex)                        (* r? , greedy *)
| Group (n : nat) (r : regex)            (* the n-th capturing group *)
| Bol                                    (* ^ *)
| Eol                                    (* $ *)
| Look (r : regex).                      (* (?=r) *)

Declare Scope regex_scope.
Delimit Scope regex_scope with re.
Bind Scope regex_scope with regex.
Infix "++" := Seq (right associativity, at level 60) : regex_scope.
Infix "||" := Alt (left associativity, at level 50) : regex_scope.

Definition Plus (c : cls) : regex := Rep c 1 None.
Definition Star (c : cls) : regex := Rep c 0 None.

(** The least number of characters a match takes. *)
Fixpoint min_len (r : regex) : nat :=
  match r with
  | Str s => String.length s
  | Cls _ => 1
  | Rep _ lo _ => lo
  | Seq r1 r2 => min_len r1 + min_len r2
  | Alt r1 r2 => Nat.min (min_len r1) (min_len r2)
  | Opt _ => 0
  | Group _ r1 => min_len r1
  | Bol | Eol | Look _ => 0
  end.

(** The state of a match attempt: the index reached, the input that is
    left, and the captures made so far. *)
Record state : Type := mkState {
  pos  : nat;
  rest : list ascii;
  caps : list (nat * string)
}.

Definition code (c : ascii) : nat := nat_of_ascii c.

(** ECMAScript WhiteSpace and LineTerminator code units below 256. *)
Definition is_space (c : ascii) : bool :=
  let n := code c in
  ((9 <=? n) && (n <=? 13) || (n =? 32) || (n =? 160))%nat.

Definition upper (c : ascii) : ascii :=
  let n := code c in
  if ((97 <=? n) && (n <=? 122))%nat then ascii_of_nat (n - 32) else c.

Definition lower (c : ascii) : ascii :=
  let n := code c in
  if ((65 <=? n) && (n <=? 90))%nat then ascii_of_nat (n + 32) else c.

Definition between (lo hi a : ascii) : bool :=
  ((code lo <=? code a) && (code a <=? code hi))%nat.

Section Matcher.
(** [true] when the [i] flag is set. *)
Variable ignoreCase : bool.

Definition canon (c : ascii) : ascii := if ignoreCase then upper c else c.

Definition same_char (a b : ascii) : bool := Ascii.eqb (canon a) (canon b).

Fixpoint in_string (a : ascii) (s : string) : bool :=
  match s with
  | EmptyString => false
  | String b s' => same_char a b || in_string a s'
  end.

Definition in_cls (a : ascii) (c : cls) : bool :=
  match c with
  | Range lo hi =>
      between lo hi a
      || (ignoreCase && (between lo hi (upper a) || between lo hi (lower a)))
  | OneOf cs => in_string a cs
  | Space => is_space a
  end.

Definition under (hi : option nat) (n : nat) : bool :=
  match hi with
  | None => true
  | Some h => (n <? h)%nat
  end.

(** Literal characters, one after the other. *)
Fixpoint match_str (s : string) (k : state -> option state) (st : state)
  : option state :=
  match s with
  | EmptyString => k st
  | String c s' =>
      match rest st with
      | a :: l =>
          if same_char a c
          then match_str s' k (mkState (S (pos st)) l (caps st))
          else None
      | [] => None
      end
  end.

(** [c{lo,hi}], greedy: [n] characters are taken already; one more is
    tried first, and the continuation only when that fails. *)
Fixpoint match_rep (c : cls) (lo : nat) (hi : option nat)
    (k : state -> option state)
    (n : nat) (p : nat) (l : list ascii) (cs : list (nat * string))
  : option state :=
  let stop := if (lo <=? n)%nat then k (mkState p l cs) else None in
  match l with
  | a :: l' =>
      if in_cls a c && under hi n
      then match match_rep c lo hi k (S n) (S p) l' cs with
           | Some r => Some r
           | None => stop
           end
      else stop
  | [] => stop
  end.

Definition set_cap (n : nat) (from to : state) : state :=
  mkState (pos to) (rest to)
    ((n, string_of_list_ascii (firstn (pos to - pos from) (rest from)))
       :: caps to).

Fixpoint rmatch (r : regex) (k : state -> option state) (st : state)
  : option state :=
  match r with
  | Str s => match_str s k st
  | Cls c =>
      match rest st with
      | a :: l =>
          if in_cls a c then k (mkState (S (pos st)) l (caps st)) else None
      | [] => None
      end
  | Rep c lo hi => match_rep c lo hi k 0 (pos st) (rest st) (caps st)
  | Seq r1 r2 => rmatch r1 (rmatch r2 k) st
  | Alt r1 r2 =>
      match rmatch r1 k st with
      | Some res => Some res
      | None => rmatch r2 k st
      end
  | Opt r1 =>
      match rmatch r1 k st with
      | Some res => Some res
      | None => k st
      end
  | Group n r1 => rmatch r1 (fun st' => k (set_cap n st st')) st
  | Bol => if (pos st =? 0)%nat then k st else None
  | Eol => match rest st with [] => k st | _ :: _ => None end
  | Look r1 =>
      match rmatch r1 Some st with
      | Some st' => k (mkState (pos st) (rest st) (caps st'))
      | None => None
      end
  end.

(** The value of [matches[n]]: [None] is [undefined]. *)
Fixpoint lookup_cap (n : nat) (cs : list (nat * string)) : option string :=
  match cs with
  | [] => None
  | (m, s) :: cs' => if (m =? n)%nat then Some s else lookup_cap n cs'
  end.

(** What [RegExp.prototype.exec] returns on success. *)
Record result : Type := mkResult {
  index     : nat;                   (* where the match starts *)
  lastIndex : nat;                   (* where it ends *)
  whole     : string;                (* matches[0] *)
  captures  : list (nat * string)    (* the groups that took part *)
}.

Definition group (m : result) (n : nat) : option string :=
  lookup_cap n (captures m).

Definition result_of (p : nat) (l : list ascii) (st : state) : result :=
  mkResult p (pos st)
    (string_of_list_ascii (firstn (pos st - p) l))
    (caps st).

(** The leftmost position from [p] on at which the expression matches. *)
Fixpoint search (r : regex) (p : nat) (l : list ascii) : option result :=
  match rmatch r Some (mkState p l []) with
  | Some st => Some (result_of p l st)
  | None =>
      match l with
      | [] => None
      | _ :: l' => search r (S p) l'
      end
  end.

(** [regex.exec(s)] with [regex.lastIndex = from]. *)
Definition exec (r : regex) (s : string) (from : nat) : option result :=
  let l := list_ascii_of_string s in
  if (from <=? List.length l)%nat then search r from (skipn from l) else None.

End Matcher.

End Regex.

Import Regex.

(** ** Helpers of the JavaScript runtime *)

(** [Number.parseInt(s, 10)] on a string of decimal digits. *)
Definition digit_value (c : ascii) : Z := Z.of_nat (nat_of_ascii c) - 48.

Fixpoint parseInt_from (acc : Z) (s : string) : Z :=
  match s with
  | EmptyString => acc
  | String c s' => parseInt_from (10 * acc + digit_value c) s'
  end.

Definition parseInt (s : string) : Z := parseInt_from 0 s.

(** [n.toString()] and string concatenation with an integral number. *)
Definition Z_to_string (n : Z) : string := NilZero.string_of_int (Z.to_int n).

(** [s.toLocaleLowerCase()] on ASCII. *)
Fixpoint toLocaleLowerCase (s : string) : string :=
  match s with
  | EmptyString => EmptyString
  | String c s' => String (lower c) (toLocaleLowerCase s')
  end.

(** ** Time codec *)

Record timeObj : Type := mkTimeObj {
  hours   : Z;
  minutes : Z;
  seconds : Z;
  tenths  : Z
}.

(** [this.multipliers] *)
Definition mult_hours   : Z := 3600000.
Definition mult_minutes : Z := 60000.
Definition mult_seconds : Z := 1000.
Definition mult_tenths  : Z := 100.

(** [getWholePart(input, multiplier)]: the pair [(whole, part)]. *)
Definition getWholePart (input multiplier : Z) : Z * Z :=
  let wholeVal := input / multiplier in
  let partVal := input - wholeVal * multiplier in
  (wholeVal, partVal).

(** [millisecondsToTimeObj(milliseconds)]: the loop over
    ['hours', 'minutes', 'seconds', 'tenths'], unrolled. *)
Definition millisecondsToTimeObj (milliseconds : Z) : timeObj :=
  let remainder := milliseconds in
  let '(h, remainder) := getWholePart remainder mult_hours in
  let '(m, remainder) := getWholePart remainder mult_minutes in
  let '(s, remainder) := getWholePart remainder mult_seconds in
  let '(t, _) := getWholePart remainder mult_tenths in
  mkTimeObj h m s t.

(** [timeObjToMilliseconds(timeObj)]: the loop over
    ['tenths', 'seconds', 'minutes', 'hours'], unrolled.  A time object
    without [tenths] is one whose [tenths] is 0. *)
Definition timeObjToMilliseconds (t : timeObj) : Z :=
  0 + tenths t * mult_tenths + seconds t * mult_seconds
    + minutes t * mult_minutes + hours t * mult_hours.

(** The expression of [validateTimeDuration], piece by piece:
<<
    ^
    (?: (?: (?: ([0-1]?[0-9]|2[0-4]) : )?
            ([0-5]?[0-9]) : )?
        ([0-5]?[0-9])
      | ([6-9][0-9]|[1-9][0-9]{2,5}) )
    $
>> *)
Definition duration_regex : regex :=
  (Bol ++
   ((Opt (Opt (Group 1 ((Opt (Cls (Range "0" "1")) ++ Cls (Range "0" "9"))
                        || (Str "2" ++ Cls (Range "0" "4")))
               ++ Str ":")
          ++ Group 2 (Opt (Cls (Range "0" "5")) ++ Cls (Range "0" "9"))
          ++ Str ":")
     ++ Group 3 (Opt (Cls (Range "0" "5")) ++ Cls (Range "0" "9")))
    || Group 4 ((Cls (Range "6" "9") ++ Cls (Range "0" "9"))
                || (Cls (Range "1" "9") ++ Rep (Range "0" "9") 2 (Some 5%nat))))
   ++ Eol)%re.

(** [validateTimeDuration(hoursMinutesSeconds)] on a string: the value it
    stores in [this.initialMilliseconds] when it returns [true], [None]
    when it logs the error and returns [false]. *)
Definition validateTimeDuration (hoursMinutesSeconds : string) : option Z :=
  match exec false duration_regex hoursMinutesSeconds 0 with
  | Some matches =>
      match group matches 4 with
      | Some m4 =>
          let seconds := parseInt m4 in
          let seconds := if 86400 <? seconds then 86400 else seconds in
          Some (seconds * 1000)
      | None =>
          let s := match group matches 3 with
                   | Some m3 => parseInt m3
                   | None => 0
                   end in
          let m := match group matches 2 with
                   | Some m2 => if String.eqb m2 "" then 0 else parseInt m2
                   | None => 0
                   end in
          let h := match group matches 1 with
                   | Some m1 => if String.eqb m1 "" then 0 else parseInt m1
                   | None => 0
                   end in
          Some (timeObjToMilliseconds (mkTimeObj h m s 0))
      end
  | None => None
  end.

(** ** Numbers *)

Local Open Scope Q_scope.

Definition Qltb (a b : Q) : bool := negb (Qle_bool b a).

(** [Math.round(x)]: the nearest integer, halves upwards. *)
Definition Math_round (x : Q) : Z := Qfloor (x + (1 # 2)).

(** [posMinus(a, b)] *)
Definition posMinus (a b : Q) : Q :=
  if Qltb b a then a - b else b - a.

(** [tooClose(current, previous)] *)
Definition tooClose (current previous : Q) : bool :=
  Qltb (previous - 5000) current && Qltb current (previous + 5000).

(** [tooCloseAny(offset, previous)] *)
Fixpoint tooCloseAny (offset : Q) (previous : list Q) : bool :=
  match previous with
  | [] => false
  | p :: previous' =>
      if tooClose offset p then true else tooCloseAny offset previous'
  end.

(** [found.indexOf(x) !== -1] *)
Fixpoint indexOf_found (x : Q) (found : list Q) : bool :=
  match found with
  | [] => false
  | y :: found' => Qeq_bool y x || indexOf_found x found'
  end.

(** ** Configuration read from [this] *)

(** [this.suffixes] *)
Record suffixes : Type := mkSuffixes {
  first : string;
  last  : string;
  half  : string
}.

Definition default_suffixes : suffixes :=
  mkSuffixes " gone." " to go." "Half way.".

(** One band of [this.pre]. *)
Record preBand : Type := mkPre {
  remaining : Q;
  delay     : Q
}.

(** [this.pre] for the three delays, which [talkingTimerExternalDefaults]
    may override. *)
Definition pre_table (d1 d2 d3 : Q) : list preBand :=
  [ mkPre 10000 d1; mkPre 19999 d2; mkPre 86400 d3 ].

Definition default_pre : list preBand := pre_table 200 600 1200.

(** [getSpeakPreOffset(timeRemaining)]: the loop over [this.pre], then the
    fall-back [this.pre[c - 1].delay].  [None] is the [TypeError] of reading
    [delay] from [undefined], which an empty table would give. *)
Fixpoint pre_scan (timeRemaining : Q) (pre : list preBand) : option Q :=
  match pre with
  | [] => None
  | b :: pre' =>
      if Qle_bool timeRemaining (remaining b) then Some (delay b)
      else pre_scan timeRemaining pre'
  end.

Definition getSpeakPreOffset (pre : list preBand) (timeRemaining : Q)
  : option Q :=
  match pre_scan timeRemaining pre with
  | Some d => Some d
  | None => option_map delay (nth_error pre (List.length pre - 1))
  end.

Local Open Scope Z_scope.

(** ** Announcements and their messages *)

(** An item of the arrays the generators return.  The [raw] property, kept
    by the source on some items for diagnostics, is left out. *)
Record announcement : Type := mkAnn {
  offset  : Q;
  message : string
}.

(** [makeTimeMessage(offset, suffix, forceSufix)] *)
Definition makeTimeMessage (offset : Q) (suffix : string) (forceSufix : bool)
  : string :=
  let output := "" in
  let working := offset in
  let comma := "" in
  if Qltb working 20000 then
    let tmpSuffix :=
      if forceSufix then " seconds" ++ suffix
      else if Qltb 10000 working then " seconds" else "" in
    Z_to_string (Math_round (working / 1000)%Q) ++ tmpSuffix
  else
    let '(output, working, comma) :=
      if Qle_bool 3600000 working then
        let hours := Qfloor (working / 3600000)%Q in
        (output ++ comma ++ Z_to_string hours ++ " hour"
           ++ (if 1 <? hours then "s" else ""),
         (working - inject_Z hours * 3600000)%Q, ", ")
      else (output, working, comma) in
    let '(output, working, comma) :=
      if Qle_bool 60000 working then
        let minutes := Qfloor (working / 60000)%Q in
        (* the source assigns here: [output = comma + ...] *)
        (comma ++ Z_to_string minutes ++ " minute"
           ++ (if 1 <? minutes then "s" else ""),
         (working - inject_Z minutes * 60000)%Q, ", ")
      else (output, working, comma) in
    let working := Math_round (working / 1000)%Q in
    let output :=
      if 0 <? working then
        output ++ comma ++ Z_to_string working ++ " second"
          ++ (if 1 <? working then "s" else "")
      else output in
    output ++ suffix.

(** [makeFractionMessage(numerator, denominator)].  Both arguments are
    integers (a loop counter and a parsed denominator), so
    [Number.isInteger(denominator / numerator)] is divisibility, and the
    division that gives [newNumerator] is exact. *)
Definition makeFractionMessage (sfx : suffixes) (numerator denominator : Z)
  : string :=
  let newDenominator :=
    if negb (numerator =? 0) && (denominator mod numerator =? 0)
    then denominator / numerator else denominator in
  if newDenominator =? 2 then half sfx
  else
    let fraction :=
      if newDenominator =? 3 then "third"
      else if newDenominator =? 4 then "quarter"
      else if newDenominator =? 5 then "fifth"
      else if newDenominator =? 6 then "sixth"
      else if newDenominator =? 7 then "seventh"
      else if newDenominator =? 8 then "eighth"
      else if newDenominator =? 9 then "ninth"
      else if newDenominator =? 10 then "tenth"
      else "" in
    let newNumerator := numerator / (denominator / newDenominator) in
    let s := if 1 <? newNumerator then "s" else "" in
    Z_to_string newNumerator ++ " " ++ fraction ++ s.

(** ** Interval directives *)

(** The object [interval] of [parseRawIntervals].  [denominator] is set on
    fractions only, [unit] and [time] on times only; the other kind leaves
    them at a default here, where the source leaves them undefined. *)
Record intervalObj : Type := mkInterval {
  all         : bool;
  every       : bool;
  multiplier  : Z;
  relative    : string;
  exclude     : bool;
  isFraction  : bool;
  raw         : string;
  denominator : Z;
  unit        : string;
  time        : Z
}.

(** The integers [1, 2, ..., n]: the values of [a] in
    [for (let a = 1; a <= n; a += 1)]. *)
Definition upto (n : Z) : list Z :=
  List.map Z.of_nat (seq 1 (Z.to_nat n)).

(** *** Fractions *)

(** The items pushed by the loops of [getFractionOffsetAndMessage], before
    the final [map]. *)
Definition fraction_offsets (sfx : suffixes) (intervalObj : intervalObj)
    (milliseconds : Q) : list announcement :=
  let interval := (milliseconds / inject_Z (denominator intervalObj))%Q in
  let count :=
    if (multiplier intervalObj =? 0)
       || (denominator intervalObj <=? multiplier intervalObj)
    then denominator intervalObj else multiplier intervalObj in
  if negb (String.eqb (relative intervalObj) "") then
    let suffix :=
      if String.eqb (relative intervalObj) "first" then first sfx else last sfx in
    let minus :=
      if String.eqb (relative intervalObj) "first" then milliseconds else 0%Q in
    List.map
      (fun a =>
         mkAnn (posMinus minus (interval * inject_Z a)%Q)
               (makeFractionMessage sfx a (denominator intervalObj) ++ suffix))
      (upto count)
  else
    (* [a <= count / 2] on an integer [a] is [a <= floor(count / 2)] *)
    List.flat_map
      (fun a =>
         let message := makeFractionMessage sfx a (denominator intervalObj) in
         [ mkAnn (milliseconds - interval * inject_Z a)%Q (message ++ last sfx);
           mkAnn (interval * inject_Z a)%Q (message ++ first sfx) ])
      (upto (count / 2)).

(** The callback of the final [offsets.map]. *)
Definition collapse_half (sfx : suffixes) (half_ : Q) (item : announcement)
  : announcement :=
  if tooClose (offset item) half_ then mkAnn half_ (half sfx) else item.

(** [getFractionOffsetAndMessage(intervalObj, milliseconds)] *)
Definition getFractionOffsetAndMessage (sfx : suffixes)
    (intervalObj : intervalObj) (milliseconds : Q) : list announcement :=
  let half_ := (milliseconds / 2)%Q in
  if denominator intervalObj =? 2 then [ mkAnn half_ "Half way" ]
  else
    List.map (collapse_half sfx half_)
      (fraction_offsets sfx intervalObj milliseconds).

(** *** Times *)

(** [for (let offset = start; offset <= bound; offset += step) body(offset)],
    run for at most [fuel] rounds. *)
Fixpoint for_up (fuel : nat) (offset step bound : Q)
    (body : Q -> list announcement) : list announcement :=
  match fuel with
  | O => []
  | S fuel' =>
      if Qle_bool offset bound
      then body offset ++ for_up fuel' (offset + step)%Q step bound body
      else []
  end.

(** The rounds the loop above makes when [step] is positive. *)
Definition rounds_up (step bound : Q) : nat :=
  Z.to_nat (Qfloor (bound / step)%Q).

(** [for (let a = count; a > 0; a -= 1) body(a)], run for at most [fuel]
    rounds. *)
Fixpoint for_down (fuel : nat) (a : Q) (body : Q -> announcement)
  : list announcement :=
  match fuel with
  | O => []
  | S fuel' =>
      if Qltb 0 a then body a :: for_down fuel' (a - 1)%Q body else []
  end.

(** The rounds the loop above makes. *)
Definition rounds_down (count : Q) : nat := Z.to_nat (Qceiling count).

(** [getTimeOffsetAndMessage(intervalObj, milliseconds, raw)] *)
Definition getTimeOffsetAndMessage (sfx : suffixes) (intervalObj : intervalObj)
    (milliseconds : Q) : list announcement :=
  let suffix :=
    if String.eqb (relative intervalObj) "first" then first sfx else last sfx in
  if (all intervalObj || every intervalObj) || (1 <? multiplier intervalObj)
  then
    if (all intervalObj || every intervalObj) && (multiplier intervalObj <=? 1)
    then
      if String.eqb (relative intervalObj) "" then
        let half_ := (milliseconds / 2)%Q in
        let interval := (inject_Z (time intervalObj) * 1000)%Q in
        for_up (rounds_up interval half_) interval interval half_
          (fun offset =>
             [ mkAnn offset (makeTimeMessage offset (last sfx) false);
               mkAnn (milliseconds - offset)%Q
                     (makeTimeMessage offset (first sfx) false) ])
      else
        let interval :=
          if String.eqb (unit intervalObj) "m" then 60000%Q
          else if String.eqb (unit intervalObj) "h" then 3600000%Q
          else 1000%Q in
        let '(interval, count) :=
          if every intervalObj then
            let interval := (interval * inject_Z (time intervalObj))%Q in
            (interval, (milliseconds / interval)%Q)
          else (interval, inject_Z (time intervalObj)) in
        let modifier :=
          if negb (String.eqb (relative intervalObj) "first")
          then 0%Q else milliseconds in
        let forceSufix := String.eqb (relative intervalObj) "first" in
        for_down (rounds_down count) count
          (fun a =>
             let offset := (a * interval)%Q in
             mkAnn (posMinus modifier offset)
                   (makeTimeMessage offset suffix forceSufix))
    else if 1 <? multiplier intervalObj then
      let unit_ :=
        if String.eqb (unit intervalObj) "s" then 10000%Q
        else if String.eqb (unit intervalObj) "m" then 60000%Q
        else 3600000%Q in
      let interval := (inject_Z (time intervalObj) * unit_)%Q in
      let modifier :=
        if String.eqb (relative intervalObj) "last" then 0%Q else milliseconds in
      for_up (rounds_up interval (inject_Z (time intervalObj)))
        interval interval (inject_Z (time intervalObj))
        (fun offset =>
           [ mkAnn (posMinus modifier offset)
                   (makeTimeMessage offset suffix false) ])
    else []
  else
    let interval := (inject_Z (time intervalObj) * 1000)%Q in
    let offset :=
      if negb (String.eqb (relative intervalObj) "first")
      then interval else (milliseconds - interval)%Q in
    [ mkAnn offset (makeTimeMessage interval suffix false) ].

(** ** Schedule builder *)

(** The callback of [offsets.filter] in [filterOffsets], with the array
    [found] it pushes to. *)
Definition keep (found : list Q) (max : Q) (item : announcement) : bool :=
  negb (indexOf_found (offset item) found)
  && (Qle_bool (offset item) 30000
      || negb (tooCloseAny (offset item) found))
  && Qltb (offset item) max
  && Qltb 0 (offset item).

Fixpoint filter_from (found : list Q) (offsets : list announcement) (max : Q)
  : list announcement :=
  match offsets with
  | [] => []
  | item :: offsets' =>
      if keep found max item
      then item :: filter_from (found ++ [offset item]) offsets' max
      else filter_from found offsets' max
  end.

(** [filterOffsets(offsets, max)] *)
Definition filterOffsets (offsets : list announcement) (max : Q)
  : list announcement :=
  filter_from [] offsets max.

(** The comparator of [sortOffsets]: negative when [a] goes first. *)
Definition compare_offsets (a b : announcement) : Z :=
  if Qltb (offset a) (offset b) then 1
  else if Qltb (offset b) (offset a) then -1
  else 0.

(** [Array.prototype.sort] is stable: an item goes behind the items that do
    not compare after it. *)
Fixpoint insert_sorted (x : announcement) (l : list announcement)
  : list announcement :=
  match l with
  | [] => [x]
  | y :: l' =>
      if 0 <? compare_offsets y x then x :: y :: l'
      else y :: insert_sorted x l'
  end.

(** [sortOffsets(input)] *)
Definition sortOffsets (input : list announcement) : list announcement :=
  List.fold_left (fun sorted x => insert_sorted x sorted) input [].

(** ** Notation parser *)

(** The expression of [parseRawIntervals], flags [ig], piece by piece:
<<
    (?:^|\s+)
    (all|every)?    [_-]?
    ([0-9]+)?       [_-]?
    ((?:la|fir)st)? [_-]?
    (?: ([1-9][0-9]* ) [_-]? ([smh]?)
      | ([1-9])? [_-]? 1\/ ([2-9]|10) )
    (?=\s+|$)
>> *)
Definition sep : regex := Opt (Cls (OneOf "_-")).

Definition digit : cls := Range "0" "9".

(** The syntax of one directive: the expression without its first and its
    last piece. *)
Definition grammar : regex :=
  (Opt (Group 1 (Str "all" || Str "every"))
   ++ sep
   ++ Opt (Group 2 (Plus digit))
   ++ sep
   ++ Opt (Group 3 ((Str "la" || Str "fir") ++ Str "st"))
   ++ sep
   ++ ((Group 4 (Cls (Range "1" "9") ++ Star digit)
        ++ sep
        ++ Group 5 (Opt (Cls (OneOf "smh"))))
       || (Opt (Group 6 (Cls (Range "1" "9")))
           ++ sep
           ++ Str "1/"
           ++ Group 7 (Cls (Range "2" "9") || Str "10"))))%re.

Definition notation_regex : regex :=
  ((Bol || Plus Space) ++ grammar ++ Look (Plus Space || Eol))%re.

(** The values a caller may pass where a string is expected. *)
Inductive jsval : Type :=
| JString (s : string)
| JNumber (q : Q)
| JBoolean (b : bool)
| JUndefined
| JNull.

(** [while ((matches = regex.exec(rawIntervals)) !== null)]: the matches in
    the order the loop sees them.  [None] when [fuel] rounds do not reach
    the [null] that ends the loop. *)
Fixpoint exec_loop (fuel : nat) (rawIntervals : string) (from : nat)
  : option (list result) :=
  match fuel with
  | O => None
  | S fuel' =>
      match exec true notation_regex rawIntervals from with
      | None => Some []
      | Some matches =>
          option_map (cons matches)
            (exec_loop fuel' rawIntervals (lastIndex matches))
      end
  end.

(** The object [interval] built from one match, up to the test of
    [matches[7]]. *)
Definition interval_of_match (exclude : bool) (matches : result) : intervalObj :=
  let allEvery :=
    match group matches 1 with
    | Some m1 => toLocaleLowerCase m1
    | None => ""
    end in
  let firstLast :=
    match group matches 3 with
    | Some m3 => toLocaleLowerCase m3
    | None => ""
    end in
  let all_ := String.eqb allEvery "all" || String.eqb firstLast "" in
  let every_ := String.eqb allEvery "every" && negb (String.eqb firstLast "") in
  let multiplier_ :=
    match group matches 2 with
    | Some m2 => parseInt m2
    | None => 1
    end in
  (* [if (every) { all = false; multiplier = 0 }
      else if (all) { multiplier = 0 }] *)
  let multiplier_ :=
    if every_ then 0 else if all_ then 0 else multiplier_ in
  let all_ := if every_ then false else all_ in
  mkInterval all_ every_ multiplier_ firstLast exclude false (whole matches)
             0 "" 0.

(** The three arrays the loop of [parseRawIntervals] appends to. *)
Record arrays : Type := mkArrays {
  timeIntervals     : list announcement;
  fractionIntervals : list announcement;
  orderIntervals    : list announcement
}.

(** The fraction branch of the loop: [interval] once [isFraction],
    [denominator] and the capped [multiplier] are set. *)
Definition as_fraction (interval : intervalObj) (denominator_ : Z)
  : intervalObj :=
  let multiplier_ :=
    if denominator_ - 1 <? multiplier interval
    then denominator_ - 1 else multiplier interval in
  mkInterval (all interval) (every interval) multiplier_ (relative interval)
             (exclude interval) true (raw interval) denominator_ "" 0.

(** The number branch of the loop: [interval] once [unit] and [time] are
    set. *)
Definition as_time (interval : intervalObj) (unit_ : string) (time_ : Z)
  : intervalObj :=
  mkInterval (all interval) (every interval) (multiplier interval)
             (relative interval) (exclude interval) false (raw interval)
             0 unit_ time_.

(** [tmpIntervals] of one round of the loop, and whether the round took the
    fraction branch. *)
Definition round_intervals (sfx : suffixes) (exclude : bool)
    (durationMilli : Q) (matches : result) : bool * list announcement :=
  let interval := interval_of_match exclude matches in
  match group matches 7 with
  | Some m7 =>
      let denominator_ := parseInt m7 in
      (true,
       getFractionOffsetAndMessage sfx (as_fraction interval denominator_)
         durationMilli)
  | None =>
      let m4 := match group matches 4 with
                | Some m4 => parseInt m4
                | None => 0
                end in
      let unit_ := match group matches 5 with
                   | Some m5 => toLocaleLowerCase m5
                   | None => "s"
                   end in
      (false,
       getTimeOffsetAndMessage sfx (as_time interval unit_ m4) durationMilli)
  end.

(** One round of the loop of [parseRawIntervals]. *)
Definition parse_round (sfx : suffixes) (priority : string) (exclude : bool)
    (durationMilli : Q) (acc : arrays) (matches : result) : arrays :=
  let '(fraction, tmpIntervals) :=
    round_intervals sfx exclude durationMilli matches in
  if String.eqb priority "order"
  then mkArrays (timeIntervals acc) (fractionIntervals acc)
                (orderIntervals acc ++ tmpIntervals)
  else if fraction
       then mkArrays (timeIntervals acc) (fractionIntervals acc ++ tmpIntervals)
                     (orderIntervals acc)
       else mkArrays (timeIntervals acc ++ tmpIntervals) (fractionIntervals acc)
                     (orderIntervals acc).

(** What [parseRawIntervals] returns from the three arrays. *)
Definition build (priority : string) (durationMilli : Q) (acc : arrays)
  : list announcement :=
  let output :=
    if String.eqb priority "order" then orderIntervals acc
    else if String.eqb priority "time"
         then (timeIntervals acc ++ fractionIntervals acc)%list
         else (fractionIntervals acc ++ timeIntervals acc)%list in
  sortOffsets (filterOffsets output durationMilli).

(** [parseRawIntervals(rawIntervals, durationMilli, omit)] with
    [this.suffixes] and [this.config.priority], on [fuel] rounds of its
    loop.  [None]: the loop did not end. *)
Definition parseRawIntervals_fuel (fuel : nat) (sfx : suffixes)
    (priority : string) (rawIntervals : jsval) (durationMilli : Q)
    (omit : option bool) : option (list announcement) :=
  match rawIntervals with
  | JString s =>
      if String.eqb s "" then Some []
      else
        let exclude := match omit with Some b => b | None => false end in
        match exec_loop fuel s 0 with
        | Some ms =>
            Some (build priority durationMilli
                    (List.fold_left
                       (parse_round sfx priority exclude durationMilli)
                       ms (mkArrays [] [] [])))
        | None => None
        end
  | _ => Some []
  end.

(** Every round of the loop moves [lastIndex] forward (lemma
    [exec_loop_enough] below), so one round per character and one more are
    enough. *)
Definition enough_fuel (rawIntervals : jsval) : nat :=
  match rawIntervals with
  | JString s => S (String.length s)
  | _ => 1%nat
  end.

Definition parseRawIntervals (sfx : suffixes) (priority : string)
    (rawIntervals : jsval) (durationMilli : Q) (omit : option bool)
  : option (list announcement) :=
  parseRawIntervals_fuel (enough_fuel rawIntervals) sfx priority rawIntervals
    durationMilli omit.

(** ** Tick dispatcher *)

(** The fields of [this] that the ticker reads and writes. *)
Record timer : Type := mkTimer {
  endTime               : Z;
  initialMilliseconds   : Z;
  remainingMilliseconds : Z;
  currentValue          : timeObj;
  progress              : Q;
  workingIntervals      : list announcement
}.

(** What a tick makes the component do. *)
Inductive action : Type :=
| SaySomething (text : string)     (* [this.saySomething(text)] *)
| EndPlaying.                      (* [this.endPlaying()] *)

(** [setProgressTicker(interval)] before it installs [progressTickTock]:
    the anchor of the countdown, with [now] for [Date.now()]. *)
Definition anchor (now : Z) (t : timer) : timer :=
  if endTime t =? 0
  then mkTimer (now + remainingMilliseconds t) (initialMilliseconds t)
               (remainingMilliseconds t) (currentValue t) (progress t)
               (workingIntervals t)
  else t.

(** [progressTickTock] of [setProgressTicker], with [now] for [Date.now()]:
    the state after the tick and what the tick did.  [None] is an exception
    inside the tick. *)
Definition progressTickTock (pre : list preBand) (now : Z) (t : timer)
  : option (timer * list action) :=
  let remainingMilliseconds := endTime t - now in
  let remainingMilliseconds :=
    if remainingMilliseconds <? 0 then 0 else remainingMilliseconds in
  match getSpeakPreOffset pre (inject_Z remainingMilliseconds) with
  | None => None
  | Some preOffset =>
      let progress_ :=
        (1 - inject_Z remainingMilliseconds
               / inject_Z (initialMilliseconds t))%Q in
      let currentValue_ := millisecondsToTimeObj remainingMilliseconds in
      let t' workingIntervals_ :=
        mkTimer (endTime t) (initialMilliseconds t) remainingMilliseconds
                currentValue_ progress_ workingIntervals_ in
      if remainingMilliseconds <=? 0 then
        Some (t' (workingIntervals t), [EndPlaying])
      else
        match workingIntervals t with
        | sayThis :: workingIntervals_ =>
            if Qltb (inject_Z remainingMilliseconds)
                    (offset sayThis + preOffset)%Q
            then
              (* [this.workingIntervals.shift()] *)
              if Qltb (posMinus (offset sayThis)
                                (inject_Z remainingMilliseconds)) 2000
              then Some (t' workingIntervals_,
                         [SaySomething (message sayThis)])
              else Some (t' workingIntervals_, [])
            else Some (t' (workingIntervals t), [])
        | [] => Some (t' [], [])
        end
  end.

(** ** The display *)

(** A number held by a property of a time object: an integer, or [NaN],
    which is what [undefined] is as a number. *)
Inductive jsnum : Type :=
| Num (n : Z)
| NaN.

(** A time object as the display functions see it.  Each of the four
    properties may be absent ([None]); those present come in the order
    [hours], [minutes], [seconds], [tenths], the order in which every
    producer in the source inserts them. *)
Record fields : Type := mkFields {
  hours_   : option jsnum;
  minutes_ : option jsnum;
  seconds_ : option jsnum;
  tenths_  : option jsnum
}.




(** [isNum === true && currentValue[field] > 0] *)
Definition greater_than_zero (v : option jsnum) : bool :=
  match v with
  | Some (Num n) => 0 <? n
  | _ => false
  end.

(** One round of the loop of [onlyGreaterThanZero]: what [tmpValue[field]]
    becomes, and [allTheRest]. *)
Definition greater_step (v : option jsnum) (allTheRest : bool)
  : option jsnum * bool :=
  if allTheRest || greater_than_zero v
  then (Some (match v with Some x => x | None => Num 0 end), true)
  else (None, allTheRest).

(** [onlyGreaterThanZero(currentValue)]: the loop over
    ['hours', 'minutes', 'seconds', 'tenths'], unrolled. *)
Definition onlyGreaterThanZero (currentValue : fields) : fields :=
  let allTheRest := false in
  let '(h, allTheRest) := greater_step (hours_ currentValue) allTheRest in
  let '(m, allTheRest) := greater_step (minutes_ currentValue) allTheRest in
  let '(s, allTheRest) := greater_step (seconds_ currentValue) allTheRest in
  let '(t, _) := greater_step (tenths_ currentValue) allTheRest in
  mkFields h m s t.

(** [Math.round(v)] in a string concatenation. *)
Definition round_string (v : jsnum) : string :=
  match v with
  | Num n => Z_to_string n
  | NaN => "NaN"
  end.

Definition below_ten (v : jsnum) : bool :=
  match v with
  | Num n => n <? 10
  | NaN => false
  end.

(** One round of the loop over [wholeTimeFields]; an absent property is
    not among them. *)
Definition whole_step (output : string) (v : option jsnum) : string :=
  match v with
  | None => output
  | Some x =>
      let zero :=
        if below_ten x && negb (String.eqb output "") then "0" else "" in
      let colon := if String.eqb output "" then "" else ":" in
      output ++ colon ++ zero ++ round_string x
  end.

(** The character that delimits the attribute value in the markup. *)
Definition quote : string := String (ascii_of_nat 34) EmptyString.

(** [timeObjToString(timeObj, nonZeroOnly)]; [nonZeroOnly] is [None] when
    the argument is no boolean. *)
Definition timeObjToString (timeObj : fields) (nonZeroOnly : option bool)
  : string :=
  let tmpTimeObj :=
    match nonZeroOnly with
    | Some false => timeObj
    | _ => onlyGreaterThanZero timeObj
    end in
  let output := "" in
  let output := whole_step output (hours_ tmpTimeObj) in
  let output := whole_step output (minutes_ tmpTimeObj) in
  let output := whole_step output (seconds_ tmpTimeObj) in
  match tenths_ tmpTimeObj with
  | Some t =>
      let colon := if String.eqb output "" then "0." else "." in
      output ++ colon ++ "<span class=" ++ quote ++ "tenths" ++ quote ++ ">"
        ++ round_string t ++ "</span>"
  | None => if String.eqb output "" then "0" else output
  end.

(** ** Attributes and configuration *)

(** [this.config] once [parseAttributes] has run to its end. *)
Record config : Type := mkConfig {
  autoDestruct  : Z;
  autoReset     : bool;
  noCloseBtn    : bool;
  noEdit        : bool;
  noEndChime    : bool;
  noPause       : bool;
  noReconfigure : bool;
  noReset       : bool;
  noRestart     : bool;
  noSayEnd      : bool;
  selfDestruct  : bool;
  sayStart      : bool;
  priority      : string
}.




(** What [parseAttributes] leaves in [this]. *)
Module Element.
Record t : Type := mk {
  initialMilliseconds : Z;
  initialValue        : fields;
  numbers             : string;      (* [this.numbers.innerHTML] *)
  config_             : config;
  endText             : string;
  startText           : string;
  say                 : string;
  sayIntervals        : list announcement
}.
End Element.


(** ** Starting, pausing and ending *)

(** What the methods below hand to the window and to the speech sink. *)
Inductive callback : Type :=
| StartPlayingInner
| EndSound
| Remove.

Inductive effect : Type :=
| Say (text : string)                             (* [saySomething] *)
| SetTimeout (f : callback) (milliseconds : Z)    (* [window.setTimeout] *)
| ResetClick.                                     (* [this.resetClick()] *)

(** The part of [this] the play and pause handlers work on: the fields of
    the ticker, [this.play], [this.progressTicker] ([None] is [null]),
    and the intervals of the window that are live, of which [nextId] is
    the next identifier [setInterval] returns. *)
Record player : Type := mkPlayer {
  clock          : timer;
  play           : bool;
  progressTicker : option nat;
  intervals      : list nat;
  nextId         : nat
}.

(** [clearTimerInterval()] *)
Definition clearTimerInterval (p : player) : player :=
  mkPlayer (clock p) (play p) None
    (match progressTicker p with
     | Some id => List.remove Nat.eq_dec id (intervals p)
     | None => intervals p
     end)
    (nextId p).

(** [setProgressTicker(interval)], with [now] for [Date.now()]. *)
Definition setProgressTicker (now : Z) (p : player) : player :=
  mkPlayer (anchor now (clock p)) (play p) (Some (nextId p))
    (nextId p :: intervals p) (S (nextId p)).

(** [startPlayingInner(obj)], less its changes to the buttons. *)
Definition startPlayingInner (now : Z) (obj : player) : player :=
  let c := clock obj in
  let obj :=
    mkPlayer (mkTimer (endTime c) (initialMilliseconds c)
                      (initialMilliseconds c) (currentValue c) (progress c)
                      (workingIntervals c))
             (play obj) (progressTicker obj) (intervals obj) (nextId obj) in
  let obj := setProgressTicker now obj in
  mkPlayer (clock obj) true (progressTicker obj) (intervals obj) (nextId obj).

(** [startPlaying()] *)
Definition startPlaying (cfg : config) (startText : string)
    (preSpeakStart : Z) (now : Z) (p : player) : player * list effect :=
  if (endTime (clock p) =? 0) && sayStart cfg
  then (p, [Say startText; SetTimeout StartPlayingInner preSpeakStart])
  else (startPlayingInner now p, []).

(** [pausePlaying()], less its changes to the buttons. *)
Definition pausePlaying (p : player) : player :=
  let p := clearTimerInterval p in
  mkPlayer (clock p) false (progressTicker p) (intervals p) (nextId p).

(** The handler [getPlayPauseClick] returns. *)
Definition playPauseClick (cfg : config) (startText : string)
    (preSpeakStart : Z) (now : Z) (p : player) : player * list effect :=
  if play p then (pausePlaying p, [])
  else startPlaying cfg startText preSpeakStart now p.

(** [endPlaying()], less its changes to the buttons; the call of
    [this.resetClick()] is handed on as an effect. *)
Definition endPlaying (cfg : config) (endText : string)
    (preSpeakEnd chimeDelay : Z) (p : player) : player * list effect :=
  let delay := 0 in
  let '(says, delay) :=
    if negb (noSayEnd cfg) then ([Say endText], preSpeakEnd)
    else ([], delay) in
  let '(chime, delay) :=
    if negb (noEndChime cfg) then ([SetTimeout EndSound delay], chimeDelay)
    else ([], delay) in
  let p := clearTimerInterval p in
  if negb (autoDestruct cfg =? -1) then
    let timeout :=
      if autoDestruct cfg <? delay then delay else autoDestruct cfg in
    (p, (says ++ chime ++ [SetTimeout Remove timeout])%list)
  else if autoReset cfg then (p, (says ++ chime ++ [ResetClick])%list)
  else (p, (says ++ chime)%list).

(** * The same functions on binary64 numbers

    An ECMAScript Number is a binary64 float, and the language defines each
    arithmetic operation as the exact result rounded to the nearest Number,
    ties to even.  The module below follows that definition on the finite
    Numbers, each held as the rational it denotes: [fl] is the rounding,
    and [add], [sub], [mul] and [div] are the operators [+], [-], [*] and
    [/] of the source.  Comparisons need no rounding.  Infinities, [NaN],
    the sign of zero, overflow (sizes from 2^1024) and underflow (sizes
    below 2^-1022) are outside the module; no duration, offset or quantity
    below comes near them, and a quantity of 309 digits or more, which the
    source reads as [Infinity], is kept finite here.

    The functions of the schedule whose results depend on the rounding are
    given again on these numbers, under their names in the source.  A loop
    whose end depends on the arithmetic runs on [fuel] rounds, and [None]
    tells that it has not ended. *)

Module Binary64.

Definition pow2 (e : Z) : Q := Qpower 2 e.

(** [floor(log2 |q|)] for a [q] other than 0. *)
Definition ilog2 (q : Q) : Z :=
  let k := Z.log2 (Z.abs (Qnum q)) - Z.log2 (Zpos (Qden q)) in
  if Qle_bool (pow2 k) (Qabs q) then k else k - 1.

(** The integer nearest to [x], the even one of two that are as near. *)
Definition round_half_even (x : Q) : Z :=
  let f := Qfloor x in
  match (x - inject_Z f ?= 1 # 2)%Q with
  | Lt => f
  | Gt => f + 1
  | Eq => if Z.even f then f else f + 1
  end.

(** The Number value for the real [q]: [q] rounded to 53 significant
    bits. *)
Definition fl (q : Q) : Q :=
  if Qeq_bool q 0 then 0%Q
  else
    let e := ilog2 q - 52 in
    Qred (inject_Z (round_half_even (q / pow2 e)) * pow2 e).

Definition add (x y : Q) : Q := fl (x + y).
Definition sub (x y : Q) : Q := fl (x - y).
Definition mul (x y : Q) : Q := fl (x * y).
Definition div (x y : Q) : Q := fl (x / y).

(** The Number [Number.parseInt] returns for the integer its digits
    spell. *)
Definition of_Z (z : Z) : Q := fl (inject_Z z).

(** [posMinus(a, b)] *)
Definition posMinus (a b : Q) : Q :=
  if Qltb b a then sub a b else sub b a.

(** [tooClose(current, previous)] *)
Definition tooClose (current previous : Q) : bool :=
  Qltb (sub previous 5000) current && Qltb current (add previous 5000).

(** [tooCloseAny(offset, previous)] *)
Fixpoint tooCloseAny (offset : Q) (previous : list Q) : bool :=
  match previous with
  | [] => false
  | p :: previous' =>
      if tooClose offset p then true else tooCloseAny offset previous'
  end.

(** [makeTimeMessage(offset, suffix, forceSufix)]; the numbers it prints
    are integers, which print as their digits below 10^21. *)
Definition makeTimeMessage (offset : Q) (suffix : string) (forceSufix : bool)
  : string :=
  let output := "" in
  let working := offset in
  let comma := "" in
  if Qltb working 20000 then
    let tmpSuffix :=
      if forceSufix then " seconds" ++ suffix
      else if Qltb 10000 working then " seconds" else "" in
    Z_to_string (Math_round (div working 1000)) ++ tmpSuffix
  else
    let '(output, working, comma) :=
      if Qle_bool 3600000 working then
        let hours := Qfloor (div working 3600000) in
        (output ++ comma ++ Z_to_string hours ++ " hour"
           ++ (if 1 <? hours then "s" else ""),
         sub working (mul (inject_Z hours) 3600000), ", ")
      else (output, working, comma) in
    let '(output, working, comma) :=
      if Qle_bool 60000 working then
        let minutes := Qfloor (div working 60000) in
        (* the source assigns here: [output = comma + ...] *)
        (comma ++ Z_to_string minutes ++ " minute"
           ++ (if 1 <? minutes then "s" else ""),
         sub working (mul (inject_Z minutes) 60000), ", ")
      else (output, working, comma) in
    let working := Math_round (div working 1000) in
    let output :=
      if 0 <? working then
        output ++ comma ++ Z_to_string working ++ " second"
          ++ (if 1 <? working then "s" else "")
      else output in
    output ++ suffix.

(** The items pushed by the loops of [getFractionOffsetAndMessage], before
    the final [map].  The counter [a] and [count] are integers of at most
    10, exact as Numbers. *)
Definition fraction_offsets (sfx : suffixes) (intervalObj : intervalObj)
    (milliseconds : Q) : list announcement :=
  let interval := div milliseconds (inject_Z (denominator intervalObj)) in
  let count :=
    if (multiplier intervalObj =? 0)
       || (denominator intervalObj <=? multiplier intervalObj)
    then denominator intervalObj else multiplier intervalObj in
  if negb (String.eqb (relative intervalObj) "") then
    let suffix :=
      if String.eqb (relative intervalObj) "first" then first sfx else last sfx in
    let minus :=
      if String.eqb (relative intervalObj) "first" then milliseconds else 0%Q in
    List.map
      (fun a =>
         mkAnn (posMinus minus (mul interval (inject_Z a)))
               (makeFractionMessage sfx a (denominator intervalObj) ++ suffix))
      (upto count)
  else
    List.flat_map
      (fun a =>
         let message := makeFractionMessage sfx a (denominator intervalObj) in
         [ mkAnn (sub milliseconds (mul interval (inject_Z a)))
                 (message ++ last sfx);
           mkAnn (mul interval (inject_Z a)) (message ++ first sfx) ])
      (upto (count / 2)).

(** The callback of the final [offsets.map]. *)
Definition collapse_half (sfx : suffixes) (half_ : Q) (item : announcement)
  : announcement :=
  if tooClose (offset item) half_ then mkAnn half_ (half sfx) else item.

(** [getFractionOffsetAndMessage(intervalObj, milliseconds)] *)
Definition getFractionOffsetAndMessage (sfx : suffixes)
    (intervalObj : intervalObj) (milliseconds : Q) : list announcement :=
  let half_ := div milliseconds 2 in
  if denominator intervalObj =? 2 then [ mkAnn half_ "Half way" ]
  else
    List.map (collapse_half sfx half_)
      (fraction_offsets sfx intervalObj milliseconds).

(** [for (let offset = start; offset <= bound; offset += step) body(offset)] *)
Fixpoint for_up (fuel : nat) (offset step bound : Q)
    (body : Q -> list announcement) : option (list announcement) :=
  match fuel with
  | O => None
  | S fuel' =>
      if Qle_bool offset bound
      then option_map (app (body offset))
             (for_up fuel' (add offset step) step bound body)
      else Some []
  end.

(** [for (let a = count; a > 0; a -= 1) body(a)] *)
Fixpoint for_down (fuel : nat) (a : Q) (body : Q -> announcement)
  : option (list announcement) :=
  match fuel with
  | O => None
  | S fuel' =>
      if Qltb 0 a
      then option_map (cons (body a)) (for_down fuel' (sub a 1) body)
      else Some []
  end.

(** [getTimeOffsetAndMessage(intervalObj, milliseconds, raw)]; the
    quantity [intervalObj.time] is the Number of the integer in the
    record. *)
Definition getTimeOffsetAndMessage (fuel : nat) (sfx : suffixes)
    (intervalObj : intervalObj) (milliseconds : Q)
  : option (list announcement) :=
  let time_ := of_Z (time intervalObj) in
  let suffix :=
    if String.eqb (relative intervalObj) "first" then first sfx else last sfx in
  if (all intervalObj || every intervalObj) || (1 <? multiplier intervalObj)
  then
    if (all intervalObj || every intervalObj) && (multiplier intervalObj <=? 1)
    then
      if String.eqb (relative intervalObj) "" then
        let half_ := div milliseconds 2 in
        let interval := mul time_ 1000 in
        for_up fuel interval interval half_
          (fun offset =>
             [ mkAnn offset (makeTimeMessage offset (last sfx) false);
               mkAnn (sub milliseconds offset)
                     (makeTimeMessage offset (first sfx) false) ])
      else
        let interval :=
          if String.eqb (unit intervalObj) "m" then 60000%Q
          else if String.eqb (unit intervalObj) "h" then 3600000%Q
          else 1000%Q in
        let '(interval, count) :=
          if every intervalObj then
            let interval := mul interval time_ in
            (interval, div milliseconds interval)
          else (interval, time_) in
        let modifier :=
          if negb (String.eqb (relative intervalObj) "first")
          then 0%Q else milliseconds in
        let forceSufix := String.eqb (relative intervalObj) "first" in
        for_down fuel count
          (fun a =>
             let offset := mul a interval in
             mkAnn (posMinus modifier offset)
                   (makeTimeMessage offset suffix forceSufix))
    else if 1 <? multiplier intervalObj then
      let unit_ :=
        if String.eqb (unit intervalObj) "s" then 10000%Q
        else if String.eqb (unit intervalObj) "m" then 60000%Q
        else 3600000%Q in
      let interval := mul time_ unit_ in
      let modifier :=
        if String.eqb (relative intervalObj) "last" then 0%Q else milliseconds in
      for_up fuel interval interval time_
        (fun offset =>
           [ mkAnn (posMinus modifier offset)
                   (makeTimeMessage offset suffix false) ])
    else Some []
  else
    let interval := mul time_ 1000 in
    let offset :=
      if negb (String.eqb (relative intervalObj) "first")
      then interval else sub milliseconds interval in
    Some [ mkAnn offset (makeTimeMessage interval suffix false) ].

(** The callback of [offsets.filter] in [filterOffsets], with the array
    [found] it pushes to. *)
Definition keep (found : list Q) (max : Q) (item : announcement) : bool :=
  negb (indexOf_found (offset item) found)
  && (Qle_bool (offset item) 30000
      || negb (tooCloseAny (offset item) found))
  && Qltb (offset item) max
  && Qltb 0 (offset item).

Fixpoint filter_from (found : list Q) (offsets : list announcement) (max : Q)
  : list announcement :=
  match offsets with
  | [] => []
  | item :: offsets' =>
      if keep found max item
      then item :: filter_from (found ++ [offset item]) offsets' max
      else filter_from found offsets' max
  end.

(** [filterOffsets(offsets, max)] *)
Definition filterOffsets (offsets : list announcement) (max : Q)
  : list announcement :=
  filter_from [] offsets max.

(** [tmpIntervals] of one round of the loop of [parseRawIntervals], and
    whether the round took the fraction branch.  The multiplier and the
    denominator are compared as the integers the record holds: rounding an
    integer to a Number does not move it across a small integer. *)
Definition round_intervals (fuel : nat) (sfx : suffixes) (exclude : bool)
    (durationMilli : Q) (matches : result)
  : option (bool * list announcement) :=
  let interval := interval_of_match exclude matches in
  match group matches 7 with
  | Some m7 =>
      let denominator_ := parseInt m7 in
      Some (true,
            getFractionOffsetAndMessage sfx
              (as_fraction interval denominator_) durationMilli)
  | None =>
      let m4 := match group matches 4 with
                | Some m4 => parseInt m4
                | None => 0
                end in
      let unit_ := match group matches 5 with
                   | Some m5 => toLocaleLowerCase m5
                   | None => "s"
                   end in
      option_map (pair false)
        (getTimeOffsetAndMessage fuel sfx (as_time interval unit_ m4)
           durationMilli)
  end.

(** One round of the loop of [parseRawIntervals]. *)
Definition parse_round (fuel : nat) (sfx : suffixes) (priority : string)
    (exclude : bool) (durationMilli : Q) (acc : option arrays)
    (matches : result) : option arrays :=
  match acc with
  | None => None
  | Some acc =>
      match round_intervals fuel sfx exclude durationMilli matches with
      | None => None
      | Some (fraction, tmpIntervals) =>
          Some
            (if String.eqb priority "order"
             then mkArrays (timeIntervals acc) (fractionIntervals acc)
                           (orderIntervals acc ++ tmpIntervals)
             else if fraction
                  then mkArrays (timeIntervals acc)
                                (fractionIntervals acc ++ tmpIntervals)
                                (orderIntervals acc)
                  else mkArrays (timeIntervals acc ++ tmpIntervals)
                                (fractionIntervals acc)
                                (orderIntervals acc))
      end
  end.

(** What [parseRawIntervals] returns from the three arrays. *)
Definition build (priority : string) (durationMilli : Q) (acc : arrays)
  : list announcement :=
  let output :=
    if String.eqb priority "order" then orderIntervals acc
    else if String.eqb priority "time"
         then (timeIntervals acc ++ fractionIntervals acc)%list
         else (fractionIntervals acc ++ timeIntervals acc)%list in
  sortOffsets (filterOffsets output durationMilli).

(** [parseRawIntervals(rawIntervals, durationMilli, omit)], its inner loops
    on [fuel] rounds each.  The loop over the matches always ends (lemma
    [exec_loop_enough]) and has the rounds it needs. *)
Definition parseRawIntervals (fuel : nat) (sfx : suffixes)
    (priority : string) (rawIntervals : jsval) (durationMilli : Q)
    (omit : option bool) : option (list announcement) :=
  match rawIntervals with
  | JString s =>
      if String.eqb s "" then Some []
      else
        let exclude := match omit with Some b => b | None => false end in
        match exec_loop (enough_fuel rawIntervals) s 0 with
        | Some ms =>
            option_map (build priority durationMilli)
              (List.fold_left
                 (parse_round fuel sfx priority exclude durationMilli)
                 ms (Some (mkArrays [] [] [])))
        | None => None
        end
  | _ => Some []
  end.

End Binary64.

(** * Vocabulary of the properties *)

(** A schedule with its offsets in lowest terms, for reading. *)
Definition view (schedule : option (list announcement))
  : option (list (Q * string)) :=
  option_map (List.map (fun a => (Qred (offset a), message a))) schedule.

(** The countdown of the last ten seconds. *)
Definition last_ten : list announcement :=
  [ mkAnn 10000 "10"; mkAnn 9000 "9"; mkAnn 8000 "8"; mkAnn 7000 "7";
    mkAnn 6000 "6"; mkAnn 5000 "5"; mkAnn 4000 "4"; mkAnn 3000 "3";
    mkAnn 2000 "2"; mkAnn 1000 "1" ].

(** A timer whose ticks were held up: 100 ms before its end, when the
    clock reads 100000, the announcements of 10000 and 9000 still wait. *)
Definition backlog : timer :=
  mkTimer 100100 180000 10500 (mkTimeObj 0 0 10 5) (17 # 18)
          [ mkAnn 10000 "10"; mkAnn 9000 "9" ].

(** What [keep] decides, as order facts on the offsets found so far. *)
Definition fresh (found : list Q) (x : Q) : Prop :=
  forall f, In f found -> ~ (f == x)%Q.

(** [x] is not within 5000 ms of an offset found so far. *)
Definition apart (found : list Q) (x : Q) : Prop :=
  forall f, In f found -> ~ (f - 5000 < x /\ x < f + 5000)%Q.

(** Two accepted items: different offsets, and 5000 ms apart when both
    are above 30000. *)
Definition compatible (a b : announcement) : Prop :=
  ~ (offset a == offset b)%Q
  /\ ((30000 < offset a)%Q -> (30000 < offset b)%Q ->
      (5000 <= Qabs (offset a - offset b))%Q).

(** Where a successful match calls its continuation: on the input that is
    left after some characters [w], at least [min_len r] of them. *)
Definition reaches (k : state -> option state) (st : state)
    (res : state) (n : nat) : Prop :=
  exists (st' : state) (w : list ascii),
    k st' = Some res
    /\ rest st = (w ++ rest st')%list
    /\ pos st' = (pos st + List.length w)%nat
    /\ (n <= List.length w)%nat.

(** Characters of a token. *)
Definition nonspace (c : ascii) : Prop := is_space c = false.

(** Input on which no directive can go on: the end or a white space. *)
Definition blocked (l : list ascii) : Prop :=
  match l with
  | [] => True
  | c :: _ => is_space c = true
  end.

(** The characters [\s] takes. *)
Definition space_chars : list ascii :=
  List.map ascii_of_nat [9; 10; 11; 12; 13; 32; 160]%nat.

Definition cls_spaceless (ic : bool) (c : cls) : bool :=
  forallb (fun a => negb (in_cls ic a c)) space_chars.

Definition str_spaceless (ic : bool) (s : string) : bool :=
  forallb (fun a => negb (in_string ic a s)) space_chars.

(** Expressions that take no white space and do not look around. *)
Fixpoint spaceless (ic : bool) (r : regex) : bool :=
  match r with
  | Str s => str_spaceless ic s
  | Cls c | Rep c _ _ => cls_spaceless ic c
  | Seq r1 r2 | Alt r1 r2 => spaceless ic r1 && spaceless ic r2
  | Opt r1 | Group _ r1 => spaceless ic r1
  | Bol | Eol | Look _ => false
  end.

(** Two match attempts on the same characters [u], at positions [delta]
    apart, the one followed by [tail1], the other by [tail2]; [total] is the
    position at which [u] ends in the second. *)
Definition sim (tail1 tail2 : list ascii) (delta total : nat)
    (s1 s2 : state) : Prop :=
  exists u : list ascii,
    Forall nonspace u
    /\ rest s1 = (u ++ tail1)%list
    /\ rest s2 = (u ++ tail2)%list
    /\ caps s1 = caps s2
    /\ pos s1 = (delta + pos s2)%nat
    /\ (pos s2 + List.length u)%nat = total.

(** Two such attempts end alike: both fail, or both succeed with the same
    groups, [delta] apart. *)
Definition res_sim (delta : nat) (o1 o2 : option state) : Prop :=
  match o1, o2 with
  | Some a, Some b => caps a = caps b /\ pos a = (delta + pos b)%nat
  | None, None => True
  | _, _ => False
  end.

(** The white-space-separated tokens of a string: [cur] holds, in reverse,
    the characters of the token being read. *)
Fixpoint tokens_acc (cur : list ascii) (l : list ascii)
  : list (list ascii) :=
  match l with
  | [] => match cur with [] => [] | _ :: _ => [rev cur] end
  | c :: l' =>
      if is_space c
      then match cur with
           | [] => tokens_acc [] l'
           | _ :: _ => rev cur :: tokens_acc [] l'
           end
      else tokens_acc (c :: cur) l'
  end.

Definition tokens (s : string) : list (list ascii) :=
  tokens_acc [] (list_ascii_of_string s).

(** A token against the grammar, from its first to its last character. *)
Definition match_token (t : list ascii) : option state :=
  rmatch true (grammar ++ Eol)%re Some (mkState 0 t []).

(** What the match of a token gives the loop: its groups. *)
Definition token_result (t : list ascii) : option result :=
  option_map
    (fun st => mkResult 0 (pos st) (string_of_list_ascii t) (caps st))
    (match_token t).

(** The tokens that match, in order. *)
Fixpoint matching (ts : list (list ascii)) : list result :=
  match ts with
  | [] => []
  | t :: ts' =>
      match token_result t with
      | Some m => m :: matching ts'
      | None => matching ts'
      end
  end.


(** The part of the expression that runs after the white space. *)
Definition directive : regex := (grammar ++ Look (Plus Space || Eol))%re.

(** Characters between tokens. *)
Definition space (c : ascii) : Prop := is_space c = true.

(** Input on which a token starts, or the end. *)
Definition at_token (l : list ascii) : Prop :=
  match l with
  | [] => True
  | c :: _ => is_space c = false
  end.

(** A schedule in the order the dispatcher consumes it: each offset
    strictly above the ones behind it. *)
Definition descending (schedule : list announcement) : Prop :=
  StronglySorted (fun a b => (offset b < offset a)%Q) schedule.

(** The same with ties allowed: what [sortOffsets] gives on any list. *)
Definition not_ascending (l : list announcement) : Prop :=
  StronglySorted (fun a b => (offset b <= offset a)%Q) l.

(** The values of [a] in [for (let a = count; a > 0; a -= 1)] over [n]
    rounds: [count], [count - 1], ... *)
Fixpoint countdown (n : nat) (a : Q) : list Q :=
  match n with
  | O => []
  | S n' => a :: countdown n' (a - 1)%Q
  end.

(** [unit] in milliseconds, as the [switch] of the relative branch reads
    it. *)
Definition unit_ms (unit_ : string) : Q :=
  if String.eqb unit_ "m" then 60000%Q
  else if String.eqb unit_ "h" then 3600000%Q
  else 1000%Q.

(** The values of [offset] in
    [for (let offset = a; ...; offset += step)] over [n] rounds. *)
Fixpoint climb (n : nat) (a step : Q) : list Q :=
  match n with
  | O => []
  | S n' => a :: climb n' (a + step)%Q step
  end.





(** A time object with all four properties. *)
Definition fields_of (t : timeObj) : fields :=
  mkFields (Some (Num (hours t))) (Some (Num (minutes t)))
           (Some (Num (seconds t))) (Some (Num (tenths t))).

(** A field after the first: two digits at least. *)
Definition pad2 (n : Z) : string :=
  (if n <? 10 then "0" else "") ++ Z_to_string n.

(** The markup of the tenths. *)
Definition span (n : Z) : string :=
  "<span class=" ++ quote ++ "tenths" ++ quote ++ ">" ++ Z_to_string n
    ++ "</span>".

(** The play/pause button clicked at each of the clock readings [times]. *)
Definition clicks (cfg : config) (startText : string) (preSpeakStart : Z)
    (times : list Z) (p : player) : player :=
  List.fold_left
    (fun p now => fst (playPauseClick cfg startText preSpeakStart now p))
    times p.



(** At most the interval [this.progressTicker] names is live, and it is
    there exactly while [this.play] holds. *)
Definition tidy (p : player) : Prop :=
  intervals p = match progressTicker p with
                | Some id => [id]
                | None => []
                end
  /\ (play p = true <-> progressTicker p <> None).

(** A count and its unit, as the messages spell them. *)
Definition plural (n : Z) (word : string) : string :=
  Z_to_string n ++ " " ++ word ++ (if 1 <? n then "s" else "").

(** The name [makeFractionMessage] gives to a denominator. *)
Definition fraction_name (d : Z) : string :=
  if d =? 3 then "third"
  else if d =? 4 then "quarter"
  else if d =? 5 then "fifth"
  else if d =? 6 then "sixth"
  else if d =? 7 then "seventh"
  else if d =? 8 then "eighth"
  else if d =? 9 then "ninth"
  else if d =? 10 then "tenth"
  else "".

(** What a successful match of [r] does between the state it starts in and
    the state in which it calls its continuation. *)
Fixpoint steps (ic : bool) (r : regex) (st st1 : state) : Prop :=
  match r with
  | Str s =>
      exists w,
        rest st = (w ++ rest st1)%list
        /\ List.Forall2 (fun a c => same_char ic a c = true) w
                        (list_ascii_of_string s)
        /\ pos st1 = (pos st + List.length w)%nat
        /\ caps st1 = caps st
  | Cls c =>
      exists a,
        rest st = a :: rest st1
        /\ in_cls ic a c = true
        /\ pos st1 = S (pos st)
        /\ caps st1 = caps st
  | Rep c lo hi =>
      exists w,
        rest st = (w ++ rest st1)%list
        /\ List.Forall (fun a => in_cls ic a c = true) w
        /\ (lo <= List.length w)%nat
        /\ match hi with
           | Some h => (List.length w <= h)%nat
           | None => True
           end
        /\ pos st1 = (pos st + List.length w)%nat
        /\ caps st1 = caps st
  | Seq r1 r2 => exists mid, steps ic r1 st mid /\ steps ic r2 mid st1
  | Alt r1 r2 => steps ic r1 st st1 \/ steps ic r2 st st1
  | Opt r1 => steps ic r1 st st1 \/ st1 = st
  | Group n r1 => exists to, steps ic r1 st to /\ st1 = set_cap n st to
  | Bol => pos st = 0%nat /\ st1 = st
  | Eol => rest st = [] /\ st1 = st
  | Look r1 =>
      exists st', steps ic r1 st st'
                  /\ st1 = mkState (pos st) (rest st) (caps st')
  end.

(** A stretch of a match that takes the characters [w] and captures
    nothing. *)
Definition consumes (st to : state) (w : list ascii) : Prop :=
  rest st = (w ++ rest to)%list
  /\ pos to = (pos st + List.length w)%nat
  /\ caps to = caps st.

(** The largest relative error of a rounding to binary64: [2^-53]. *)
Definition eps64 : Q := 1 # 9007199254740992.

(** [x] passes the closeness test of the source against every offset found
    so far. *)
Definition apart64 (found : list Q) (x : Q) : Prop :=
  forall f, In f found -> Binary64.tooClose x f = false.

(** Two accepted items: different offsets, and when both are above 30000
    one of them passed the closeness test against the other. *)
Definition compatible64 (a b : announcement) : Prop :=
  ~ (offset a == offset b)%Q
  /\ ((30000 < offset a)%Q -> (30000 < offset b)%Q ->
      Binary64.tooClose (offset a) (offset b) = false
      \/ Binary64.tooClose (offset b) (offset a) = false).

(** What a match of the notation says, read off its groups before the loop
    body changes anything: the keyword, the edge and the multiplier as
    written. *)
Definition keyword_of (matches : result) : string :=
  match group matches 1 with
  | Some m1 => toLocaleLowerCase m1
  | None => ""
  end.

Definition edge_of (matches : result) : string :=
  match group matches 3 with
  | Some m3 => toLocaleLowerCase m3
  | None => ""
  end.

Definition written_multiplier (matches : result) : Z :=
  match group matches 2 with
  | Some m2 => parseInt m2
  | None => 1
  end.

(** The number of announcements of a fraction token relative to an edge,
    from what is written: with [all] or [every] the denominator, whatever
    the multiplier; otherwise the denominator for a multiplier of 0, one
    less than the denominator for a multiplier of the denominator or more,
    and the multiplier in between. *)
Definition fraction_count (matches : result) (d : Z) : Z :=
  if String.eqb (keyword_of matches) "all"
     || String.eqb (keyword_of matches) "every"
  then d
  else if written_multiplier matches =? 0 then d
       else if d <=? written_multiplier matches then d - 1
            else written_multiplier matches.

(** The numbers of the capturing groups of an expression. *)
Fixpoint groups (r : regex) : list nat :=
  match r with
  | Str _ | Cls _ | Rep _ _ _ | Bol | Eol => []
  | Seq r1 r2 | Alt r1 r2 => (groups r1 ++ groups r2)%list
  | Opt r1 | Look r1 => groups r1
  | Group n r1 => n :: groups r1
  end.

(** The three arrays after the loop of the parser has taken the tokens of
    [s] that match the grammar, in order, with [fuel] rounds for each loop
    of the generators. *)
Definition expand64 (fuel : nat) (sfx : suffixes) (priority : string)
    (s : string) (durationMilli : Q) (omit : option bool) : option arrays :=
  let exclude := match omit with Some b => b | None => false end in
  List.fold_left (Binary64.parse_round fuel sfx priority exclude durationMilli)
    (matching (tokens s)) (Some (mkArrays [] [] [])).

(** The announcements the three arrays hold. *)
Definition items (acc : arrays) : Z :=
  Z.of_nat (List.length (timeIntervals acc)
            + List.length (fractionIntervals acc)
            + List.length (orderIntervals acc)).

(** What [onlyGreaterThanZero] stores for a property it keeps. *)
Definition kept_value (v : option jsnum) : option jsnum :=
  Some (match v with Some x => x | None => Num 0 end).

(** [unit] in milliseconds, as the [switch] of the relative branch reads
    it, as an integer. *)
Definition unit_Z (unit_ : string) : Z :=
  if String.eqb unit_ "m" then 60000
  else if String.eqb unit_ "h" then 3600000
  else 1000.

(** A whole number of milliseconds that a window of 5000 ms around it
    does not take out of the integers a Number holds exactly. *)
Definition whole_ms (q : Q) : Prop :=
  exists z : Z, q = inject_Z z /\ Z.abs z <= 4503599627370496.

(** * Properties *)

(** ** The code at work *)

Example duration_minutes : validateTimeDuration "03:00" = Some 180000.
Proof. reflexivity. Qed.

Example duration_hours : validateTimeDuration "1:02:03" = Some 3723000.
Proof. reflexivity. Qed.

Example duration_seconds : validateTimeDuration "75" = Some 75000.
Proof. reflexivity. Qed.

Example duration_clamped : validateTimeDuration "999999" = Some 86400000.
Proof. reflexivity. Qed.

Example duration_rejected : validateTimeDuration "7x" = None.
Proof. reflexivity. Qed.

(** The groups of some tokens: a word is no token, ["3/4"] is none either
    (a fraction is written with the numerator before a literal ["1/"]). *)
Example notation_groups :
  option_map (List.map (fun m => (whole m, captures m)))
    (exec_loop 100 "all60 7last1/5 31/4 every_first-20s  bogus 3/4 x30s 2m" 0)
  = Some
      [ ("all60", [(5, ""); (4, "60"); (1, "all")]);
        (" 7last1/5", [(7, "5"); (3, "last"); (2, "7")]);
        (" 31/4", [(7, "4"); (2, "3")]);
        (" every_first-20s",
         [(5, "s"); (4, "20"); (3, "first"); (1, "every")]);
        (" 2m", [(5, "m"); (4, "2")]) ]%nat.
Proof. vm_compute. reflexivity. Qed.

(** The schedule of the default notation on three minutes. *)
Example default_schedule :
  view (parseRawIntervals default_suffixes "fraction"
          (JString "1/2 30s last20 last15 allLast10") 180000 None)
  = Some
      [ (150000, "30 seconds gone."); (120000, "1 minute gone.");
        (90000, "Half way"); (60000, "1 minute to go.");
        (30000, "30 seconds to go."); (20000, "20 seconds to go.");
        (15000, "15 seconds"); (10000, "10"); (9000, "9"); (8000, "8");
        (7000, "7"); (6000, "6"); (5000, "5"); (4000, "4"); (3000, "3");
        (2000, "2"); (1000, "1") ]%Q.
Proof. vm_compute. reflexivity. Qed.

(** ** Time codec *)

Lemma getWholePart_mod (input multiplier : Z) :
  getWholePart input multiplier
  = (input / multiplier, input mod multiplier).
Proof.
  unfold getWholePart. f_equal.
  destruct (Z.eq_dec multiplier 0) as [-> | Hm].
  - rewrite Z.div_0_r, Z.mod_0_r. lia.
  - rewrite Z.mod_eq by assumption. lia.
Qed.

Lemma roundtrip_value (d : Z) :
  timeObjToMilliseconds (millisecondsToTimeObj d) = d - d mod 100.
Proof.
  unfold millisecondsToTimeObj, timeObjToMilliseconds.
  rewrite !getWholePart_mod. cbn [hours minutes seconds tenths].
  unfold mult_hours, mult_minutes, mult_seconds, mult_tenths.
  pose proof (Z.div_mod d 3600000 ltac:(lia)) as H1.
  pose proof (Z.div_mod (d mod 3600000) 60000 ltac:(lia)) as H2.
  pose proof (Z.div_mod ((d mod 3600000) mod 60000) 1000 ltac:(lia)) as H3.
  pose proof (Z.div_mod (((d mod 3600000) mod 60000) mod 1000) 100 ltac:(lia))
    as H4.
  assert (Hm : (((d mod 3600000) mod 60000) mod 1000) mod 100 = d mod 100).
  { rewrite (Z.mod_mod_divide _ 1000 100) by (exists 10; lia).
    rewrite (Z.mod_mod_divide _ 60000 100) by (exists 600; lia).
    apply Z.mod_mod_divide. exists 36000. lia. }
  lia.
Qed.

(** C1, as stated, fails: a duration of 50 ms comes back as 0. *)
Lemma roundtrip_counterexample :
  0 <= 50 <= 86400000
  /\ timeObjToMilliseconds (millisecondsToTimeObj 50) <> 50.
Proof. split; [lia | vm_compute; discriminate]. Qed.

(** C1, amended: for every duration [d] in [[0, 86400000]] the round trip
    through the time components gives [d] rounded down to a whole tenth of a
    second, [d - d mod 100]; it gives [d] back exactly when [d] is a
    multiple of 100. *)
Theorem roundtrip_tenths (d : Z) :
  0 <= d <= 86400000 ->
  timeObjToMilliseconds (millisecondsToTimeObj d) = d - d mod 100
  /\ (timeObjToMilliseconds (millisecondsToTimeObj d) = d <-> d mod 100 = 0).
Proof.
  intros _. rewrite roundtrip_value. split; [reflexivity | lia].
Qed.

Lemma roundtrip_tenths_witness :
  timeObjToMilliseconds (millisecondsToTimeObj 61250) = 61250 - 61250 mod 100
  /\ (timeObjToMilliseconds (millisecondsToTimeObj 61250) = 61250
      <-> 61250 mod 100 = 0).
Proof. apply (roundtrip_tenths 61250). lia. Defined.

(** The seconds-only branch of [validateTimeDuration] keeps to the
    ceiling of 24 hours. *)
Lemma validateTimeDuration_seconds_clamped (s m4 : string) (matches : result)
    (ms : Z) :
  exec false duration_regex s 0 = Some matches ->
  group matches 4 = Some m4 ->
  validateTimeDuration s = Some ms ->
  ms <= 86400000.
Proof.
  unfold validateTimeDuration. intros -> -> [= <-].
  destruct (86400 <? parseInt m4) eqn:E; [lia |].
  apply Z.ltb_ge in E. lia.
Qed.

(** C2: the string ["24:59:59"] matches the pattern "HH:MM:SS" and sets an
    initial duration of 89,999,000 ms, above the ceiling of 86,400,000 ms
    that the seconds-only branch enforces. *)
Theorem validateTimeDuration_over_ceiling :
  validateTimeDuration "24:59:59" = Some 89999000
  /\ 86400000 < 89999000
  /\ validateTimeDuration "89999" = Some 86400000.
Proof. repeat split. Qed.

(** ** Lead table *)

(** C9: on the table of the constructor, with any three delays,
    [getSpeakPreOffset] returns a value for every non-negative
    [timeRemaining]: the first delay up to 10000, the second above 10000 and
    up to 19999, and the third for every larger value, also above the last
    threshold 86400, where the fall-back after the loop applies. *)
Theorem getSpeakPreOffset_bands (d1 d2 d3 timeRemaining : Q) :
  (0 <= timeRemaining)%Q ->
  ((timeRemaining <= 10000)%Q ->
     getSpeakPreOffset (pre_table d1 d2 d3) timeRemaining = Some d1)
  /\ ((10000 < timeRemaining)%Q -> (timeRemaining <= 19999)%Q ->
     getSpeakPreOffset (pre_table d1 d2 d3) timeRemaining = Some d2)
  /\ ((19999 < timeRemaining)%Q ->
     getSpeakPreOffset (pre_table d1 d2 d3) timeRemaining = Some d3)
  /\ ((86400 < timeRemaining)%Q ->
     pre_scan timeRemaining (pre_table d1 d2 d3) = None).
Proof.
  intros _. unfold getSpeakPreOffset, pre_table. cbn [pre_scan remaining delay].
  destruct (Qle_bool timeRemaining 10000) eqn:E1;
    destruct (Qle_bool timeRemaining 19999) eqn:E2;
    destruct (Qle_bool timeRemaining 86400) eqn:E3;
    repeat match goal with
      | H : Qle_bool _ _ = true |- _ => apply Qle_bool_iff in H
      | H : Qle_bool _ _ = false |- _ =>
          apply not_true_iff_false in H; rewrite Qle_bool_iff in H
      end;
    repeat split; intros; try reflexivity; try lra.
Qed.

Lemma getSpeakPreOffset_bands_witness :
  getSpeakPreOffset default_pre 5000 = Some 200%Q
  /\ getSpeakPreOffset default_pre 15000 = Some 600%Q
  /\ getSpeakPreOffset default_pre 100000 = Some 1200%Q.
Proof.
  pose proof (getSpeakPreOffset_bands 200 600 1200 5000 ltac:(lra))
    as (H1 & _).
  pose proof (getSpeakPreOffset_bands 200 600 1200 15000 ltac:(lra))
    as (_ & H2 & _).
  pose proof (getSpeakPreOffset_bands 200 600 1200 100000 ltac:(lra))
    as (_ & _ & H3 & _).
  split; [apply H1; lra | split; [apply H2; lra | apply H3; lra]].
Defined.

(** ** Comparisons on rationals *)

Lemma Qltb_lt (a b : Q) : Qltb a b = true <-> (a < b)%Q.
Proof.
  unfold Qltb. rewrite negb_true_iff, <- not_true_iff_false, Qle_bool_iff.
  split; [apply Qnot_le_lt | apply Qlt_not_le].
Qed.

Lemma Qltb_ge (a b : Q) : Qltb a b = false <-> (b <= a)%Q.
Proof.
  unfold Qltb. rewrite negb_false_iff. apply Qle_bool_iff.
Qed.

Lemma Qle_bool_gt (a b : Q) : Qle_bool a b = false <-> (b < a)%Q.
Proof.
  rewrite <- not_true_iff_false, Qle_bool_iff.
  split; [apply Qnot_le_lt | apply Qlt_not_le].
Qed.

(** Turns the boolean tests of the code, once decided, into order facts. *)
Ltac order_facts :=
  repeat match goal with
    | H : Qltb _ _ = true |- _ => apply Qltb_lt in H
    | H : Qltb _ _ = false |- _ => apply Qltb_ge in H
    | H : Qle_bool _ _ = true |- _ => apply Qle_bool_iff in H
    | H : Qle_bool _ _ = false |- _ => apply Qle_bool_gt in H
    | H : Qeq_bool _ _ = true |- _ => apply Qeq_bool_iff in H
    | H : Qeq_bool _ _ = false |- _ => apply Qeq_bool_neq in H
    end.

Lemma half_as_product (T : Q) : (T / 2 == T * (1 # 2))%Q.
Proof. field. Qed.

Lemma tooClose_spec (current previous : Q) :
  tooClose current previous = true
  <-> (previous - 5000 < current /\ current < previous + 5000)%Q.
Proof.
  unfold tooClose. rewrite andb_true_iff, !Qltb_lt. reflexivity.
Qed.

Lemma posMinus_abs (a b : Q) : (posMinus a b == Qabs (a - b))%Q.
Proof.
  unfold posMinus. destruct (Qltb b a) eqn:E; order_facts.
  - rewrite Qabs_pos; [reflexivity | lra].
  - rewrite Qabs_neg; [ring | lra].
Qed.

(** ** The half-way announcement *)

(** The matches of the notation ["1/2"]: one, with the denominator in
    group 7. *)
Lemma exec_loop_half :
  exec_loop 4 "1/2" 0 = Some [ mkResult 0 3 "1/2" [(7%nat, "2")] ].
Proof. vm_compute. reflexivity. Qed.

Lemma filter_single (a : announcement) (max : Q) :
  (0 < offset a)%Q -> (offset a < max)%Q -> filterOffsets [a] max = [a].
Proof.
  intros H0 Hm. unfold filterOffsets. cbn [filter_from]. unfold keep.
  cbn [indexOf_found tooCloseAny negb].
  apply Qltb_lt in H0, Hm. rewrite H0, Hm, orb_true_r. reflexivity.
Qed.

(** C3: for every duration [T > 0] the schedule built from the notation
    ["1/2"] has exactly one announcement, at offset [T / 2], with the
    message ["Half way"], whatever the suffixes, the priority and [omit]. *)
Theorem half_notation_schedule (sfx : suffixes) (priority : string)
    (omit : option bool) (T : Q) :
  (0 < T)%Q ->
  parseRawIntervals sfx priority (JString "1/2") T omit
  = Some [ mkAnn (T / 2) "Half way" ].
Proof.
  intros HT. unfold parseRawIntervals, parseRawIntervals_fuel, enough_fuel.
  change (String.length "1/2") with 3%nat.
  change ("1/2" =? "")%string with false. cbv iota.
  rewrite exec_loop_half. f_equal.
  cbn [List.fold_left]. unfold parse_round.
  assert (Hr : round_intervals sfx
                 match omit with Some b => b | None => false end T
                 (mkResult 0 3 "1/2" [(7%nat, "2")])
               = (true, [mkAnn (T / 2) "Half way"])) by reflexivity.
  rewrite Hr.
  assert (Hf : filterOffsets [mkAnn (T / 2) "Half way"] T
               = [mkAnn (T / 2) "Half way"]).
  { apply filter_single; cbn [offset]; rewrite half_as_product; lra. }
  unfold build.
  destruct (priority =? "order")%string;
    [| destruct (priority =? "time")%string];
    cbn [orderIntervals timeIntervals fractionIntervals app];
    rewrite Hf; reflexivity.
Qed.

Lemma half_notation_schedule_witness :
  parseRawIntervals default_suffixes "fraction" (JString "1/2") 180000 None
  = Some [ mkAnn (180000 / 2) "Half way" ].
Proof.
  apply (half_notation_schedule default_suffixes "fraction" None 180000).
  reflexivity.
Defined.

(** C10: the two half-way paths give different messages.  A directive with
    denominator 2 yields the single message ["Half way"], for every
    duration; an item of another fraction directive whose offset is within
    5000 ms of [T / 2] is replaced by one at [T / 2] with the default half
    phrase ["Half way."]; and the two strings differ. *)
Theorem half_way_messages_differ (dir : intervalObj) (T : Q) :
  (denominator dir = 2 ->
     getFractionOffsetAndMessage default_suffixes dir T
     = [ mkAnn (T / 2) "Half way" ])
  /\ (denominator dir <> 2 ->
      forall (n : nat) (item : announcement),
        nth_error (fraction_offsets default_suffixes dir T) n
        = Some item ->
        tooClose (offset item) (T / 2) = true ->
        nth_error (getFractionOffsetAndMessage default_suffixes dir T) n
        = Some (mkAnn (T / 2) "Half way."))
  /\ "Half way" <> "Half way.".
Proof.
  unfold getFractionOffsetAndMessage. repeat split.
  - intros ->. reflexivity.
  - intros Hd n item Hn Hclose.
    apply Z.eqb_neq in Hd. rewrite Hd.
    rewrite nth_error_map, Hn. cbn [option_map].
    unfold collapse_half. rewrite Hclose. reflexivity.
  - discriminate.
Qed.

Lemma half_way_messages_differ_witness :
  getFractionOffsetAndMessage default_suffixes
    (mkInterval true false 0 "" false true "1/2" 2 "" 0) 60000
  = [ mkAnn (60000 / 2) "Half way" ]
  /\ nth_error
       (getFractionOffsetAndMessage default_suffixes
          (mkInterval false false 3 "last" false true "3last1/8" 8 "" 0) 32000)
       2
     = Some (mkAnn (32000 / 2) "Half way.").
Proof.
  split.
  - apply (half_way_messages_differ
             (mkInterval true false 0 "" false true "1/2" 2 "" 0) 60000).
    reflexivity.
  - apply (half_way_messages_differ
             (mkInterval false false 3 "last" false true "3last1/8" 8 "" 0)
             32000)
      with (item := mkAnn ((32000 / 8) * 3 - 0) "3 eighths to go.").
    + discriminate.
    + vm_compute. reflexivity.
    + vm_compute. reflexivity.
Defined.

(** ** The scenario "minutes allLast10" *)

(** The loop sees one match in ["minutes allLast10"]: the word "minutes" is
    not a token of the notation. *)
Lemma exec_loop_minutes :
  exec_loop 18 "minutes allLast10" 0
  = Some [ mkResult 7 17 " allLast10"
             [(5%nat, ""); (4%nat, "10"); (3%nat, "Last"); (1%nat, "all")] ].
Proof. vm_compute. reflexivity. Qed.

(** C5, amended: for [T = 180000] and the notation ["minutes allLast10"],
    under every priority, the schedule is exactly the ten announcements at
    10000, 9000, ..., 1000 with the bare numbers 10 down to 1 as messages. *)
Theorem minutes_allLast10_schedule (priority : string) :
  parseRawIntervals default_suffixes priority (JString "minutes allLast10")
    180000 None
  = Some last_ten.
Proof.
  unfold parseRawIntervals, parseRawIntervals_fuel, enough_fuel.
  change (String.length "minutes allLast10") with 17%nat.
  change ("minutes allLast10" =? "")%string with false. cbv iota.
  rewrite exec_loop_minutes. f_equal.
  cbn [List.fold_left]. unfold parse_round.
  set (r := round_intervals _ _ _ _).
  assert (Hr : r = (false, last_ten)) by (vm_compute; reflexivity).
  rewrite Hr. unfold build.
  destruct (priority =? "order")%string;
    [| destruct (priority =? "time")%string];
    cbn [orderIntervals timeIntervals fractionIntervals app];
    vm_compute; reflexivity.
Qed.

(** C5, as stated, fails: the schedule of that scenario has no announcement
    at offset 120000, and none at 60000. *)
Lemma minutes_allLast10_counterexample :
  exists schedule : list announcement,
    parseRawIntervals default_suffixes "fraction"
      (JString "minutes allLast10") 180000 None = Some schedule
    /\ ~ (exists a, In a schedule /\ (offset a == 120000)%Q)
    /\ ~ (exists a, In a schedule /\ (offset a == 60000)%Q).
Proof.
  exists last_ten. split; [vm_compute; reflexivity |].
  split; intros (a & Hin & Ha); cbn in Hin;
    repeat (destruct Hin as [<- | Hin]; [discriminate Ha |]);
    exact Hin.
Qed.

(** ** Fraction directives relative to an edge *)

Lemma upto_length (n : Z) : List.length (upto n) = Z.to_nat n.
Proof. unfold upto. rewrite length_map, length_seq. reflexivity. Qed.

Lemma upto_nth (n a : Z) :
  1 <= a <= n -> nth_error (upto n) (Z.to_nat (a - 1)) = Some a.
Proof.
  intros Ha. unfold upto. rewrite nth_error_map.
  rewrite nth_error_nth' with (d := O) by (rewrite length_seq; lia).
  rewrite seq_nth by lia. cbn [option_map]. f_equal. lia.
Qed.

(** ** Tick dispatcher *)

Lemma getSpeakPreOffset_total (d1 d2 d3 timeRemaining : Q) :
  exists lead : Q,
    getSpeakPreOffset (pre_table d1 d2 d3) timeRemaining = Some lead.
Proof.
  unfold getSpeakPreOffset, pre_table. cbn [pre_scan remaining delay].
  destruct (Qle_bool timeRemaining 10000); [eexists; reflexivity |].
  destruct (Qle_bool timeRemaining 19999); [eexists; reflexivity |].
  destruct (Qle_bool timeRemaining 86400); eexists; reflexivity.
Qed.




(** ** Schedule builder *)

Section Filter.

Variable max : Q.

Lemma indexOf_found_spec (x : Q) (found : list Q) :
  indexOf_found x found = false <-> fresh found x.
Proof.
  unfold fresh. induction found as [| y found IH]; cbn.
  - split; [intros _ f [] | reflexivity].
  - rewrite orb_false_iff, IH. split.
    + intros [Hy Hf] f [<- | Hin]; [| now apply Hf].
      intros E. apply Qeq_bool_iff in E. congruence.
    + intros H. split.
      * apply not_true_iff_false. intros E. apply Qeq_bool_iff in E.
        exact (H y (or_introl eq_refl) E).
      * intros f Hin. apply H. now right.
Qed.

Lemma tooCloseAny_spec (x : Q) (found : list Q) :
  tooCloseAny x found = false <-> apart found x.
Proof.
  unfold apart. induction found as [| p found IH]; cbn.
  - split; [intros _ f [] | reflexivity].
  - destruct (tooClose x p) eqn:E.
    + split; [discriminate |]. intros H. exfalso.
      apply (H p (or_introl eq_refl)). now apply tooClose_spec.
    + rewrite IH. split.
      * intros H f [<- | Hin]; [| now apply H].
        intros Hc. apply tooClose_spec in Hc. congruence.
      * intros H f Hin. apply H. now right.
Qed.

Lemma keep_spec (found : list Q) (item : announcement) :
  keep found max item = true
  <-> fresh found (offset item)
      /\ ((offset item <= 30000)%Q \/ apart found (offset item))
      /\ (offset item < max)%Q /\ (0 < offset item)%Q.
Proof.
  unfold keep.
  rewrite !andb_true_iff, orb_true_iff, !negb_true_iff, !Qltb_lt,
    Qle_bool_iff, indexOf_found_spec, tooCloseAny_spec.
  tauto.
Qed.

Lemma fresh_app (found : list Q) (y x : Q) :
  fresh (found ++ [y]) x <-> fresh found x /\ ~ (y == x)%Q.
Proof.
  unfold fresh. split.
  - intros H. split; [intros f Hin | ]; apply H; apply in_or_app;
      [left; assumption | right; left; reflexivity].
  - intros [Hf Hy] f Hin. apply in_app_or in Hin as [Hin | [<- | []]];
      [now apply Hf | assumption].
Qed.

Lemma apart_app (found : list Q) (y x : Q) :
  apart (found ++ [y]) x
  <-> apart found x /\ ~ (y - 5000 < x /\ x < y + 5000)%Q.
Proof.
  unfold apart. split.
  - intros H. split; [intros f Hin | ]; apply H; apply in_or_app;
      [left; assumption | right; left; reflexivity].
  - intros [Hf Hy] f Hin. apply in_app_or in Hin as [Hin | [<- | []]];
      [now apply Hf | assumption].
Qed.

(** Every item that passes was tested against the offsets found before. *)
Lemma filter_from_kept (offsets : list announcement) :
  forall (found : list Q) (a : announcement),
    In a (filter_from found offsets max) ->
    fresh found (offset a)
    /\ ((offset a <= 30000)%Q \/ apart found (offset a))
    /\ (offset a < max)%Q /\ (0 < offset a)%Q.
Proof.
  induction offsets as [| item offsets IH]; intros found a Hin;
    cbn [filter_from] in Hin; [contradiction |].
  destruct (keep found max item) eqn:Hk.
  - destruct Hin as [<- | Hin]; [now apply keep_spec |].
    apply IH in Hin as (Hf & Ha & Hm & H0).
    apply fresh_app in Hf as [Hf _].
    repeat split; try assumption.
    destruct Ha as [Ha | Ha]; [now left | right].
    now apply apart_app in Ha as [Ha _].
  - now apply IH.
Qed.

Lemma compatible_sym (a b : announcement) :
  compatible a b -> compatible b a.
Proof.
  intros [Hne Hfar]. split.
  - intros E. apply Hne. now symmetry.
  - intros Hb Ha. rewrite Qabs_Qminus. now apply Hfar.
Qed.

Lemma far_abs (x y : Q) :
  ~ (x - 5000 < y /\ y < x + 5000)%Q -> (5000 <= Qabs (x - y))%Q.
Proof.
  intros H. apply Qabs_case; intros Hs.
  - destruct (Qlt_le_dec (x - 5000) y) as [H1 | H1]; [| lra].
    exfalso. apply H. split; lra.
  - destruct (Qlt_le_dec y (x + 5000)) as [H1 | H1]; [| lra].
    exfalso. apply H. split; lra.
Qed.

Lemma filter_from_pairs (offsets : list announcement) :
  forall found : list Q,
    ForallOrdPairs compatible (filter_from found offsets max).
Proof.
  induction offsets as [| item offsets IH]; intros found;
    cbn [filter_from]; [constructor |].
  destruct (keep found max item) eqn:Hk; [| apply IH].
  constructor; [| apply IH].
  apply Forall_forall. intros b Hb.
  apply filter_from_kept in Hb as (Hf & Ha & _).
  apply fresh_app in Hf as [_ Hne]. split; [assumption |].
  intros _ Hb30. destruct Ha as [Ha | Ha]; [lra |].
  apply apart_app in Ha as [_ Ha]. now apply far_abs.
Qed.

End Filter.

Lemma fresh_eq (found : list Q) (x y : Q) :
  (x == y)%Q -> fresh found x -> fresh found y.
Proof.
  intros E H f Hin Hf. apply (H f Hin). rewrite E. exact Hf.
Qed.

Lemma apart_eq (found : list Q) (x y : Q) :
  (x == y)%Q -> apart found x -> apart found y.
Proof.
  intros E H f Hin Hf. apply (H f Hin). rewrite E. exact Hf.
Qed.

Lemma insert_sorted_perm (x : announcement) (l : list announcement) :
  Permutation (insert_sorted x l) (x :: l).
Proof.
  induction l as [| y l IH]; cbn [insert_sorted]; [reflexivity |].
  destruct (0 <? compare_offsets y x); [reflexivity |].
  rewrite IH. apply perm_swap.
Qed.

Lemma sortOffsets_perm (input : list announcement) :
  Permutation (sortOffsets input) input.
Proof.
  unfold sortOffsets.
  assert (H : forall sorted,
             Permutation
               (List.fold_left (fun s x => insert_sorted x s) input sorted)
               (sorted ++ input)).
  { induction input as [| x input IH]; intros sorted; cbn [List.fold_left].
    - now rewrite app_nil_r.
    - rewrite IH, insert_sorted_perm. apply Permutation_middle. }
  apply (H []).
Qed.

Lemma pairs_perm (R : announcement -> announcement -> Prop)
    (l l' : list announcement) :
  (forall a b, R a b -> R b a) ->
  Permutation l l' -> ForallOrdPairs R l -> ForallOrdPairs R l'.
Proof.
  intros Hsym Hp. induction Hp as [| x l l' Hp IH | x y l | l l' l'' ]; intros H.
  - assumption.
  - inversion H as [| ? ? Hx Hl]; subst. constructor; [| now apply IH].
    now apply (Permutation_Forall Hp).
  - inversion H as [| ? ? Hy Hl]; subst.
    inversion Hl as [| ? ? Hx Hl']; subst.
    inversion Hy as [| ? ? Hyx Hy']; subst.
    repeat constructor; try assumption. now apply Hsym.
  - auto.
Qed.

(** ** The matcher *)

Section MatcherFacts.

Variable ic : bool.

Lemma match_str_reaches (s : string) :
  forall k st res,
    match_str ic s k st = Some res -> reaches k st res (String.length s).
Proof.
  induction s as [| c s IH]; intros k st res H; cbn [match_str] in H.
  - exists st, []. cbn. repeat split; try assumption; lia.
  - destruct (rest st) as [| a l] eqn:Hr; [discriminate |].
    destruct (same_char ic a c); [| discriminate].
    apply IH in H as (st' & w & Hk & Hrest & Hpos & Hlen).
    cbn [rest pos] in Hrest, Hpos.
    exists st', (a :: w). rewrite Hr, Hrest.
    cbn [List.length String.length].
    repeat split; try assumption; lia.
Qed.

Lemma match_rep_reaches (c : cls) (lo : nat) (hi : option nat)
    (k : state -> option state) (cs : list (nat * string)) :
  forall l n p res,
    match_rep ic c lo hi k n p l cs = Some res ->
    exists (l' w : list ascii),
      k (mkState (p + List.length w) l' cs) = Some res
      /\ l = (w ++ l')%list
      /\ (lo <= n + List.length w)%nat.
Proof.
  assert (Hstop : forall l n p res,
             (if (lo <=? n)%nat then k (mkState p l cs) else None)
             = Some res ->
             exists (l' w : list ascii),
               k (mkState (p + List.length w) l' cs) = Some res
               /\ l = (w ++ l')%list
               /\ (lo <= n + List.length w)%nat).
  { intros l n p res H. destruct (lo <=? n)%nat eqn:E; [| discriminate].
    apply Nat.leb_le in E. exists l, []. cbn [List.length app].
    rewrite !Nat.add_0_r. auto. }
  induction l as [| a l IH]; intros n p res H; cbn [match_rep] in H.
  - now apply Hstop.
  - destruct (in_cls ic a c && under hi n); [| now apply Hstop].
    destruct (match_rep ic c lo hi k (S n) (S p) l cs) as [r |] eqn:E;
      [| now apply Hstop].
    injection H as <-.
    apply IH in E as (l' & w & Hk & -> & Hlen).
    exists l', (a :: w). cbn [List.length app].
    replace (p + S (List.length w))%nat with (S p + List.length w)%nat
      by lia.
    repeat split; try assumption; lia.
Qed.

Lemma reaches_weaken (k : state -> option state) (st res : state)
    (n m : nat) :
  (m <= n)%nat -> reaches k st res n -> reaches k st res m.
Proof.
  intros Hle (st' & w & Hk & Hr & Hp & Hn).
  exists st', w. repeat split; try assumption. lia.
Qed.

Lemma rmatch_reaches (r : regex) :
  forall k st res,
    rmatch ic r k st = Some res -> reaches k st res (min_len r).
Proof.
  induction r as [s | c | c lo hi | r1 IH1 r2 IH2 | r1 IH1 r2 IH2 | r1 IH1
                 | n r1 IH1 | | | r1 IH1];
    intros k st res H; cbn [rmatch min_len] in *.
  - now apply match_str_reaches.
  - destruct (rest st) as [| a l] eqn:Hr; [discriminate |].
    destruct (in_cls ic a c); [| discriminate].
    exists (mkState (S (pos st)) l (caps st)), [a].
    cbn [rest pos List.length app]. repeat split; try assumption; lia.
  - apply match_rep_reaches in H as (l' & w & Hk & Hl & Hlen).
    exists (mkState (pos st + List.length w) l' (caps st)), w.
    cbn [rest pos]. repeat split; try assumption; lia.
  - apply IH1 in H as (st1 & w1 & Hk1 & Hr1 & Hp1 & Hn1).
    apply IH2 in Hk1 as (st2 & w2 & Hk2 & Hr2 & Hp2 & Hn2).
    exists st2, (w1 ++ w2)%list.
    rewrite Hr1, Hr2, <- app_assoc, length_app.
    repeat split; try assumption; lia.
  - destruct (rmatch ic r1 k st) as [res1 |] eqn:E.
    + injection H as <-. apply IH1 in E.
      apply (reaches_weaken _ _ _ (min_len r1)); [lia | assumption].
    + apply IH2 in H.
      apply (reaches_weaken _ _ _ (min_len r2)); [lia | assumption].
  - destruct (rmatch ic r1 k st) as [res1 |] eqn:E.
    + injection H as <-. apply IH1 in E.
      apply (reaches_weaken _ _ _ (min_len r1)); [lia | assumption].
    + exists st, []. cbn. repeat split; try assumption; lia.
  - apply IH1 in H as (st1 & w1 & Hk1 & Hr1 & Hp1 & Hn1).
    exists (set_cap n st st1), w1. cbn [set_cap rest pos].
    repeat split; assumption.
  - destruct (pos st =? 0)%nat; [| discriminate].
    exists st, []. cbn. repeat split; try assumption; lia.
  - destruct (rest st) eqn:Hr; [| discriminate].
    exists st, []. cbn. repeat split; try assumption; try lia; now rewrite Hr.
  - destruct (rmatch ic r1 Some st) as [st1 |]; [| discriminate].
    exists (mkState (pos st) (rest st) (caps st1)), [].
    cbn. repeat split; try assumption; lia.
Qed.

End MatcherFacts.

(** *** Matching a token in place *)

Lemma is_space_cases (a : ascii) : is_space a = true -> In a space_chars.
Proof.
  destruct a as [[] [] [] [] [] [] [] []]; intros H;
    try discriminate H; vm_compute; tauto.
Qed.

Lemma cls_spaceless_ok (ic : bool) (c : cls) (a : ascii) :
  cls_spaceless ic c = true -> is_space a = true -> in_cls ic a c = false.
Proof.
  intros H Ha. unfold cls_spaceless in H. rewrite forallb_forall in H.
  apply negb_true_iff, H, is_space_cases, Ha.
Qed.

Lemma str_spaceless_ok (ic : bool) (s : string) (a : ascii) :
  str_spaceless ic s = true -> is_space a = true -> in_string ic a s = false.
Proof.
  intros H Ha. unfold str_spaceless in H. rewrite forallb_forall in H.
  apply negb_true_iff, H, is_space_cases, Ha.
Qed.

Section InPlace.

Variable ic : bool.
Variables tail1 tail2 : list ascii.
Hypothesis Htail1 : blocked tail1.
Hypothesis Htail2 : blocked tail2.
Variables delta total : nat.

Let Sim := sim tail1 tail2 delta total.
Let Res := res_sim delta.

Variables k1 k2 : state -> option state.
Hypothesis Hk : forall s1 s2, Sim s1 s2 -> Res (k1 s1) (k2 s2).

Lemma sim_step (a : ascii) (u : list ascii) (s1 s2 : state) :
  Forall nonspace (a :: u) ->
  rest s1 = (a :: u ++ tail1)%list -> rest s2 = (a :: u ++ tail2)%list ->
  caps s1 = caps s2 -> pos s1 = (delta + pos s2)%nat ->
  (pos s2 + List.length (a :: u))%nat = total ->
  Sim (mkState (S (pos s1)) (u ++ tail1) (caps s1))
      (mkState (S (pos s2)) (u ++ tail2) (caps s2)).
Proof.
  intros Hu H1 H2 Hc Hp Ht. exists u. cbn [rest pos caps].
  inversion Hu; subst. cbn [List.length] in *.
  repeat split; try assumption; lia.
Qed.

Lemma sim_match_str (s : string) :
  str_spaceless ic s = true ->
  forall s1 s2, Sim s1 s2 ->
    Res (match_str ic s k1 s1) (match_str ic s k2 s2).
Proof.
  induction s as [| c s IH]; intros Hs s1 s2 Hsim; cbn [match_str].
  - now apply Hk.
  - assert (Hs' : str_spaceless ic s = true).
    { unfold str_spaceless in *. rewrite forallb_forall in *.
      intros a Ha. specialize (Hs a Ha). cbn [in_string] in Hs.
      rewrite negb_true_iff, orb_false_iff in Hs.
      now apply negb_true_iff. }
    assert (Hc : forall a, is_space a = true -> same_char ic a c = false).
    { intros a Ha. pose proof (str_spaceless_ok ic _ a Hs Ha) as E.
      cbn [in_string] in E. now apply orb_false_iff in E. }
    destruct Hsim as (u & Hu & H1 & H2 & Hcaps & Hp & Ht).
    destruct u as [| a u]; cbn [app] in H1, H2; rewrite H1, H2.
    + assert (Hb : forall (k : state -> option state) tl st,
                blocked tl ->
                match tl with
                | [] => None
                | a :: l =>
                    if same_char ic a c then k (mkState st l []) else None
                end = None).
      { intros k [| a l] st Hb; [reflexivity |]. cbn in Hb.
        now rewrite (Hc a Hb). }
      destruct tail1 as [| a1 l1], tail2 as [| a2 l2]; cbn in Htail1, Htail2;
        try rewrite (Hc a1 Htail1); try rewrite (Hc a2 Htail2); exact I.
    + destruct (same_char ic a c); [| exact I].
      apply IH; [assumption |].
      now apply (sim_step a u s1 s2).
Qed.

Lemma sim_match_rep (c : cls) (lo : nat) (hi : option nat)
    (cs : list (nat * string)) :
  cls_spaceless ic c = true ->
  forall u n p1 p2,
    Forall nonspace u -> p1 = (delta + p2)%nat ->
    (p2 + List.length u)%nat = total ->
    Res (match_rep ic c lo hi k1 n p1 (u ++ tail1) cs)
        (match_rep ic c lo hi k2 n p2 (u ++ tail2) cs).
Proof.
  intros Hc.
  assert (Hstop : forall u n p1 p2,
             Forall nonspace u -> p1 = (delta + p2)%nat ->
             (p2 + List.length u)%nat = total ->
             Res (if (lo <=? n)%nat
                  then k1 (mkState p1 (u ++ tail1) cs) else None)
                 (if (lo <=? n)%nat
                  then k2 (mkState p2 (u ++ tail2) cs) else None)).
  { intros u n p1 p2 Hu Hp Ht. destruct (lo <=? n)%nat; [| exact I].
    apply Hk. exists u. cbn [rest pos caps]. repeat split; assumption. }
  assert (Hend : forall (k : state -> option state) tl n p,
             blocked tl ->
             match_rep ic c lo hi k n p tl cs
             = if (lo <=? n)%nat then k (mkState p tl cs) else None).
  { intros k [| a l] n p Hb; cbn [match_rep]; [reflexivity |].
    cbn in Hb. now rewrite (cls_spaceless_ok ic c a Hc Hb). }
  induction u as [| a u IH]; intros n p1 p2 Hu Hp Ht; cbn [app].
  - rewrite !Hend by assumption. now apply (Hstop []).
  - cbn [match_rep].
    destruct (in_cls ic a c && under hi n);
      [| now apply (Hstop (a :: u))].
    inversion Hu; subst. cbn [List.length] in *.
    specialize (IH (S n) (S (delta + p2)) (S p2) ltac:(assumption)
                   ltac:(lia) ltac:(lia)).
    destruct (match_rep ic c lo hi k1 (S n) (S (delta + p2)) (u ++ tail1) cs),
      (match_rep ic c lo hi k2 (S n) (S p2) (u ++ tail2) cs);
      cbn in IH; try contradiction; [exact IH |].
    now apply (Hstop (a :: u)).
Qed.

End InPlace.

Lemma sim_set_cap (tail1 tail2 : list ascii) (delta total n : nat)
    (s1 s2 s1' s2' : state) :
  sim tail1 tail2 delta total s1 s2 ->
  sim tail1 tail2 delta total s1' s2' ->
  sim tail1 tail2 delta total (set_cap n s1 s1') (set_cap n s2 s2').
Proof.
  intros (u & Hu & H1 & H2 & Hc & Hp & Ht)
         (u' & Hu' & H1' & H2' & Hc' & Hp' & Ht').
  exists u'. unfold set_cap. cbn [rest pos caps].
  repeat split; try assumption.
  rewrite Hc', H1, H2, Hp, Hp'.
  replace (delta + pos s2' - (delta + pos s2))%nat
    with (pos s2' - pos s2)%nat by lia.
  assert (Hle : (pos s2' - pos s2 <= List.length u)%nat) by lia.
  rewrite !firstn_app.
  replace (pos s2' - pos s2 - List.length u)%nat with 0%nat by lia.
  reflexivity.
Qed.

(** A spaceless expression cannot tell what follows the token it runs on. *)
Lemma sim_rmatch (ic : bool) (tail1 tail2 : list ascii) (delta total : nat) :
  blocked tail1 -> blocked tail2 ->
  forall r : regex,
    spaceless ic r = true ->
    forall k1 k2 : state -> option state,
      (forall s1 s2, sim tail1 tail2 delta total s1 s2 ->
                     res_sim delta (k1 s1) (k2 s2)) ->
      forall s1 s2,
        sim tail1 tail2 delta total s1 s2 ->
        res_sim delta (rmatch ic r k1 s1) (rmatch ic r k2 s2).
Proof.
  intros Ht1 Ht2.
  induction r as [s | c | c lo hi | r1 IH1 r2 IH2 | r1 IH1 r2 IH2 | r1 IH1
                 | n r1 IH1 | | | r1 IH1];
    intros Hs k1 k2 Hk s1 s2 Hsim; cbn [rmatch spaceless] in *;
    try discriminate Hs.
  - now apply (sim_match_str ic tail1 tail2 Ht1 Ht2 delta total k1 k2 Hk).
  - destruct Hsim as (u & Hu & H1 & H2 & Hc & Hp & Ht).
    destruct u as [| a u]; cbn [app] in H1, H2; rewrite H1, H2.
    + destruct tail1 as [| a1 l1], tail2 as [| a2 l2]; cbn in Ht1, Ht2;
        try rewrite (cls_spaceless_ok ic c a1 Hs Ht1);
        try rewrite (cls_spaceless_ok ic c a2 Hs Ht2); exact I.
    + destruct (in_cls ic a c); [| exact I].
      apply Hk. exists u. cbn [rest pos caps].
      inversion Hu; subst. cbn [List.length] in *.
      repeat split; try assumption; lia.
  - destruct Hsim as (u & Hu & H1 & H2 & Hc & Hp & Ht).
    rewrite H1, H2, Hc.
    now apply (sim_match_rep ic tail1 tail2 Ht1 Ht2 delta total k1 k2 Hk).
  - apply andb_true_iff in Hs as [Hs1 Hs2].
    apply IH1; [assumption | | assumption].
    intros s1' s2' Hsim'. now apply IH2.
  - apply andb_true_iff in Hs as [Hs1 Hs2].
    pose proof (IH1 Hs1 k1 k2 Hk s1 s2 Hsim) as H.
    destruct (rmatch ic r1 k1 s1), (rmatch ic r1 k2 s2); cbn in H;
      try contradiction; [exact H |].
    now apply IH2.
  - pose proof (IH1 Hs k1 k2 Hk s1 s2 Hsim) as H.
    destruct (rmatch ic r1 k1 s1), (rmatch ic r1 k2 s2); cbn in H;
      try contradiction; [exact H |].
    now apply Hk.
  - apply IH1; [assumption | | assumption].
    intros s1' s2' Hsim'. apply Hk. now apply sim_set_cap.
Qed.

(** *** The notation, token by token *)

Lemma spaceless_grammar : spaceless true grammar = true.
Proof. vm_compute. reflexivity. Qed.

Lemma match_rep_some (ic : bool) (c : cls) (lo : nat) (hi : option nat)
    (cs : list (nat * string)) :
  forall l n p,
    (lo <= n)%nat ->
    exists st, match_rep ic c lo hi Some n p l cs = Some st /\ caps st = cs.
Proof.
  induction l as [| a l IH]; intros n p Hn; cbn [match_rep];
    apply Nat.leb_le in Hn as Hn'; rewrite Hn'.
  - eexists. split; reflexivity.
  - destruct (in_cls ic a c && under hi n); [| eexists; split; reflexivity].
    destruct (IH (S n) (S p) ltac:(lia)) as (st & -> & Hc).
    exists st. split; [reflexivity | assumption].
Qed.

(** After a token: the lookahead of the source and the end of the token
    agree. *)
Lemma sim_token_end (tail1 : list ascii) (delta total : nat) :
  blocked tail1 ->
  forall s1 s2,
    sim tail1 [] delta total s1 s2 ->
    res_sim delta (rmatch true (Look (Plus Space || Eol)) Some s1)
                  (rmatch true Eol Some s2).
Proof.
  intros Hb s1 s2 (u & Hu & H1 & H2 & Hc & Hp & Ht).
  cbn [rmatch Plus]. rewrite H1, H2.
  destruct u as [| a u]; cbn [app].
  - destruct tail1 as [| c l]; cbn [match_rep].
    + cbn. split; assumption.
    + cbn in Hb. cbn [in_cls under]. rewrite Hb. cbn [andb].
      destruct (match_rep_some true Space 1 None (caps s1) l 1 (S (pos s1))
                  ltac:(lia)) as (st & -> & Hst).
      cbn. rewrite Hst. split; assumption.
  - inversion Hu as [| ? ? Ha Hu']; subst. unfold nonspace in Ha.
    cbn [match_rep in_cls]. rewrite Ha. cbn. exact I.
Qed.

(** The directive at position [q] on a token [t] followed by white space or
    by the end, against the token alone. *)
Lemma directive_in_place (t l3 : list ascii) (q : nat) :
  Forall nonspace t -> blocked l3 ->
  res_sim q (rmatch true directive Some (mkState q (t ++ l3) []))
            (match_token t).
Proof.
  intros Ht Hb. unfold directive, match_token. cbn [rmatch].
  apply (sim_rmatch true l3 [] q (List.length t) Hb I grammar
           spaceless_grammar).
  - intros s1 s2 Hsim. now apply (sim_token_end l3 q (List.length t)).
  - exists t. cbn [rest pos caps]. rewrite app_nil_r.
    repeat split; try assumption; lia.
Qed.

Lemma match_token_pos (t : list ascii) (b : state) :
  match_token t = Some b -> pos b = List.length t.
Proof.
  unfold match_token. cbn [rmatch]. intros H.
  apply rmatch_reaches in H as (st' & w & Hk & Hr & Hp & _).
  cbn [rmatch] in Hk. cbn [rest pos] in Hr, Hp.
  destruct (rest st') eqn:E; [| discriminate].
  injection Hk as <-. rewrite Hr, app_nil_r. lia.
Qed.

Lemma match_token_nil : match_token [] = None.
Proof. vm_compute. reflexivity. Qed.

Lemma directive_fail (t l3 : list ascii) (q : nat) :
  Forall nonspace t -> blocked l3 -> match_token t = None ->
  rmatch true directive Some (mkState q (t ++ l3) []) = None.
Proof.
  intros Ht Hb Hm. pose proof (directive_in_place t l3 q Ht Hb) as H.
  rewrite Hm in H.
  destruct (rmatch true directive Some (mkState q (t ++ l3) []));
    [contradiction | reflexivity].
Qed.

Lemma directive_ok (t l3 : list ascii) (q : nat) (b : state) :
  Forall nonspace t -> blocked l3 -> match_token t = Some b ->
  exists a,
    rmatch true directive Some (mkState q (t ++ l3) []) = Some a
    /\ caps a = caps b /\ pos a = (q + List.length t)%nat.
Proof.
  intros Ht Hb Hm. pose proof (directive_in_place t l3 q Ht Hb) as H.
  rewrite Hm in H. apply match_token_pos in Hm.
  destruct (rmatch true directive Some (mkState q (t ++ l3) [])) as [a |];
    [| contradiction].
  destruct H as [Hc Hp]. exists a. repeat split; [assumption | lia].
Qed.

Lemma directive_blocked (l : list ascii) (q : nat) :
  blocked l -> rmatch true directive Some (mkState q l []) = None.
Proof.
  intros Hb. apply (directive_fail [] l q); [constructor | assumption |].
  exact match_token_nil.
Qed.

(** *** The search of [exec] along the notation *)

Lemma attempt_eq (p : nat) (l : list ascii) :
  rmatch true notation_regex Some (mkState p l [])
  = match (if (p =? 0)%nat
           then rmatch true directive Some (mkState p l []) else None) with
    | Some r => Some r
    | None => match_rep true Space 1 None (rmatch true directive Some) 0 p l []
    end.
Proof. reflexivity. Qed.

Lemma space_run (w l2 : list ascii) :
  Forall space w -> at_token l2 ->
  forall n p,
    (1 <= n + List.length w)%nat ->
    match_rep true Space 1 None (rmatch true directive Some) n p (w ++ l2) []
    = rmatch true directive Some (mkState (p + List.length w) l2 []).
Proof.
  intros Hw Hl2. induction Hw as [| c w Hc Hw IH]; intros n p Hn;
    cbn [app List.length] in *.
  - rewrite Nat.add_0_r in *.
    apply Nat.leb_le in Hn.
    destruct l2 as [| a l]; cbn [match_rep]; [now rewrite Hn |].
    cbn in Hl2. cbn [in_cls]. rewrite Hl2. cbn [andb]. now rewrite Hn.
  - cbn [match_rep in_cls under]. unfold space in Hc. rewrite Hc. cbn [andb].
    rewrite IH by lia.
    replace (S p + List.length w)%nat with (p + S (List.length w))%nat by lia.
    destruct (rmatch true directive Some
                (mkState (p + S (List.length w)) l2 [])); [reflexivity |].
    destruct (1 <=? n)%nat; [| reflexivity].
    apply directive_blocked. exact Hc.
Qed.

Lemma attempt_nonspace (p : nat) (c : ascii) (l : list ascii) :
  nonspace c ->
  rmatch true notation_regex Some (mkState (S p) (c :: l) []) = None.
Proof.
  intros Hc. rewrite attempt_eq. cbn [Nat.eqb match_rep in_cls].
  unfold nonspace in Hc. rewrite Hc. reflexivity.
Qed.

Lemma attempt_space (p : nat) (w l2 : list ascii) :
  Forall space w -> w <> [] -> at_token l2 ->
  rmatch true notation_regex Some (mkState p (w ++ l2) [])
  = rmatch true directive Some (mkState (p + List.length w) l2 []).
Proof.
  intros Hw Hne Hl2. rewrite attempt_eq.
  assert (Hb : rmatch true directive Some (mkState p (w ++ l2) []) = None).
  { apply directive_blocked. destruct w as [| c w]; [contradiction |].
    inversion Hw; subst. assumption. }
  rewrite Hb. destruct (p =? 0)%nat;
    (apply space_run; [assumption | assumption |]);
    destruct w; [contradiction | cbn; lia | contradiction | cbn; lia].
Qed.

Lemma search_nil (p : nat) : search true notation_regex p [] = None.
Proof.
  cbn [search]. rewrite attempt_eq.
  rewrite (directive_blocked [] p I). destruct (p =? 0)%nat; reflexivity.
Qed.

(** From inside a token the search runs to its end. *)
Lemma search_skip (u l : list ascii) :
  Forall nonspace u ->
  forall p,
    search true notation_regex (S p) (u ++ l)
    = search true notation_regex (S p + List.length u) l.
Proof.
  induction 1 as [| c u Hc Hu IH]; intros p; cbn [app List.length].
  - now rewrite Nat.add_0_r.
  - cbn [search]. rewrite (attempt_nonspace p c _ Hc), IH.
    f_equal. lia.
Qed.

(** White space, then a token that does not match: the search goes on
    behind the token. *)
Lemma search_space_fail (t l3 : list ascii) :
  Forall nonspace t -> blocked l3 -> at_token (t ++ l3) ->
  match_token t = None ->
  forall w p,
    Forall space w -> w <> [] ->
    search true notation_regex p (w ++ t ++ l3)
    = search true notation_regex (p + List.length w + List.length t) l3.
Proof.
  intros Ht Hb Hat Hm. induction w as [| c w IH]; intros p Hw Hne;
    [contradiction |].
  cbn [app search].
  change (c :: w ++ t ++ l3)%list with ((c :: w) ++ t ++ l3)%list.
  rewrite (attempt_space p (c :: w) (t ++ l3) Hw Hne Hat).
  rewrite (directive_fail t l3 _ Ht Hb Hm).
  inversion Hw as [| ? ? Hc Hw']; subst. cbn [List.length].
  destruct w as [| c' w].
  - cbn [app List.length]. rewrite (search_skip t l3 Ht p). f_equal. lia.
  - rewrite (IH (S p) Hw' ltac:(discriminate)). f_equal.
    cbn [List.length]. lia.
Qed.

(** White space, then a token that matches: the search ends there. *)
Lemma search_space_ok (t l3 : list ascii) (b : state) :
  Forall nonspace t -> blocked l3 -> at_token (t ++ l3) ->
  match_token t = Some b ->
  forall w p,
    Forall space w -> w <> [] ->
    exists m,
      search true notation_regex p (w ++ t ++ l3) = Some m
      /\ captures m = caps b
      /\ lastIndex m = (p + List.length w + List.length t)%nat.
Proof.
  intros Ht Hb Hat Hm w p Hw Hne.
  destruct (directive_ok t l3 (p + List.length w) b Ht Hb Hm)
    as (a & Ha & Hc & Hp).
  destruct w as [| c w]; [contradiction |].
  cbn [app search].
  change (c :: w ++ t ++ l3)%list with ((c :: w) ++ t ++ l3)%list.
  rewrite (attempt_space p (c :: w) (t ++ l3) Hw Hne Hat), Ha.
  eexists. split; [reflexivity |]. cbn [result_of captures lastIndex].
  split; assumption.
Qed.

(** A token at the start of the notation. *)
Lemma search_start_ok (t l3 : list ascii) (b : state) :
  Forall nonspace t -> blocked l3 -> match_token t = Some b ->
  exists m,
    search true notation_regex 0 (t ++ l3) = Some m
    /\ captures m = caps b
    /\ lastIndex m = List.length t.
Proof.
  intros Ht Hb Hm.
  destruct (directive_ok t l3 0 b Ht Hb Hm) as (a & Ha & Hc & Hp).
  assert (E : rmatch true notation_regex Some (mkState 0 (t ++ l3) [])
              = Some a) by (rewrite attempt_eq; cbn [Nat.eqb]; now rewrite Ha).
  destruct (t ++ l3)%list; cbn [search]; rewrite E;
    (eexists; split; [reflexivity |]); cbn [result_of captures lastIndex];
    split; assumption.
Qed.

Lemma search_start_fail (c : ascii) (t l3 : list ascii) :
  Forall nonspace (c :: t) -> blocked l3 -> match_token (c :: t) = None ->
  search true notation_regex 0 ((c :: t) ++ l3)
  = search true notation_regex (List.length (c :: t)) l3.
Proof.
  intros Ht Hb Hm. cbn [app search]. rewrite attempt_eq. cbn [Nat.eqb].
  change (c :: t ++ l3)%list with ((c :: t) ++ l3)%list.
  rewrite (directive_fail (c :: t) l3 0 Ht Hb Hm).
  inversion Ht as [| ? ? Hc Ht']; subst. unfold nonspace in Hc.
  cbn [app match_rep in_cls]. rewrite Hc. cbn [andb Nat.leb].
  now rewrite (search_skip t l3 Ht' 0).
Qed.

(** *** Tokens *)

Lemma split_spaces (l : list ascii) :
  exists w l2, l = (w ++ l2)%list /\ Forall space w /\ at_token l2.
Proof.
  induction l as [| c l (w & l2 & -> & Hw & Hl2)].
  - exists [], []. repeat split. constructor.
  - destruct (is_space c) eqn:E.
    + exists (c :: w), l2. repeat split; [now constructor | assumption].
    + exists [], (c :: w ++ l2)%list. repeat split; [constructor | exact E].
Qed.

Lemma split_token (l : list ascii) :
  exists t l3, l = (t ++ l3)%list /\ Forall nonspace t /\ blocked l3.
Proof.
  induction l as [| c l (t & l3 & -> & Ht & Hl3)].
  - exists [], []. repeat split. constructor.
  - destruct (is_space c) eqn:E.
    + exists [], (c :: t ++ l3)%list. repeat split; [constructor | exact E].
    + exists (c :: t), l3. repeat split; [now constructor | assumption].
Qed.

Lemma tokens_acc_spaces (w l : list ascii) :
  Forall space w -> tokens_acc [] (w ++ l) = tokens_acc [] l.
Proof.
  induction 1 as [| c w Hc Hw IH]; [reflexivity |].
  cbn [app tokens_acc]. unfold space in Hc. now rewrite Hc.
Qed.

Lemma tokens_acc_token (t l3 : list ascii) :
  Forall nonspace t -> blocked l3 ->
  forall cur,
    (rev cur ++ t)%list <> [] ->
    tokens_acc cur (t ++ l3) = (rev cur ++ t)%list :: tokens_acc [] l3.
Proof.
  intros Ht Hb. induction Ht as [| c t Hc Ht IH]; intros cur Hne;
    cbn [app].
  - rewrite app_nil_r in *.
    destruct l3 as [| a l]; cbn [tokens_acc].
    + destruct cur; [contradiction | reflexivity].
    + cbn in Hb. rewrite Hb. destruct cur; [contradiction | reflexivity].
  - cbn [tokens_acc]. unfold nonspace in Hc. rewrite Hc.
    rewrite IH; cbn [rev]; rewrite <- app_assoc; cbn [app];
      [reflexivity |].
    intros E. apply app_eq_nil in E as [_ E]. discriminate.
Qed.

(** *** The loop of [parseRawIntervals] *)

Lemma length_list_ascii (s : string) :
  List.length (list_ascii_of_string s) = String.length s.
Proof. induction s as [| c s IH]; cbn; congruence. Qed.

Lemma exec_eq (s : string) (p : nat) (l : list ascii) :
  skipn p (list_ascii_of_string s) = l ->
  (p + List.length l)%nat = String.length s ->
  exec true notation_regex s p = search true notation_regex p l.
Proof.
  intros <- Hlen. unfold exec. rewrite length_list_ascii.
  replace (p <=? String.length s)%nat with true
    by (symmetry; apply Nat.leb_le; lia).
  reflexivity.
Qed.

Lemma exec_loop_from (s : string) (fuel p q : nat) :
  exec true notation_regex s p = exec true notation_regex s q ->
  exec_loop fuel s p = exec_loop fuel s q.
Proof.
  intros E. destruct fuel; cbn [exec_loop]; [reflexivity | now rewrite E].
Qed.

Lemma skipn_suffix (p : nat) (whole u l3 : list ascii) :
  skipn p whole = (u ++ l3)%list ->
  skipn (p + List.length u) whole = l3.
Proof.
  intros H. rewrite Nat.add_comm, <- skipn_skipn, H.
  rewrite skipn_app, skipn_all, Nat.sub_diag. reflexivity.
Qed.

Lemma captures_token_result (t : list ascii) (b : state) :
  match_token t = Some b ->
  exists m, token_result t = Some m /\ captures m = caps b.
Proof.
  intros H. unfold token_result. rewrite H. eexists. split; reflexivity.
Qed.

(** The matches the loop sees from position [p] on are the tokens that
    match, in order, when [p] is the start or a place between tokens. *)
Lemma exec_loop_tokens (s : string) :
  forall (n : nat) (l : list ascii) (p fuel : nat),
    (List.length l <= n)%nat ->
    skipn p (list_ascii_of_string s) = l ->
    (p + List.length l)%nat = String.length s ->
    p = 0%nat \/ blocked l ->
    (List.length l < fuel)%nat ->
    exists ms,
      exec_loop fuel s p = Some ms
      /\ List.map captures ms
         = List.map captures (matching (tokens_acc [] l)).
Proof.
  induction n as [| n IH]; intros l p fuel Hn Hskip Hlen Hp Hfuel.
  - destruct l; [| cbn in Hn; lia].
    destruct fuel as [| fuel]; [lia |]. cbn [exec_loop].
    rewrite (exec_eq s p [] Hskip Hlen), search_nil.
    exists []. split; reflexivity.
  - destruct (split_spaces l) as (w & l2 & -> & Hw & Hl2).
    destruct (split_token l2) as (t & l3 & -> & Ht & Hl3).
    rewrite (tokens_acc_spaces w _ Hw).
    rewrite !length_app in *.
    destruct fuel as [| fuel]; [lia |].
    set (q := (p + List.length w + List.length t)%nat).
    assert (Hq : skipn q (list_ascii_of_string s) = l3).
    { unfold q. rewrite <- Nat.add_assoc, <- length_app.
      apply skipn_suffix. now rewrite <- app_assoc. }
    assert (Hqlen : (q + List.length l3)%nat = String.length s)
      by (unfold q; lia).
    (* the rounds that follow a token *)
    assert (Hnext : forall fuel',
               (w ++ t)%list <> [] -> (List.length l3 < fuel')%nat ->
               exists ms,
                 exec_loop fuel' s q = Some ms
                 /\ List.map captures ms
                    = List.map captures (matching (tokens_acc [] l3))).
    { intros fuel' Hne Hf. apply (IH l3 q fuel'); try assumption; [| now right].
      assert (List.length (w ++ t) <> 0)%nat
        by (intros E; apply length_zero_iff_nil in E; contradiction).
      rewrite length_app in *. lia. }
    destruct t as [| c t].
    + (* no token is left: white space up to the end *)
      destruct l3 as [| a l3]; [| cbn in Hl2, Hl3; congruence].
      change (tokens_acc [] ([] ++ [])) with (@nil (list ascii)).
      cbn [matching List.map exec_loop].
      rewrite (exec_eq s p _ Hskip ltac:(rewrite !length_app; lia)).
      exists []. split; [| reflexivity].
      destruct w as [| c w].
      * cbn [app]. now rewrite search_nil.
      * rewrite (search_space_fail [] [] ltac:(constructor) I I
                   match_token_nil (c :: w) p Hw ltac:(discriminate)).
        now rewrite search_nil.
    + rewrite (tokens_acc_token (c :: t) l3 Ht Hl3 [] ltac:(discriminate)).
      cbn [rev app matching].
      assert (Hsearch :
                exec true notation_regex s p
                = search true notation_regex p (w ++ (c :: t) ++ l3))
        by (apply exec_eq; [assumption | rewrite !length_app; lia]).
      cbn [List.length] in Hfuel, Hn.
      destruct (match_token (c :: t)) as [b |] eqn:Hm.
      * (* the token matches *)
        destruct (captures_token_result _ _ Hm) as (m' & -> & Hm').
        assert (Hfound : exists m,
                   search true notation_regex p (w ++ (c :: t) ++ l3) = Some m
                   /\ captures m = caps b /\ lastIndex m = q).
        { destruct w as [| c' w].
          - destruct Hp as [-> | Hp]; [| cbn in Hp; inversion Ht; congruence].
            exact (search_start_ok (c :: t) l3 b Ht Hl3 Hm).
          - apply search_space_ok; try assumption; discriminate. }
        destruct Hfound as (m & Hs & Hc & Hlast).
        cbn [exec_loop]. rewrite Hsearch, Hs, Hlast.
        destruct (Hnext fuel) as (ms & -> & Hms);
          [destruct w; discriminate | lia |].
        exists (m :: ms). cbn [option_map List.map].
        split; [reflexivity | congruence].
      * (* the token does not match: it is skipped *)
        assert (Hskipped :
                  search true notation_regex p (w ++ (c :: t) ++ l3)
                  = search true notation_regex q l3).
        { destruct w as [| c' w].
          - destruct Hp as [-> | Hp]; [| cbn in Hp; inversion Ht; congruence].
            exact (search_start_fail c t l3 Ht Hl3 Hm).
          - apply search_space_fail; try assumption; discriminate. }
        unfold token_result. rewrite Hm. cbn [option_map].
        rewrite (exec_loop_from s (S fuel) p q).
        -- apply Hnext; [destruct w; discriminate | lia].
        -- rewrite Hsearch, Hskipped. symmetry. now apply exec_eq.
Qed.



Lemma tokens_acc_app (c : ascii) (l2 : list ascii) :
  is_space c = true ->
  forall l1 cur,
    tokens_acc cur (l1 ++ c :: l2)
    = (tokens_acc cur l1 ++ tokens_acc [] l2)%list.
Proof.
  intros Hc. induction l1 as [| a l1 IH]; intros cur; cbn [app tokens_acc].
  - rewrite Hc. destruct cur; reflexivity.
  - destruct (is_space a); [destruct cur |]; cbn [app]; now rewrite IH.
Qed.

Lemma matching_app (ts ts' : list (list ascii)) :
  matching (ts ++ ts') = (matching ts ++ matching ts')%list.
Proof.
  induction ts as [| t ts IH]; cbn [app matching]; [reflexivity |].
  destruct (token_result t); cbn [app]; now rewrite IH.
Qed.

Lemma list_ascii_app (a b : string) :
  list_ascii_of_string (a ++ b)
  = (list_ascii_of_string a ++ list_ascii_of_string b)%list.
Proof. induction a as [| c a IH]; cbn; congruence. Qed.

(** A token that does not match adds nothing to the tokens that match. *)
Lemma matching_skips (sp : ascii) (s1 t s2 : string) :
  is_space sp = true ->
  Forall nonspace (list_ascii_of_string t) ->
  match_token (list_ascii_of_string t) = None ->
  matching (tokens (s1 ++ String sp (t ++ String sp s2)))
  = matching (tokens (s1 ++ String sp s2)).
Proof.
  intros Hsp Ht Hm. unfold tokens.
  rewrite !list_ascii_app. cbn [list_ascii_of_string].
  rewrite list_ascii_app. cbn [list_ascii_of_string].
  rewrite !(tokens_acc_app sp _ Hsp), !matching_app. f_equal.
  rewrite <- (app_nil_l (tokens_acc [] (list_ascii_of_string s2))) at 2.
  f_equal.
  destruct (list_ascii_of_string t) as [| c l] eqn:E; [reflexivity |].
  rewrite <- (app_nil_r (c :: l)).
  rewrite (tokens_acc_token (c :: l) [] Ht I [] ltac:(discriminate)).
  cbn [rev app matching tokens_acc]. unfold token_result. now rewrite Hm.
Qed.

(** The loop of the parser ends within one round per character and one
    more, and sees the tokens that match. *)
Lemma exec_loop_enough (s : string) (fuel : nat) :
  (String.length s < fuel)%nat ->
  exists ms,
    exec_loop fuel s 0 = Some ms
    /\ List.map captures ms = List.map captures (matching (tokens s)).
Proof.
  intros Hf.
  apply (exec_loop_tokens s (String.length s) (list_ascii_of_string s) 0).
  - rewrite length_list_ascii. lia.
  - reflexivity.
  - rewrite length_list_ascii. lia.
  - now left.
  - rewrite length_list_ascii. lia.
Qed.




(** ** The loops of the time directives

    The loops of [getTimeOffsetAndMessage] are run on a number of rounds
    computed beforehand.  That number is never what ends them: with more
    rounds allowed they produce the same items. *)

Lemma for_up_fuel (step bound : Q) (body : Q -> list announcement) :
  forall (fuel : nat) (offset : Q) (extra : nat),
    (bound < offset + inject_Z (Z.of_nat fuel) * step)%Q ->
    for_up (fuel + extra) offset step bound body
    = for_up fuel offset step bound body.
Proof.
  induction fuel as [| fuel IH]; intros offset extra Hb.
  - cbn [Nat.add for_up]. destruct extra; [reflexivity |]. cbn [for_up].
    replace (Qle_bool offset bound) with false; [reflexivity |].
    symmetry. apply Qle_bool_gt.
    change (inject_Z (Z.of_nat 0)) with 0%Q in Hb. lra.
  - cbn [Nat.add for_up]. destruct (Qle_bool offset bound); [| reflexivity].
    f_equal. apply IH.
    rewrite Nat2Z.inj_succ, <- Z.add_1_r, inject_Z_plus in Hb.
    change (inject_Z 1) with 1%Q in Hb. lra.
Qed.

Lemma rounds_up_enough (step bound : Q) :
  (0 < step)%Q ->
  (bound < step + inject_Z (Z.of_nat (rounds_up step bound)) * step)%Q.
Proof.
  intros Hs. unfold rounds_up.
  pose proof (Qlt_floor (bound / step)) as Hf.
  rewrite inject_Z_plus in Hf. change (inject_Z 1) with 1%Q in Hf.
  apply (Qmult_lt_compat_r _ _ step Hs) in Hf.
  assert (E : (bound / step * step == bound)%Q) by (field; lra).
  rewrite E in Hf.
  destruct (Z_le_gt_dec 0 (Qfloor (bound / step))) as [Hz | Hz].
  - rewrite Z2Nat.id by assumption. lra.
  - assert (Hn : Z.to_nat (Qfloor (bound / step)) = 0%nat) by lia.
    rewrite Hn. cbn [Z.of_nat].
    assert (Hneg : (inject_Z (Qfloor (bound / step)) <= -1)%Q).
    { change (-1)%Q with (inject_Z (-1)). rewrite <- Zle_Qle. lia. }
    change (inject_Z 0) with 0%Q. nra.
Qed.

(** The loop [for (offset = interval; offset <= bound; offset += interval)]
    of a positive [interval] ends by its own test. *)
Lemma for_up_ends (interval bound : Q) (body : Q -> list announcement)
    (extra : nat) :
  (0 < interval)%Q ->
  for_up (rounds_up interval bound + extra) interval interval bound body
  = for_up (rounds_up interval bound) interval interval bound body.
Proof.
  intros Hi. apply for_up_fuel. now apply rounds_up_enough.
Qed.

Lemma for_down_fuel (body : Q -> announcement) :
  forall (fuel : nat) (a : Q) (extra : nat),
    (a <= inject_Z (Z.of_nat fuel))%Q ->
    for_down (fuel + extra) a body = for_down fuel a body.
Proof.
  induction fuel as [| fuel IH]; intros a extra Ha.
  - cbn [Nat.add for_down]. destruct extra; [reflexivity |]. cbn [for_down].
    replace (Qltb 0 a) with false; [reflexivity |].
    symmetry. apply Qltb_ge.
    change (inject_Z (Z.of_nat 0)) with 0%Q in Ha. lra.
  - cbn [Nat.add for_down]. destruct (Qltb 0 a); [| reflexivity].
    f_equal. apply IH.
    rewrite Nat2Z.inj_succ, <- Z.add_1_r, inject_Z_plus in Ha.
    change (inject_Z 1) with 1%Q in Ha. lra.
Qed.

(** The loop [for (a = count; a > 0; a -= 1)] ends by its own test. *)
Lemma for_down_ends (count : Q) (body : Q -> announcement) (extra : nat) :
  for_down (rounds_down count + extra) count body
  = for_down (rounds_down count) count body.
Proof.
  apply for_down_fuel. unfold rounds_down.
  pose proof (Qle_ceiling count) as Hc.
  destruct (Z_le_gt_dec 0 (Qceiling count)) as [Hz | Hz].
  - now rewrite Z2Nat.id.
  - assert (Hn : Z.to_nat (Qceiling count) = 0%nat) by lia. rewrite Hn.
    assert (Hneg : (inject_Z (Qceiling count) <= 0)%Q).
    { change 0%Q with (inject_Z 0). rewrite <- Zle_Qle. lia. }
    cbn [Z.of_nat]. change (inject_Z 0) with 0%Q. lra.
Qed.

(** * Further properties of the code *)

(** ** Time codec *)

(** X1: the components of a non-negative duration: whole hours, then
    minutes and seconds below 60 and tenths below 10, none negative. *)
Theorem millisecondsToTimeObj_ranges (d : Z) :
  0 <= d ->
  hours (millisecondsToTimeObj d) = d / 3600000
  /\ 0 <= hours (millisecondsToTimeObj d)
  /\ 0 <= minutes (millisecondsToTimeObj d) < 60
  /\ 0 <= seconds (millisecondsToTimeObj d) < 60
  /\ 0 <= tenths (millisecondsToTimeObj d) < 10.
Proof.
  intros Hd. unfold millisecondsToTimeObj.
  rewrite !getWholePart_mod. cbn [hours minutes seconds tenths].
  unfold mult_hours, mult_minutes, mult_seconds, mult_tenths.
  pose proof (Z.mod_pos_bound d 3600000 ltac:(lia)) as H1.
  pose proof (Z.mod_pos_bound (d mod 3600000) 60000 ltac:(lia)) as H2.
  pose proof (Z.mod_pos_bound ((d mod 3600000) mod 60000) 1000 ltac:(lia))
    as H3.
  repeat split.
  - apply Z.div_pos; lia.
  - apply Z.div_pos; lia.
  - apply Z.div_lt_upper_bound; lia.
  - apply Z.div_pos; lia.
  - apply Z.div_lt_upper_bound; lia.
  - apply Z.div_pos; lia.
  - apply Z.div_lt_upper_bound; lia.
Qed.

Lemma millisecondsToTimeObj_ranges_witness :
  hours (millisecondsToTimeObj 3723400) = 3723400 / 3600000
  /\ 0 <= hours (millisecondsToTimeObj 3723400)
  /\ 0 <= minutes (millisecondsToTimeObj 3723400) < 60
  /\ 0 <= seconds (millisecondsToTimeObj 3723400) < 60
  /\ 0 <= tenths (millisecondsToTimeObj 3723400) < 10.
Proof. apply (millisecondsToTimeObj_ranges 3723400). lia. Defined.

(** X2: a time object whose minutes and seconds are below 60 and whose
    tenths are below 10 comes back unchanged from its milliseconds. *)
Theorem timeObj_roundtrip (t : timeObj) :
  0 <= minutes t < 60 -> 0 <= seconds t < 60 -> 0 <= tenths t < 10 ->
  millisecondsToTimeObj (timeObjToMilliseconds t) = t.
Proof.
  destruct t as [h m s x]. cbn [hours minutes seconds tenths].
  intros Hm Hs Hx. unfold millisecondsToTimeObj, timeObjToMilliseconds.
  cbn [hours minutes seconds tenths].
  unfold mult_hours, mult_minutes, mult_seconds, mult_tenths.
  rewrite !getWholePart_mod.
  set (d := 0 + x * 100 + s * 1000 + m * 60000 + h * 3600000).
  assert (Hh : d / 3600000 = h)
    by (symmetry; apply (Z.div_unique d 3600000 h
                           (x * 100 + s * 1000 + m * 60000)); lia).
  assert (Hr1 : d mod 3600000 = x * 100 + s * 1000 + m * 60000)
    by (symmetry; apply (Z.mod_unique d 3600000 h); lia).
  rewrite Hh, Hr1.
  assert (Hmq : (x * 100 + s * 1000 + m * 60000) / 60000 = m)
    by (symmetry; apply (Z.div_unique _ 60000 m (x * 100 + s * 1000)); lia).
  assert (Hr2 : (x * 100 + s * 1000 + m * 60000) mod 60000
                = x * 100 + s * 1000)
    by (symmetry; apply (Z.mod_unique _ 60000 m); lia).
  rewrite Hmq, Hr2.
  assert (Hsq : (x * 100 + s * 1000) / 1000 = s)
    by (symmetry; apply (Z.div_unique _ 1000 s (x * 100)); lia).
  assert (Hr3 : (x * 100 + s * 1000) mod 1000 = x * 100)
    by (symmetry; apply (Z.mod_unique _ 1000 s); lia).
  rewrite Hsq, Hr3.
  assert (Hxq : (x * 100) / 100 = x) by (apply Z.div_mul; lia).
  now rewrite Hxq.
Qed.

Lemma timeObj_roundtrip_witness :
  millisecondsToTimeObj (timeObjToMilliseconds (mkTimeObj 1 2 3 4))
  = mkTimeObj 1 2 3 4.
Proof.
  apply (timeObj_roundtrip (mkTimeObj 1 2 3 4)); cbn; lia.
Defined.

(** ** Lead table *)

Lemma pre_scan_in (timeRemaining : Q) (pre : list preBand) (d : Q) :
  pre_scan timeRemaining pre = Some d ->
  exists b, In b pre /\ d = delay b /\ (timeRemaining <= remaining b)%Q.
Proof.
  induction pre as [| b pre IH]; cbn [pre_scan]; [discriminate |].
  destruct (Qle_bool timeRemaining (remaining b)) eqn:E.
  - intros [= <-]. exists b. apply Qle_bool_iff in E.
    repeat split; [now left | assumption].
  - intros H. destruct (IH H) as (b' & Hin & Hd & Hle).
    exists b'. repeat split; [now right | assumption | assumption].
Qed.

Lemma pre_scan_none (timeRemaining : Q) (pre : list preBand) :
  pre_scan timeRemaining pre = None ->
  forall b, In b pre -> (remaining b < timeRemaining)%Q.
Proof.
  induction pre as [| b pre IH]; cbn [pre_scan]; [intros _ b [] |].
  destruct (Qle_bool timeRemaining (remaining b)) eqn:E; [discriminate |].
  intros H b' [<- | Hin]; [now apply Qle_bool_gt | now apply IH].
Qed.

(** X3: on any table of bands [getSpeakPreOffset] fails only when the
    table is empty.  Otherwise it returns the delay of a band of the table:
    one whose threshold is not below the time remaining, or, when the time
    remaining is above every threshold, the last band. *)
Theorem getSpeakPreOffset_table (pre : list preBand) (timeRemaining : Q) :
  (pre = [] -> getSpeakPreOffset pre timeRemaining = None)
  /\ (pre <> [] ->
      exists b,
        In b pre
        /\ getSpeakPreOffset pre timeRemaining = Some (delay b)
        /\ ((timeRemaining <= remaining b)%Q
            \/ ((forall b', In b' pre -> (remaining b' < timeRemaining)%Q)
                /\ b = List.last pre b))).
Proof.
  split; [intros ->; reflexivity |].
  intros Hne. unfold getSpeakPreOffset.
  destruct (pre_scan timeRemaining pre) as [d |] eqn:E.
  - destruct (pre_scan_in _ _ _ E) as (b & Hin & -> & Hle).
    exists b. repeat split; [assumption | now left].
  - destruct (exists_last Hne) as (pre' & b & ->).
    exists b. rewrite length_app. cbn [List.length].
    replace (List.length pre' + 1 - 1)%nat with (List.length pre')
      by lia.
    rewrite nth_error_app2, Nat.sub_diag by lia. cbn [nth_error option_map].
    repeat split.
    + apply in_or_app. right. now left.
    + right. split; [now apply pre_scan_none |].
      now rewrite last_last.
Qed.

Lemma getSpeakPreOffset_table_witness :
  getSpeakPreOffset [] 5000 = None
  /\ exists b, In b default_pre
               /\ getSpeakPreOffset default_pre 5000 = Some (delay b).
Proof.
  split.
  - apply (getSpeakPreOffset_table [] 5000). reflexivity.
  - destruct (getSpeakPreOffset_table default_pre 5000) as (_ & H).
    destruct H as (b & Hin & Hb & _); [discriminate |].
    exists b. split; assumption.
Defined.

(** X4: on the table of the constructor, when the three delays do not
    decrease, less time remaining never gives a longer lead. *)
Theorem getSpeakPreOffset_monotone (d1 d2 d3 t1 t2 l1 l2 : Q) :
  (d1 <= d2)%Q -> (d2 <= d3)%Q -> (t1 <= t2)%Q ->
  getSpeakPreOffset (pre_table d1 d2 d3) t1 = Some l1 ->
  getSpeakPreOffset (pre_table d1 d2 d3) t2 = Some l2 ->
  (l1 <= l2)%Q.
Proof.
  intros H12 H23 Ht. unfold getSpeakPreOffset, pre_table.
  cbn [pre_scan remaining delay List.length nth_error option_map Nat.sub].
  destruct (Qle_bool t1 10000) eqn:A1; destruct (Qle_bool t1 19999) eqn:A2;
    destruct (Qle_bool t1 86400) eqn:A3;
    destruct (Qle_bool t2 10000) eqn:B1; destruct (Qle_bool t2 19999) eqn:B2;
    destruct (Qle_bool t2 86400) eqn:B3;
    intros [= <-] [= <-]; order_facts; lra.
Qed.

Lemma getSpeakPreOffset_monotone_witness : (200 <= 1200)%Q.
Proof.
  apply (getSpeakPreOffset_monotone 200 600 1200 5000 50000 200 1200);
    try reflexivity; lra.
Defined.

(** ** Schedule builder *)

Lemma compare_offsets_pos (y x : announcement) :
  (0 <? compare_offsets y x) = true <-> (offset y < offset x)%Q.
Proof.
  unfold compare_offsets.
  destruct (Qltb (offset y) (offset x)) eqn:E1.
  - order_facts. split; [tauto | reflexivity].
  - destruct (Qltb (offset x) (offset y)) eqn:E2; order_facts;
      (split; [discriminate | intros; lra]).
Qed.

Lemma insert_sorted_order (x : announcement) (l : list announcement) :
  not_ascending l -> not_ascending (insert_sorted x l).
Proof.
  unfold not_ascending.
  induction 1 as [| y l Hl IH Hy]; cbn [insert_sorted].
  - repeat constructor.
  - destruct (0 <? compare_offsets y x) eqn:E.
    + apply compare_offsets_pos in E.
      constructor; [now constructor |].
      constructor; [lra |].
      rewrite Forall_forall in *. intros b Hb. specialize (Hy b Hb). lra.
    + constructor; [assumption |].
      apply (Permutation_Forall (Permutation_sym (insert_sorted_perm x l))).
      constructor; [| assumption].
      destruct (Qlt_le_dec (offset y) (offset x)) as [Hlt | Hle];
        [| assumption].
      apply compare_offsets_pos in Hlt. congruence.
Qed.

Lemma sortOffsets_order (input : list announcement) :
  not_ascending (sortOffsets input).
Proof.
  unfold sortOffsets.
  assert (H : forall sorted,
             not_ascending sorted ->
             not_ascending
               (List.fold_left (fun s x => insert_sorted x s) input sorted)).
  { induction input as [| x input IH]; intros sorted Hs;
      cbn [List.fold_left]; [assumption |].
    apply IH. now apply insert_sorted_order. }
  apply H. constructor.
Qed.

Lemma sorted_distinct (l : list announcement) :
  not_ascending l -> ForallOrdPairs compatible l -> descending l.
Proof.
  unfold not_ascending, descending.
  induction 1 as [| a l Hl IH Ha]; intros Hp; [constructor |].
  inversion Hp as [| ? ? Hca Hpl]; subst.
  constructor; [now apply IH |].
  rewrite Forall_forall in *. intros b Hb.
  specialize (Ha b Hb). destruct (Hca b Hb) as [Hne _].
  destruct (Qlt_le_dec (offset b) (offset a)) as [Hlt | Hle];
    [assumption |].
  exfalso. apply Hne. lra.
Qed.

Lemma built_pairs (raw : list announcement) (duration : Q) :
  ForallOrdPairs compatible (sortOffsets (filterOffsets raw duration)).
Proof.
  apply (pairs_perm compatible (filterOffsets raw duration));
    [apply compatible_sym | | apply filter_from_pairs].
  symmetry. apply sortOffsets_perm.
Qed.

(** X5: [sortOffsets] returns the items it was given, each as often as it
    was given, with no offset below a later one; a built schedule is
    strictly descending, so its head is the announcement that is due
    next. *)
Theorem schedule_descending (raw : list announcement) (duration : Q) :
  Permutation (sortOffsets raw) raw
  /\ not_ascending (sortOffsets raw)
  /\ descending (sortOffsets (filterOffsets raw duration)).
Proof.
  repeat apply conj.
  - apply sortOffsets_perm.
  - apply sortOffsets_order.
  - apply sorted_distinct; [apply sortOffsets_order | apply built_pairs].
Qed.

Lemma insert_sorted_last (x : announcement) (l : list announcement) :
  Forall (fun y => (offset x <= offset y)%Q) l ->
  insert_sorted x l = (l ++ [x])%list.
Proof.
  induction 1 as [| y l Hy Hl IH]; cbn [insert_sorted app]; [reflexivity |].
  destruct (0 <? compare_offsets y x) eqn:E.
  - apply compare_offsets_pos in E. lra.
  - now rewrite IH.
Qed.

Lemma sortOffsets_sorted (l : list announcement) :
  not_ascending l -> sortOffsets l = l.
Proof.
  unfold sortOffsets.
  assert (H : forall sorted,
             not_ascending (sorted ++ l) ->
             List.fold_left (fun s x => insert_sorted x s) l sorted
             = (sorted ++ l)%list).
  { induction l as [| x l IH]; intros sorted Hs; cbn [List.fold_left].
    - now rewrite app_nil_r.
    - rewrite insert_sorted_last.
      + rewrite IH; rewrite <- app_assoc; [reflexivity | assumption].
      + clear IH. unfold not_ascending in Hs.
        induction sorted as [| y sorted IHs]; [constructor |].
        cbn [app] in Hs. inversion Hs as [| ? ? Hs' Hy]; subst.
        constructor; [| now apply IHs].
        rewrite Forall_forall in Hy. apply Hy.
        apply in_or_app. right. now left. }
  intros Hl. now apply (H []).
Qed.

Lemma filter_from_all (max : Q) (l : list announcement) :
  forall found,
    descending l -> ForallOrdPairs compatible l ->
    (forall a, In a l ->
       fresh found (offset a)
       /\ ((offset a <= 30000)%Q \/ apart found (offset a))
       /\ (offset a < max)%Q /\ (0 < offset a)%Q) ->
    filter_from found l max = l.
Proof.
  unfold descending.
  induction l as [| a l IH]; intros found Hs Hp Hok;
    cbn [filter_from]; [reflexivity |].
  inversion Hs as [| ? ? Hs' Ha]; subst.
  inversion Hp as [| ? ? Hca Hp']; subst.
  rewrite Forall_forall in Ha, Hca.
  replace (keep found max a) with true
    by (symmetry; apply keep_spec, Hok; now left).
  f_equal. apply IH; try assumption.
  intros b Hb. destruct (Hok b (or_intror Hb)) as (Hf & Hfar & Hm & H0).
  destruct (Hca b Hb) as [Hne Hdist]. specialize (Ha b Hb).
  repeat split; try assumption.
  - apply fresh_app. split; assumption.
  - destruct (Qlt_le_dec 30000 (offset b)) as [Hb30 | Hb30];
      [right | now left].
    destruct Hfar as [Hfar | Hfar]; [lra |].
    apply apart_app. split; [assumption |].
    specialize (Hdist ltac:(lra) Hb30).
    intros [H1 H2]. revert Hdist. apply Qlt_not_le.
    apply Qabs_case; intros; lra.
Qed.

(** With exact arithmetic a built schedule, filtered and sorted again
    against the same duration, is the schedule itself. *)
Lemma refilter_exact (raw : list announcement) (duration : Q) :
  sortOffsets
    (filterOffsets (sortOffsets (filterOffsets raw duration)) duration)
  = sortOffsets (filterOffsets raw duration).
Proof.
  set (schedule := sortOffsets (filterOffsets raw duration)).
  assert (Hd : descending schedule)
    by (apply sorted_distinct; [apply sortOffsets_order | apply built_pairs]).
  assert (Hf : filterOffsets schedule duration = schedule).
  { apply filter_from_all; [assumption | apply built_pairs |].
    intros a Ha.
    apply (Permutation_in a (sortOffsets_perm _)) in Ha.
    apply filter_from_kept in Ha as (_ & _ & Hm & H0).
    repeat split; try assumption.
    - intros f [].
    - right. intros f []. }
  rewrite Hf. apply sortOffsets_sorted, sortOffsets_order.
Qed.

Lemma indexOf_found_true (x : Q) (found : list Q) :
  indexOf_found x found = true -> exists f, In f found /\ (f == x)%Q.
Proof.
  induction found as [| y found IH]; cbn [indexOf_found]; [discriminate |].
  intros H. apply orb_true_iff in H as [H | H].
  - exists y. split; [now left | now apply Qeq_bool_iff].
  - destruct (IH H) as (f & Hin & Hf). exists f. split; [now right | exact Hf].
Qed.

Lemma filter_from_low (max : Q) (item : announcement) :
  (0 < offset item)%Q -> (offset item <= 30000)%Q -> (offset item < max)%Q ->
  forall offsets found,
    In item offsets ->
    (exists kept, In kept (filter_from found offsets max)
                  /\ (offset kept == offset item)%Q)
    \/ (exists f, In f found /\ (f == offset item)%Q).
Proof.
  intros H0 H30 Hm.
  induction offsets as [| x offsets IH]; intros found Hin; [contradiction |].
  cbn [filter_from]. destruct (keep found max x) eqn:Hk.
  - destruct Hin as [-> | Hin].
    + left. exists item. split; [now left | reflexivity].
    + destruct (IH (found ++ [offset x])%list Hin)
        as [(kept & Hkin & Hke) | (f & Hf & Hfe)].
      * left. exists kept. split; [now right | assumption].
      * apply in_app_or in Hf as [Hf | [<- | []]].
        -- right. exists f. split; assumption.
        -- left. exists x. split; [now left | assumption].
  - destruct Hin as [-> | Hin]; [| now apply IH].
    right. apply indexOf_found_true.
    destruct (indexOf_found (offset item) found) eqn:Ei; [reflexivity |].
    exfalso. apply indexOf_found_spec in Ei.
    assert (keep found max item = true); [| congruence].
    apply keep_spec. repeat split; try assumption. now left.
Qed.

(** X7: the closeness filter never costs an offset of 30000 ms or less.
    Every raw item with such an offset, above 0 and below the duration, has
    its offset in the built schedule. *)
Theorem low_offsets_survive (raw : list announcement) (duration : Q)
    (item : announcement) :
  In item raw ->
  (0 < offset item)%Q -> (offset item <= 30000)%Q ->
  (offset item < duration)%Q ->
  exists kept,
    In kept (sortOffsets (filterOffsets raw duration))
    /\ (offset kept == offset item)%Q.
Proof.
  intros Hin H0 H30 Hm.
  destruct (filter_from_low duration item H0 H30 Hm raw [] Hin)
    as [(kept & Hk & He) | (f & [] & _)].
  exists kept. split; [| assumption].
  apply (Permutation_in kept (Permutation_sym (sortOffsets_perm _))).
  exact Hk.
Qed.

Lemma low_offsets_survive_witness :
  exists kept,
    In kept
       (sortOffsets
          (filterOffsets
             [ mkAnn 40000 "a"; mkAnn 12000 "b"; mkAnn 10000 "c" ] 60000))
    /\ (offset kept == offset (mkAnn 10000 "c"))%Q.
Proof.
  apply (low_offsets_survive
           [ mkAnn 40000 "a"; mkAnn 12000 "b"; mkAnn 10000 "c" ] 60000
           (mkAnn 10000 "c")).
  - right. right. left. reflexivity.
  - reflexivity.
  - discriminate.
  - reflexivity.
Defined.

(** ** Fraction directives *)

(** X8: no fraction directive announces next to the half-way point.  An
    announcement of [getFractionOffsetAndMessage] that is less than 5000 ms
    away from [T / 2] is at [T / 2] itself, and for a denominator other
    than 2 it carries the half phrase of the suffixes. *)
Theorem near_half_is_half (sfx : suffixes) (dir : intervalObj) (T : Q)
    (a : announcement) :
  In a (getFractionOffsetAndMessage sfx dir T) ->
  tooClose (offset a) (T / 2) = true ->
  offset a = (T / 2)%Q
  /\ (denominator dir <> 2 -> message a = half sfx).
Proof.
  unfold getFractionOffsetAndMessage.
  destruct (denominator dir =? 2) eqn:E.
  - intros [<- | []] _. apply Z.eqb_eq in E. split; [reflexivity | tauto].
  - intros Hin Hc. apply in_map_iff in Hin as (item & <- & _).
    unfold collapse_half in *.
    destruct (tooClose (offset item) (T / 2)) eqn:Hi.
    + split; reflexivity.
    + congruence.
Qed.

Lemma near_half_is_half_witness :
  offset (mkAnn (32000 / 2) "Half way.") = (32000 / 2)%Q
  /\ (8 <> 2 -> message (mkAnn (32000 / 2) "Half way.") = "Half way.").
Proof.
  apply (near_half_is_half default_suffixes
           (mkInterval true false 0 "last" false true "alllast1/8" 8 "" 0)
           32000 (mkAnn (32000 / 2) "Half way.")).
  - right. right. left. reflexivity.
  - reflexivity.
Defined.

Lemma nth_error_pairs (A B : Type) (f g : A -> B) (l : list A) :
  forall k : nat,
    nth_error (List.flat_map (fun a => [f a; g a]) l) (2 * k)
    = option_map f (nth_error l k)
    /\ nth_error (List.flat_map (fun a => [f a; g a]) l) (2 * k + 1)
       = option_map g (nth_error l k).
Proof.
  induction l as [| x l IH]; intros k.
  - cbn [List.flat_map]. rewrite !nth_error_nil. destruct k; split; reflexivity.
  - destruct k as [| k].
    + split; reflexivity.
    + destruct (IH k) as [H1 H2].
      replace (2 * S k)%nat with (S (S (2 * k))) by lia.
      replace (S (S (2 * k)) + 1)%nat with (S (S (2 * k + 1))) by lia.
      cbn [List.flat_map app nth_error]. split; assumption.
Qed.

Lemma length_pairs (A B : Type) (f g : A -> B) (l : list A) :
  List.length (List.flat_map (fun a => [f a; g a]) l)
  = (2 * List.length l)%nat.
Proof.
  induction l as [| x l IH]; [reflexivity |].
  cbn [List.flat_map app List.length]. rewrite IH. lia.
Qed.

(** ** Time directives *)

(** X10: a time directive that is neither [all] nor [every] and has a
    multiplier above 1 announces nothing: the bound of its loop is the bare
    quantity, which the first offset, a multiple of 10000 ms at least,
    already exceeds. *)
Theorem multiplied_time_is_silent (sfx : suffixes) (dir : intervalObj)
    (T : Q) :
  all dir = false -> every dir = false ->
  1 < multiplier dir -> 1 <= time dir ->
  getTimeOffsetAndMessage sfx dir T = [].
Proof.
  intros Ha He Hm Ht. unfold getTimeOffsetAndMessage.
  rewrite Ha, He. cbn [orb andb].
  replace (1 <? multiplier dir) with true by (symmetry; now apply Z.ltb_lt).
  set (unit_ := if (unit dir =? "s")%string then 10000%Q
                else if (unit dir =? "m")%string then 60000%Q
                     else 3600000%Q).
  assert (Hu : (10000 <= unit_)%Q)
    by (unfold unit_; destruct (unit dir =? "s")%string;
        [| destruct (unit dir =? "m")%string]; lra).
  assert (Hq : (1 <= inject_Z (time dir))%Q)
    by (change 1%Q with (inject_Z 1); now rewrite <- Zle_Qle).
  destruct (rounds_up (inject_Z (time dir) * unit_) (inject_Z (time dir)))
    as [| fuel]; [reflexivity |].
  cbn [for_up].
  replace (Qle_bool (inject_Z (time dir) * unit_) (inject_Z (time dir)))
    with false; [reflexivity |].
  symmetry. apply Qle_bool_gt. nra.
Qed.

Lemma multiplied_time_is_silent_witness :
  getTimeOffsetAndMessage default_suffixes
    (mkInterval false false 2 "last" false false "2last30s" 0 "s" 30) 180000
  = [].
Proof.
  apply (multiplied_time_is_silent default_suffixes
           (mkInterval false false 2 "last" false false "2last30s" 0 "s" 30)
           180000); cbn; (reflexivity || lia).
Defined.

#[local] Instance Qltb_comp : Proper (Qeq ==> Qeq ==> eq) Qltb.
Proof. intros x x' Hx y y' Hy. unfold Qltb. now rewrite Hx, Hy. Qed.

#[local] Instance Math_round_comp : Proper (Qeq ==> eq) Math_round.
Proof. intros x x' Hx. unfold Math_round. now rewrite Hx. Qed.

Local Open Scope Q_scope.

(** The message of an offset depends on its value only. *)
Lemma makeTimeMessage_comp (x y : Q) (suffix : string) (forceSufix : bool) :
  (x == y)%Q ->
  makeTimeMessage x suffix forceSufix = makeTimeMessage y suffix forceSufix.
Proof.
  intros E. unfold makeTimeMessage.
  rewrite (Qltb_comp x y E 20000 20000 (Qeq_refl _)).
  rewrite (Qltb_comp 10000 10000 (Qeq_refl _) x y E).
  rewrite (Math_round_comp (x / 1000) (y / 1000)) by now rewrite E.
  destruct (Qltb y 20000); [reflexivity |].
  rewrite (Qleb_comp 3600000 3600000 (Qeq_refl _) x y E).
  rewrite (Qfloor_comp (x / 3600000) (y / 3600000)) by now rewrite E.
  destruct (Qle_bool 3600000 y); cbv beta iota zeta.
  - set (w := (x - inject_Z (Qfloor (y / 3600000)) * 3600000)%Q).
    set (w' := (y - inject_Z (Qfloor (y / 3600000)) * 3600000)%Q).
    assert (Ew : (w == w')%Q) by (unfold w, w'; now rewrite E).
    rewrite (Qleb_comp 60000 60000 (Qeq_refl _) w w' Ew).
    rewrite (Qfloor_comp (w / 60000) (w' / 60000)) by now rewrite Ew.
    destruct (Qle_bool 60000 w'); cbv beta iota zeta.
    + rewrite (Math_round_comp
                 ((w - inject_Z (Qfloor (w' / 60000)) * 60000) / 1000)
                 ((w' - inject_Z (Qfloor (w' / 60000)) * 60000) / 1000))
        by now rewrite Ew.
      reflexivity.
    + rewrite (Math_round_comp (w / 1000) (w' / 1000)) by now rewrite Ew.
      reflexivity.
  - rewrite (Qleb_comp 60000 60000 (Qeq_refl _) x y E).
    rewrite (Qfloor_comp (x / 60000) (y / 60000)) by now rewrite E.
    destruct (Qle_bool 60000 y); cbv beta iota zeta.
    + rewrite (Math_round_comp
                 ((x - inject_Z (Qfloor (y / 60000)) * 60000) / 1000)
                 ((y - inject_Z (Qfloor (y / 60000)) * 60000) / 1000))
        by now rewrite E.
      reflexivity.
    + rewrite (Math_round_comp (x / 1000) (y / 1000)) by now rewrite E.
      reflexivity.
Qed.

Local Close Scope Q_scope.

Lemma for_down_rounds (body : Q -> announcement) :
  forall (fuel : nat) (a : Q),
    (inject_Z (Z.of_nat fuel) < a + 1)%Q ->
    for_down fuel a body = List.map body (countdown fuel a).
Proof.
  induction fuel as [| fuel IH]; intros a Ha; [reflexivity |].
  rewrite Nat2Z.inj_succ, <- Z.add_1_r, inject_Z_plus in Ha.
  change (inject_Z 1) with 1%Q in Ha.
  assert (H0 : (0 <= inject_Z (Z.of_nat fuel))%Q)
    by (change 0%Q with (inject_Z 0); rewrite <- Zle_Qle; lia).
  cbn [for_down countdown List.map].
  replace (Qltb 0 a) with true by (symmetry; apply Qltb_lt; lra).
  f_equal. apply IH. lra.
Qed.

Lemma for_down_countdown (body : Q -> announcement) (count : Q) :
  for_down (rounds_down count) count body
  = List.map body (countdown (rounds_down count) count).
Proof.
  destruct (rounds_down count) as [| n] eqn:E; [reflexivity |].
  apply for_down_rounds. unfold rounds_down in E.
  rewrite <- E, Z2Nat.id by lia.
  pose proof (Qceiling_lt count) as H.
  unfold Z.sub in H. rewrite inject_Z_plus, inject_Z_opp in H.
  change (inject_Z 1) with 1%Q in H. lra.
Qed.

Lemma for_up_rounds (step bound : Q) (body : Q -> list announcement) :
  (0 <= step)%Q ->
  forall (fuel : nat) (offset : Q),
    (offset + inject_Z (Z.of_nat fuel) * step <= bound + step)%Q ->
    for_up fuel offset step bound body
    = List.flat_map body (climb fuel offset step).
Proof.
  intros Hs. induction fuel as [| fuel IH]; intros offset Hb;
    [reflexivity |].
  rewrite Nat2Z.inj_succ, <- Z.add_1_r, inject_Z_plus in Hb.
  change (inject_Z 1) with 1%Q in Hb.
  assert (H0 : (0 <= inject_Z (Z.of_nat fuel))%Q)
    by (change 0%Q with (inject_Z 0); rewrite <- Zle_Qle; lia).
  cbn [for_up climb List.flat_map].
  replace (Qle_bool offset bound) with true
    by (symmetry; apply Qle_bool_iff; nra).
  f_equal. apply IH. lra.
Qed.

Lemma for_up_climb (step bound : Q) (body : Q -> list announcement) :
  (0 < step)%Q ->
  for_up (rounds_up step bound) step step bound body
  = List.flat_map body (climb (rounds_up step bound) step step).
Proof.
  intros Hs. unfold rounds_up.
  destruct (Z_le_gt_dec 0 (Qfloor (bound / step))) as [Hz | Hz].
  - apply for_up_rounds; [lra |].
    rewrite Z2Nat.id by assumption.
    pose proof (Qfloor_le (bound / step)) as Hf.
    apply (Qmult_le_compat_r _ _ step) in Hf; [| lra].
    assert (E : (bound / step * step == bound)%Q) by (field; lra).
    rewrite E in Hf. lra.
  - assert (Hn : Z.to_nat (Qfloor (bound / step)) = 0%nat) by lia.
    rewrite Hn. reflexivity.
Qed.

Lemma climb_length (n : nat) (a step : Q) :
  List.length (climb n a step) = n.
Proof.
  revert a. induction n as [| n IH]; intros a; cbn; [reflexivity |].
  now rewrite IH.
Qed.

Lemma climb_nth (step : Q) (n : nat) :
  forall (a : Q) (k : nat),
    (k < n)%nat ->
    exists x,
      nth_error (climb n a step) k = Some x
      /\ (x == a + inject_Z (Z.of_nat k) * step)%Q.
Proof.
  induction n as [| n IH]; intros a k Hk; [lia |].
  destruct k as [| k]; cbn [climb nth_error].
  - exists a. split; [reflexivity |]. change (inject_Z (Z.of_nat 0)) with 0%Q.
    ring.
  - destruct (IH (a + step)%Q k ltac:(lia)) as (x & Hx & Ex).
    exists x. split; [assumption |].
    rewrite Ex, Nat2Z.inj_succ, <- Z.add_1_r, inject_Z_plus.
    change (inject_Z 1) with 1%Q. ring.
Qed.

(** X13: a time directive that is relative to no edge announces every
    [interval = quantity * 1000] ms from both ends, whatever its unit: with
    [n = floor((T / 2) / interval)] there are [2 * n] announcements, and
    for [j = 1 .. n] one "to go" at the remaining time [j * interval] and
    one "gone" at [T - j * interval], both with the message of
    [j * interval]. *)
Theorem time_pairs (sfx : suffixes) (dir : intervalObj) (T : Q) :
  all dir || every dir = true -> multiplier dir <= 1 ->
  relative dir = "" -> 1 <= time dir ->
  let interval := (inject_Z (time dir) * 1000)%Q in
  let n := Qfloor (T / 2 / interval) in
  List.length (getTimeOffsetAndMessage sfx dir T) = (2 * Z.to_nat n)%nat
  /\ forall j : Z, 1 <= j <= n ->
       exists x y,
         nth_error (getTimeOffsetAndMessage sfx dir T)
                   (2 * Z.to_nat (j - 1)) = Some x
         /\ nth_error (getTimeOffsetAndMessage sfx dir T)
                      (2 * Z.to_nat (j - 1) + 1) = Some y
         /\ (offset x == inject_Z j * interval)%Q
         /\ (offset y == T - inject_Z j * interval)%Q
         /\ message x
            = makeTimeMessage (inject_Z j * interval) (last sfx) false
         /\ message y
            = makeTimeMessage (inject_Z j * interval) (first sfx) false.
Proof.
  intros Hall Hm Hrel Ht interval n.
  assert (Hi : (0 < interval)%Q).
  { assert (Hq : (1 <= inject_Z (time dir))%Q)
      by (change 1%Q with (inject_Z 1); now rewrite <- Zle_Qle).
    unfold interval. lra. }
  unfold getTimeOffsetAndMessage. rewrite Hall. cbn [orb andb].
  replace (multiplier dir <=? 1) with true
    by (symmetry; now apply Z.leb_le).
  rewrite Hrel. cbn [String.eqb]. fold interval.
  rewrite (for_up_climb interval (T / 2) _ Hi).
  unfold rounds_up. fold n. split.
  - now rewrite length_pairs, climb_length.
  - intros j Hj.
    destruct (climb_nth interval (Z.to_nat n) interval (Z.to_nat (j - 1))
                ltac:(lia)) as (o & Ho & Eo).
    rewrite Z2Nat.id in Eo by lia.
    assert (Eo' : (o == inject_Z j * interval)%Q)
      by (rewrite Eo; unfold Z.sub;
          rewrite inject_Z_plus, inject_Z_opp;
          change (inject_Z 1) with 1%Q; ring).
    destruct (nth_error_pairs _ _
                (fun offset =>
                   mkAnn offset (makeTimeMessage offset (last sfx) false))
                (fun offset =>
                   mkAnn (T - offset)
                         (makeTimeMessage offset (first sfx) false))
                (climb (Z.to_nat n) interval interval)
                (Z.to_nat (j - 1))) as [H1 H2].
    do 2 eexists. rewrite H1, H2, Ho. cbn [option_map].
    split; [reflexivity |]. split; [reflexivity |]. cbn [offset message].
    repeat split.
    + assumption.
    + now rewrite Eo'.
    + now apply makeTimeMessage_comp.
    + now apply makeTimeMessage_comp.
Qed.

Lemma time_pairs_witness :
  List.length
    (getTimeOffsetAndMessage default_suffixes
       (mkInterval true false 0 "" false false "30s" 0 "s" 30) 180000)
  = (2 * Z.to_nat (Qfloor (180000 / 2 / (inject_Z 30 * 1000))))%nat.
Proof.
  apply (time_pairs default_suffixes
           (mkInterval true false 0 "" false false "30s" 0 "s" 30) 180000);
    cbn; (reflexivity || lia).
Defined.

(** ** Ticker *)




Lemma lead_bounded (d1 d2 d3 lo hi timeRemaining lead : Q) :
  (lo <= d1 <= hi)%Q -> (lo <= d2 <= hi)%Q -> (lo <= d3 <= hi)%Q ->
  getSpeakPreOffset (pre_table d1 d2 d3) timeRemaining = Some lead ->
  (lo <= lead <= hi)%Q.
Proof.
  intros H1 H2 H3. unfold getSpeakPreOffset, pre_table.
  cbn [pre_scan remaining delay].
  destruct (Qle_bool timeRemaining 10000); [now intros [= <-] |].
  destruct (Qle_bool timeRemaining 19999); [now intros [= <-] |].
  destruct (Qle_bool timeRemaining 86400); now intros [= <-].
Qed.

(** X15: with lead times between 0 and 2000 ms, an announcement whose
    instant had not passed at some clock reading less than 2000 ms before
    the tick is never dropped by that tick: the tick leaves it at the head
    of the schedule or takes it off and says it. *)
Theorem steady_ticks_speak (d1 d2 d3 : Q) (before now : Z) (t : timer)
    (a : announcement) (waiting : list announcement) :
  (0 <= d1 <= 2000)%Q -> (0 <= d2 <= 2000)%Q -> (0 <= d3 <= 2000)%Q ->
  workingIntervals t = a :: waiting ->
  before <= now < before + 2000 ->
  now < endTime t ->
  (offset a <= inject_Z (endTime t - before))%Q ->
  exists t' acts,
    progressTickTock (pre_table d1 d2 d3) now t = Some (t', acts)
    /\ ((workingIntervals t' = a :: waiting /\ acts = [])
        \/ (workingIntervals t' = waiting
            /\ acts = [SaySomething (message a)])).
Proof.
  intros H1 H2 H3 Hw Hnow Hend Hahead.
  unfold progressTickTock.
  replace (endTime t - now <? 0) with false
    by (symmetry; apply Z.ltb_ge; lia).
  destruct (getSpeakPreOffset_total d1 d2 d3 (inject_Z (endTime t - now)))
    as [lead Hlead].
  rewrite Hlead.
  pose proof (lead_bounded _ _ _ _ _ _ _ H1 H2 H3 Hlead) as Hb.
  replace (endTime t - now <=? 0) with false
    by (symmetry; apply Z.leb_gt; lia).
  rewrite Hw.
  assert (Hgap : (inject_Z (endTime t - before)
                  < inject_Z (endTime t - now) + 2000)%Q).
  { change 2000%Q with (inject_Z 2000). rewrite <- inject_Z_plus.
    rewrite <- Zlt_Qlt. lia. }
  destruct (Qltb (inject_Z (endTime t - now)) (offset a + lead)) eqn:Hdue.
  - destruct (Qltb (posMinus (offset a) (inject_Z (endTime t - now))) 2000)
      eqn:Hfresh.
    + do 2 eexists. split; [reflexivity |]. right. cbn. auto.
    + exfalso. order_facts. rewrite posMinus_abs in Hfresh.
      apply Qle_not_lt in Hfresh. apply Hfresh.
      apply Qabs_Qlt_condition. split; lra.
  - do 2 eexists. split; [reflexivity |]. left. cbn. auto.
Qed.

Lemma steady_ticks_speak_witness :
  exists t' acts,
    progressTickTock default_pre 100000
      (mkTimer 110100 180000 10500 (mkTimeObj 0 0 10 5) (17 # 18)
               [ mkAnn 10000 "10"; mkAnn 9000 "9" ])
    = Some (t', acts)
    /\ ((workingIntervals t' = [ mkAnn 10000 "10"; mkAnn 9000 "9" ]
         /\ acts = [])
        \/ (workingIntervals t' = [ mkAnn 9000 "9" ]
            /\ acts = [SaySomething (message (mkAnn 10000 "10"))])).
Proof.
  apply (steady_ticks_speak 200 600 1200 99900 100000
           (mkTimer 110100 180000 10500 (mkTimeObj 0 0 10 5) (17 # 18)
                    [ mkAnn 10000 "10"; mkAnn 9000 "9" ])
           (mkAnn 10000 "10") [ mkAnn 9000 "9" ]);
    try reflexivity; try lia; try (split; discriminate);
    try (cbn; discriminate).
Defined.



(** ** Display *)

Lemma string_app_assoc (a b c : string) : (a ++ b) ++ c = a ++ b ++ c.
Proof.
  induction a as [| x a IH]; cbn; [reflexivity | now rewrite IH].
Qed.

Lemma Z_to_string_nonempty (n : Z) :
  exists c s, Z_to_string n = String c s.
Proof.
  unfold Z_to_string, NilZero.string_of_int, NilZero.string_of_uint.
  destruct (Z.to_int n) as [d | d]; destruct d; cbn; eauto.
Qed.

Lemma eqb_app_nonempty (n : Z) (s : string) :
  String.eqb (Z_to_string n ++ s) "" = false.
Proof.
  destruct (Z_to_string_nonempty n) as (c & r & ->). reflexivity.
Qed.

Lemma eqb_nonempty (n : Z) : String.eqb (Z_to_string n) "" = false.
Proof.
  destruct (Z_to_string_nonempty n) as (c & r & ->). reflexivity.
Qed.

(** X17: [onlyGreaterThanZero] keeps a property exactly when it, or one of
    the properties before it in the order hours, minutes, seconds, tenths,
    is a number above zero; a property it keeps has the value it had, and 0
    when it was absent.  Applying it twice changes nothing more, so the
    display is the same whether or not the caller has applied it
    already. *)
Theorem onlyGreaterThanZero_idempotent (v : fields) :
  let r := onlyGreaterThanZero v in
  onlyGreaterThanZero r = r
  /\ timeObjToString r None = timeObjToString v None
  /\ (hours_ r <> None -> greater_than_zero (hours_ v) = true)
  /\ (hours_ r = None -> minutes_ r <> None ->
      greater_than_zero (minutes_ v) = true)
  /\ (hours_ r <> None -> minutes_ r <> None)
  /\ (minutes_ r <> None -> seconds_ r <> None)
  /\ (seconds_ r <> None -> tenths_ r <> None)
  /\ hours_ r
     = (if greater_than_zero (hours_ v) then kept_value (hours_ v)
        else None)
  /\ minutes_ r
     = (if greater_than_zero (hours_ v) || greater_than_zero (minutes_ v)
        then kept_value (minutes_ v) else None)
  /\ seconds_ r
     = (if greater_than_zero (hours_ v) || greater_than_zero (minutes_ v)
           || greater_than_zero (seconds_ v)
        then kept_value (seconds_ v) else None)
  /\ tenths_ r
     = (if greater_than_zero (hours_ v) || greater_than_zero (minutes_ v)
           || greater_than_zero (seconds_ v)
           || greater_than_zero (tenths_ v)
        then kept_value (tenths_ v) else None).
Proof.
  assert (Hidem : forall w, onlyGreaterThanZero (onlyGreaterThanZero w)
                            = onlyGreaterThanZero w).
  { intros [h m s t]. unfold onlyGreaterThanZero, greater_step.
    cbn [hours_ minutes_ seconds_ tenths_ orb].
    destruct (greater_than_zero h) eqn:Eh; cbn [orb hours_ minutes_ seconds_
                                                 tenths_].
    - destruct h as [[n |] |]; try discriminate. cbn in Eh |- *.
      rewrite Eh. reflexivity.
    - destruct (greater_than_zero m) eqn:Em;
        cbn [orb hours_ minutes_ seconds_ tenths_].
      + destruct m as [[n |] |]; try discriminate. cbn in Em |- *.
        rewrite Em. reflexivity.
      + destruct (greater_than_zero s) eqn:Es;
          cbn [orb hours_ minutes_ seconds_ tenths_].
        * destruct s as [[n |] |]; try discriminate. cbn in Es |- *.
          rewrite Es. reflexivity.
        * destruct (greater_than_zero t) eqn:Et;
            cbn [orb hours_ minutes_ seconds_ tenths_].
          -- destruct t as [[n |] |]; try discriminate. cbn in Et |- *.
             rewrite Et. reflexivity.
          -- reflexivity. }
  intros r. split; [apply Hidem |].
  split; [unfold timeObjToString; subst r; now rewrite Hidem |].
  subst r. destruct v as [h m s t].
  unfold onlyGreaterThanZero, greater_step, kept_value.
  cbn [hours_ minutes_ seconds_ tenths_ orb].
  destruct (greater_than_zero h); cbn [orb hours_ minutes_ seconds_ tenths_];
    [repeat split; intros; congruence |].
  destruct (greater_than_zero m); cbn [orb hours_ minutes_ seconds_ tenths_];
    [repeat split; intros; congruence |].
  destruct (greater_than_zero s); cbn [orb hours_ minutes_ seconds_ tenths_];
    [repeat split; intros; congruence |].
  destruct (greater_than_zero t); cbn [orb hours_ minutes_ seconds_ tenths_];
    repeat split; intros; congruence.
Qed.

Lemma whole_step_first (n : Z) :
  whole_step "" (Some (Num n)) = Z_to_string n.
Proof.
  unfold whole_step. cbn [String.eqb negb]. rewrite Bool.andb_false_r.
  reflexivity.
Qed.

Lemma whole_step_next (k n : Z) (r : string) :
  whole_step (Z_to_string k ++ r) (Some (Num n))
  = (Z_to_string k ++ r) ++ ":" ++ pad2 n.
Proof.
  unfold whole_step. rewrite eqb_app_nonempty. cbn [negb].
  rewrite Bool.andb_true_r. reflexivity.
Qed.

Lemma string_app_nil (a : string) : a ++ "" = a.
Proof.
  induction a as [| x a IH]; cbn; [reflexivity | now rewrite IH].
Qed.

(** X18: the display of a time object whose hours, minutes and seconds are
    integers starts at its first field above zero, written as it is; each
    later field takes two digits at least, and the tenths (0 when the
    object has none) follow in their markup.  Only when nothing is above
    zero is the display the bare ["0"]. *)
Theorem timeObjToString_format (h m s : Z) (tn : option Z) :
  let t := match tn with Some n => n | None => 0 end in
  timeObjToString
    (mkFields (Some (Num h)) (Some (Num m)) (Some (Num s))
              (option_map Num tn)) None
  = if 0 <? h
    then Z_to_string h ++ ":" ++ pad2 m ++ ":" ++ pad2 s ++ "." ++ span t
    else if 0 <? m then Z_to_string m ++ ":" ++ pad2 s ++ "." ++ span t
    else if 0 <? s then Z_to_string s ++ "." ++ span t
    else if 0 <? t then "0." ++ span t
    else "0".
Proof.
  intros t.
  assert (Ht : match option_map Num tn with
               | Some x => x
               | None => Num 0
               end = Num t) by (destruct tn; reflexivity).
  unfold timeObjToString, onlyGreaterThanZero, greater_step.
  cbn [hours_ minutes_ seconds_ tenths_ orb greater_than_zero].
  destruct (0 <? h); cbn [orb hours_ minutes_ seconds_ tenths_].
  - rewrite Ht, whole_step_first.
    rewrite <- (string_app_nil (Z_to_string h)) at 1 2.
    repeat (first [rewrite whole_step_next | rewrite string_app_nil]).
    rewrite !string_app_assoc, eqb_app_nonempty.
    cbn [round_string]. unfold span. reflexivity.
  - destruct (0 <? m); cbn [orb hours_ minutes_ seconds_ tenths_].
    + rewrite Ht. change (whole_step "" None) with "".
      rewrite whole_step_first.
      rewrite <- (string_app_nil (Z_to_string m)) at 1 2.
      repeat (first [rewrite whole_step_next | rewrite string_app_nil]).
      rewrite !string_app_assoc, eqb_app_nonempty.
      cbn [round_string]. unfold span. reflexivity.
    + destruct (0 <? s); cbn [orb hours_ minutes_ seconds_ tenths_].
      * rewrite Ht. change (whole_step "" None) with "".
      rewrite whole_step_first.
        rewrite eqb_nonempty. cbn [round_string]. unfold span. reflexivity.
      * destruct tn as [n |]; cbn [option_map greater_than_zero] in *.
        -- subst t. destruct (0 <? n); cbn [whole_step String.eqb];
             [| reflexivity].
           cbn [round_string append]. unfold span. reflexivity.
        -- reflexivity.
Qed.

(** ** Attributes *)

Lemma bol_search (r : regex) (l : list ascii) :
  forall p : nat, (0 < p)%nat -> search false (Seq Bol r) p l = None.
Proof.
  induction l as [| a l IH]; intros p Hp; cbn [search rmatch pos];
    replace (p =? 0)%nat with false by (symmetry; apply Nat.eqb_neq; lia).
  - reflexivity.
  - apply IH. lia.
Qed.


Lemma between_digit (lo hi a : ascii) :
  between lo hi a = true ->
  digit_value lo <= digit_value a <= digit_value hi.
Proof.
  unfold between, digit_value, code. intros H.
  apply andb_prop in H. destruct H as [H1 H2].
  apply Nat.leb_le in H1, H2. lia.
Qed.

Lemma parseInt_from_lower (s : string) :
  forall acc : Z,
    0 <= acc ->
    List.Forall (fun a => in_cls false a (Range "0" "9") = true)
                (list_ascii_of_string s) ->
    acc <= parseInt_from acc s.
Proof.
  induction s as [| c s IH]; intros acc Hacc Hd; cbn [parseInt_from];
    [lia |].
  cbn [list_ascii_of_string] in Hd. inversion Hd as [| ? ? Hc Hs]; subst.
  cbn [in_cls andb] in Hc. rewrite Bool.orb_false_r in Hc.
  apply between_digit in Hc. change (digit_value "0") with 0 in Hc.
  specialize (IH (10 * acc + digit_value c) ltac:(lia) Hs). lia.
Qed.










(** ** Play, pause and end *)

Lemma tick_reads (pre : list preBand) (now : Z) (t1 t2 : timer) :
  endTime t1 = endTime t2 ->
  initialMilliseconds t1 = initialMilliseconds t2 ->
  workingIntervals t1 = workingIntervals t2 ->
  progressTickTock pre now t1 = progressTickTock pre now t2.
Proof.
  intros He Hi Hw. unfold progressTickTock. now rewrite He, Hi, Hw.
Qed.

Lemma click_keeps (cfg : config) (startText : string) (preSpeakStart : Z)
    (now : Z) (p : player) :
  endTime (clock p) <> 0 ->
  let p' := fst (playPauseClick cfg startText preSpeakStart now p) in
  endTime (clock p') = endTime (clock p)
  /\ initialMilliseconds (clock p') = initialMilliseconds (clock p)
  /\ workingIntervals (clock p') = workingIntervals (clock p)
  /\ play p' = negb (play p)
  /\ (tidy p -> tidy p').
Proof.
  intros He. unfold playPauseClick.
  destruct (play p) eqn:Hplay; cbn [fst].
  - unfold pausePlaying, clearTimerInterval, tidy.
    cbn [clock play progressTicker intervals].
    repeat split; try reflexivity; try discriminate.
    + destruct H as [Hi _]. rewrite Hi.
      destruct (progressTicker p) as [id |]; [| reflexivity].
      cbn [List.remove]. now destruct (Nat.eq_dec id id).
    + intros Hn. now contradiction Hn.
  - unfold startPlaying.
    replace (endTime (clock p) =? 0) with false
      by (symmetry; now apply Z.eqb_neq).
    cbn [andb fst].
    unfold startPlayingInner, setProgressTicker, anchor, tidy.
    cbn [clock play progressTicker intervals nextId endTime
         initialMilliseconds remainingMilliseconds workingIntervals].
    replace (endTime (clock p) =? 0) with false
      by (symmetry; now apply Z.eqb_neq).
    cbn [endTime initialMilliseconds workingIntervals].
    repeat split; try reflexivity; try discriminate.
    destruct H as [Hi Hp]. rewrite Hi.
    destruct (progressTicker p) as [id |]; [| reflexivity].
    assert (Some id <> None) as Hs by discriminate.
    apply Hp in Hs. congruence.
Qed.

(** X22: once a countdown has been started, no sequence of clicks on the
    play/pause button moves its end time or touches its schedule: a tick
    after the clicks does what it would have done without them, so the
    time spent paused counts as elapsed.  Each click toggles [play], and
    at most one interval stays live, none while paused. *)
Theorem pause_keeps_clock (cfg : config) (startText : string)
    (preSpeakStart : Z) (pre : list preBand) (times : list Z) (now : Z)
    (p : player) :
  endTime (clock p) <> 0 ->
  let p' := clicks cfg startText preSpeakStart times p in
  endTime (clock p') = endTime (clock p)
  /\ workingIntervals (clock p') = workingIntervals (clock p)
  /\ progressTickTock pre now (clock p')
     = progressTickTock pre now (clock p)
  /\ play p' = (if Nat.even (List.length times) then play p
                else negb (play p))
  /\ (tidy p -> tidy p').
Proof.
  intros He.
  assert (H : endTime (clock (clicks cfg startText preSpeakStart times p))
              = endTime (clock p)
              /\ initialMilliseconds
                   (clock (clicks cfg startText preSpeakStart times p))
                 = initialMilliseconds (clock p)
              /\ workingIntervals
                   (clock (clicks cfg startText preSpeakStart times p))
                 = workingIntervals (clock p)
              /\ play (clicks cfg startText preSpeakStart times p)
                 = (if Nat.even (List.length times) then play p
                    else negb (play p))
              /\ (tidy p ->
                  tidy (clicks cfg startText preSpeakStart times p))).
  { revert p He. unfold clicks.
    induction times as [| t times IH]; intros p He; cbn [List.fold_left].
    - cbn. auto.
    - destruct (click_keeps cfg startText preSpeakStart t p He)
        as (H1 & H2 & H3 & H4 & H5).
      destruct (IH (fst (playPauseClick cfg startText preSpeakStart t p))
                  ltac:(congruence)) as (I1 & I2 & I3 & I4 & I5).
      split; [congruence |]. split; [congruence |].
      split; [congruence |]. split; [| auto].
      rewrite I4, H4. cbn [List.length]. rewrite Nat.even_succ.
      rewrite <- Nat.negb_even.
      destruct (Nat.even (List.length times)); cbn [negb];
        [reflexivity | apply Bool.negb_involutive]. }
  intros p'. destruct H as (H1 & H2 & H3 & H4 & H5).
  repeat split; try assumption; try (apply H5; assumption).
  now apply tick_reads.
Qed.

Lemma pause_keeps_clock_witness :
  progressTickTock default_pre 100000
    (clock (clicks (mkConfig (-1) false false false false false false false
                             false false false true "fraction")
                   "Ready. Set. Go!" 2300 [ 40000; 95000 ]
                   (mkPlayer backlog true (Some 0%nat) [ 0%nat ] 1%nat)))
  = progressTickTock default_pre 100000 backlog.
Proof.
  apply (pause_keeps_clock
           (mkConfig (-1) false false false false false false false
                     false false false true "fraction")
           "Ready. Set. Go!" 2300 default_pre [ 40000; 95000 ] 100000
           (mkPlayer backlog true (Some 0%nat) [ 0%nat ] 1%nat)).
  cbn. discriminate.
Defined.

(** X23: at the end of a timer that self-destructs, the removal of the
    element is the last thing scheduled; when the end speech takes no
    longer than the chime delay, the removal comes no earlier than the
    self-destruct delay and no earlier than the start of the chime; the
    timer is not reset and its interval is cleared. *)
Theorem endPlaying_removes_last (cfg : config) (endText : string)
    (preSpeakEnd chimeDelay : Z) (p : player) :
  autoDestruct cfg <> -1 ->
  0 <= preSpeakEnd <= chimeDelay ->
  exists (before : list effect) (timeout : Z),
    snd (endPlaying cfg endText preSpeakEnd chimeDelay p)
    = (before ++ [SetTimeout Remove timeout])%list
    /\ autoDestruct cfg <= timeout
    /\ (forall f ms, In (SetTimeout f ms) before ->
                     f = EndSound /\ ms <= timeout)
    /\ ~ In ResetClick before
    /\ progressTicker (fst (endPlaying cfg endText preSpeakEnd chimeDelay p))
       = None.
Proof.
  intros Ha Hd. unfold endPlaying.
  replace (autoDestruct cfg =? -1) with false
    by (symmetry; now apply Z.eqb_neq).
  destruct (noSayEnd cfg), (noEndChime cfg); cbn [negb snd fst app].
  - exists [], (if autoDestruct cfg <? 0 then 0 else autoDestruct cfg).
    split; [reflexivity |].
    split; [destruct (Z.ltb_spec (autoDestruct cfg) 0); lia |].
    split; [intros f ms [] |]. split; [intros [] | reflexivity].
  - exists [SetTimeout EndSound 0],
      (if autoDestruct cfg <? chimeDelay then chimeDelay
       else autoDestruct cfg).
    split; [reflexivity |].
    split; [destruct (Z.ltb_spec (autoDestruct cfg) chimeDelay); lia |].
    split; [| split; [intros [H | []]; discriminate | reflexivity]].
    intros f ms [H | []]. injection H as <- <-. split; [reflexivity |].
    destruct (Z.ltb_spec (autoDestruct cfg) chimeDelay); lia.
  - exists [Say endText],
      (if autoDestruct cfg <? preSpeakEnd then preSpeakEnd
       else autoDestruct cfg).
    split; [reflexivity |].
    split; [destruct (Z.ltb_spec (autoDestruct cfg) preSpeakEnd); lia |].
    split; [| split; [intros [H | []]; discriminate | reflexivity]].
    intros f ms [H | []]. discriminate.
  - exists [Say endText; SetTimeout EndSound preSpeakEnd],
      (if autoDestruct cfg <? chimeDelay then chimeDelay
       else autoDestruct cfg).
    split; [reflexivity |].
    split; [destruct (Z.ltb_spec (autoDestruct cfg) chimeDelay); lia |].
    split; [| split; [intros [H | [H | []]]; discriminate | reflexivity]].
    intros f ms [H | [H | []]]; [discriminate |].
    injection H as <- <-. split; [reflexivity |].
    destruct (Z.ltb_spec (autoDestruct cfg) chimeDelay); lia.
Qed.

Lemma endPlaying_removes_last_witness :
  exists (before : list effect) (timeout : Z),
    snd (endPlaying
           (mkConfig 2000 false false false false false false false
                     false false false false "fraction")
           "Time's up!" 3300 5000
           (mkPlayer backlog true (Some 0%nat) [ 0%nat ] 1%nat))
    = (before ++ [SetTimeout Remove timeout])%list
    /\ 2000 <= timeout.
Proof.
  destruct (endPlaying_removes_last
              (mkConfig 2000 false false false false false false false
                        false false false false "fraction")
              "Time's up!" 3300 5000
              (mkPlayer backlog true (Some 0%nat) [ 0%nat ] 1%nat))
    as (before & timeout & Hs & Ht & _); [cbn; lia | lia |].
  exists before, timeout. split; [exact Hs | exact Ht].
Defined.

(** ** Messages *)

Lemma Qfloor_div_Z (a b : Z) :
  0 < b -> Qfloor (inject_Z a / inject_Z b) = a / b.
Proof.
  intros Hb. destruct b as [| b | b]; try lia.
  unfold Qdiv, Qinv, inject_Z, Qmult, Qfloor. cbn [Qnum Qden].
  now rewrite Z.mul_1_r.
Qed.

Lemma Math_round_Z (a : Z) : Math_round (inject_Z (a * 1000) / 1000) = a.
Proof.
  unfold Math_round.
  assert (E : (inject_Z (a * 1000) / 1000 + (1 # 2)
               == inject_Z (2 * a + 1) / inject_Z 2)%Q).
  { rewrite inject_Z_mult, inject_Z_plus, inject_Z_mult.
    change (inject_Z 1000) with 1000%Q. change (inject_Z 2) with 2%Q.
    change (inject_Z 1) with 1%Q. field. }
  rewrite E, Qfloor_div_Z by lia.
  symmetry. apply (Z.div_unique (2 * a + 1) 2 a 1); lia.
Qed.

(** X24: from 20 s on, the message of a time reads its minutes, then its
    seconds, each with its plural, and the suffix; [forceSufix] plays no
    part.  The hours are read only when the minutes are 0: with hours and
    minutes both above 0 the hours are lost and the message starts with
    the separator [", "]. *)
Theorem makeTimeMessage_parts (h m s : Z) (suffix : string)
    (forceSufix : bool) :
  0 <= h -> 0 <= m <= 59 -> 0 <= s <= 59 -> 20 <= h * 3600 + m * 60 + s ->
  makeTimeMessage (inject_Z ((h * 3600 + m * 60 + s) * 1000)) suffix
                  forceSufix
  = (if 0 <? m then (if 0 <? h then ", " else "") ++ plural m "minute"
     else if 0 <? h then plural h "hour" else "")
    ++ (if 0 <? s
        then (if (0 <? h) || (0 <? m) then ", " else "")
             ++ plural s "second"
        else "")
    ++ suffix.
Proof.
  intros Hh Hm Hs Hmin.
  set (N := (h * 3600 + m * 60 + s) * 1000).
  unfold makeTimeMessage.
  replace (Qltb (inject_Z N) 20000) with false
    by (symmetry; apply Qltb_ge; change 20000%Q with (inject_Z 20000);
        rewrite <- Zle_Qle; lia).
  assert (Hhour : Qle_bool 3600000 (inject_Z N) = (0 <? h)).
  { destruct (Z.ltb_spec 0 h).
    - apply Qle_bool_iff. change 3600000%Q with (inject_Z 3600000).
      rewrite <- Zle_Qle. lia.
    - apply Qle_bool_gt. change 3600000%Q with (inject_Z 3600000).
      rewrite <- Zlt_Qlt. lia. }
  rewrite Hhour.
  assert (Efloor : Qfloor (inject_Z N / 3600000) = h).
  { change 3600000%Q with (inject_Z 3600000). rewrite Qfloor_div_Z by lia.
    symmetry.
    apply (Z.div_unique N 3600000 h ((m * 60 + s) * 1000)); lia. }
  assert (E1 : (inject_Z N - inject_Z h * 3600000
                == inject_Z ((m * 60 + s) * 1000))%Q).
  { unfold N.
    rewrite !inject_Z_mult, !inject_Z_plus, !inject_Z_mult.
    change (inject_Z 3600) with 3600%Q. change (inject_Z 60) with 60%Q.
    change (inject_Z 1000) with 1000%Q. ring. }
  assert (E0 : (inject_Z N == inject_Z ((m * 60 + s) * 1000))%Q
               \/ 0 < h).
  { destruct (Z.ltb_spec 0 h); [now right | left].
    apply inject_Z_injective. lia. }
  assert (Hmin_ : Qle_bool 60000 (inject_Z ((m * 60 + s) * 1000))
                  = (0 <? m)).
  { destruct (Z.ltb_spec 0 m).
    - apply Qle_bool_iff. change 60000%Q with (inject_Z 60000).
      rewrite <- Zle_Qle. lia.
    - apply Qle_bool_gt. change 60000%Q with (inject_Z 60000).
      rewrite <- Zlt_Qlt. lia. }
  assert (Efloor2 : Qfloor (inject_Z ((m * 60 + s) * 1000) / 60000) = m).
  { change 60000%Q with (inject_Z 60000). rewrite Qfloor_div_Z by lia.
    symmetry.
    apply (Z.div_unique ((m * 60 + s) * 1000) 60000 m (s * 1000)); lia. }
  assert (E2 : (inject_Z ((m * 60 + s) * 1000) - inject_Z m * 60000
                == inject_Z (s * 1000))%Q).
  { rewrite !inject_Z_mult, !inject_Z_plus, !inject_Z_mult.
    change (inject_Z 60) with 60%Q.
    change (inject_Z 1000) with 1000%Q. ring. }
  assert (E3 : 0 < m \/ (inject_Z ((m * 60 + s) * 1000)
                         == inject_Z (s * 1000))%Q).
  { destruct (Z.ltb_spec 0 m); [now left | right].
    apply inject_Z_injective. lia. }
  assert (Hmin1 : Qle_bool 60000 (inject_Z N - inject_Z h * 3600000)
                  = (0 <? m)) by (now rewrite E1).
  unfold plural.
  destruct (Z.ltb_spec 0 h) as [Hh1 | Hh0]; cbv beta iota zeta.
  - rewrite Efloor, Hmin1.
    assert (F1 : Qfloor ((inject_Z N - inject_Z h * 3600000) / 60000) = m)
      by (now rewrite E1).
    destruct (Z.ltb_spec 0 m) as [Hm1 | Hm0]; cbv beta iota zeta.
    + assert (F2 : Math_round
                     ((inject_Z N - inject_Z h * 3600000
                       - inject_Z m * 60000) / 1000) = s)
        by (rewrite E1, E2; apply Math_round_Z).
      rewrite F1, F2. cbn [orb append].
      destruct (0 <? s); cbn [append];
        repeat (first [rewrite string_app_assoc | progress cbn [append]]);
        reflexivity.
    + destruct E3 as [E3 | E3]; [lia |].
      assert (F3 : Math_round
                     ((inject_Z N - inject_Z h * 3600000) / 1000) = s)
        by (rewrite E1, E3; apply Math_round_Z).
      rewrite F3. cbn [orb append].
      destruct (0 <? s); cbn [append];
        repeat (first [rewrite string_app_assoc | progress cbn [append]]);
        reflexivity.
  - destruct E0 as [E0 | E0]; [| lia].
    assert (Hmin0 : Qle_bool 60000 (inject_Z N) = (0 <? m))
      by (now rewrite E0).
    rewrite Hmin0.
    assert (G1 : Qfloor (inject_Z N / 60000) = m) by (now rewrite E0).
    destruct (Z.ltb_spec 0 m) as [Hm1 | Hm0]; cbv beta iota zeta.
    + assert (G2 : Math_round
                     ((inject_Z N - inject_Z m * 60000) / 1000) = s)
        by (rewrite E0, E2; apply Math_round_Z).
      rewrite G1, G2. cbn [orb append].
      destruct (0 <? s); cbn [append];
        repeat (first [rewrite string_app_assoc | progress cbn [append]]);
        reflexivity.
    + destruct E3 as [E3 | E3]; [lia |].
      assert (G3 : Math_round (inject_Z N / 1000) = s)
        by (rewrite E0, E3; apply Math_round_Z).
      rewrite G3. cbn [orb append].
      destruct (0 <? s); cbn [append];
        repeat (first [rewrite string_app_assoc | progress cbn [append]]);
        reflexivity.
Qed.

Lemma makeTimeMessage_parts_witness :
  makeTimeMessage (inject_Z ((1 * 3600 + 30 * 60 + 0) * 1000)) " to go."
                  false
  = ", 30 minutes to go.".
Proof.
  rewrite (makeTimeMessage_parts 1 30 0 " to go." false) by lia.
  reflexivity.
Defined.

(** X25: [makeFractionMessage] reduces a fraction only to a unit fraction.
    When the numerator divides the denominator the message is the half-way
    text (quotient 2) or "1" and the name of the quotient; otherwise the
    fraction is read as given, in the plural, also when it could be
    reduced. *)
Theorem fraction_reduction (sfx : suffixes) (a d : Z) :
  1 <= a < d ->
  makeFractionMessage sfx a d
  = if d mod a =? 0
    then if d / a =? 2 then half sfx else "1 " ++ fraction_name (d / a)
    else Z_to_string a ++ " " ++ fraction_name d ++ "s".
Proof.
  intros Had. unfold makeFractionMessage.
  replace (a =? 0) with false by (symmetry; apply Z.eqb_neq; lia).
  cbn [negb andb].
  destruct (Z.eqb_spec (d mod a) 0) as [Hdiv | Hdiv].
  - destruct (d / a =? 2); [reflexivity |].
    assert (Hq : d = a * (d / a))
      by (rewrite (Z.div_mod d a) at 1 by lia; lia).
    assert (Hpos : 0 < d / a) by nia.
    assert (Ha : d / (d / a) = a).
    { rewrite Hq at 1. apply Z.div_mul. lia. }
    rewrite Ha, Z.div_same by lia. fold (fraction_name (d / a)).
    cbn [Z.ltb Z.compare]. change (Z_to_string 1) with "1".
    now rewrite string_app_nil.
  - assert (Ha : 2 <= a).
    { destruct (Z.eq_dec a 1) as [-> |]; [| lia].
      now rewrite Z.mod_1_r in Hdiv. }
    replace (d =? 2) with false by (symmetry; apply Z.eqb_neq; lia).
    rewrite Z.div_same, Z.div_1_r by lia. fold (fraction_name d).
    replace (1 <? a) with true by (symmetry; apply Z.ltb_lt; lia).
    reflexivity.
Qed.

Lemma fraction_reduction_witness :
  makeFractionMessage default_suffixes 4 6 = "4 sixths"
  /\ makeFractionMessage default_suffixes 2 6 = "1 third".
Proof.
  split.
  - rewrite (fraction_reduction default_suffixes 4 6) by lia. reflexivity.
  - rewrite (fraction_reduction default_suffixes 2 6) by lia. reflexivity.
Defined.

(** ** Start values *)

Lemma match_str_steps (ic : bool) (s : string) :
  forall k st res,
    match_str ic s k st = Some res ->
    exists st1, steps ic (Str s) st st1 /\ k st1 = Some res.
Proof.
  induction s as [| c s IH]; intros k st res H; cbn [match_str] in H.
  - exists st. split; [| assumption]. exists []. cbn.
    repeat split; try constructor. lia.
  - destruct (rest st) as [| a l] eqn:Hr; [discriminate |].
    destruct (same_char ic a c) eqn:Hc; [| discriminate].
    apply IH in H as (st1 & (w & Hw & Hf & Hp & Hcs) & Hk).
    exists st1. split; [| assumption]. exists (a :: w).
    cbn [rest pos caps] in Hw, Hp, Hcs.
    cbn [app List.length list_ascii_of_string].
    repeat split; [now rewrite Hr, Hw | now constructor | lia | assumption].
Qed.

Lemma match_rep_steps (ic : bool) (c : cls) (lo : nat) (hi : option nat)
    (k : state -> option state) (cs : list (nat * string)) :
  forall l n p res,
    match_rep ic c lo hi k n p l cs = Some res ->
    exists (l' w : list ascii),
      k (mkState (p + List.length w) l' cs) = Some res
      /\ l = (w ++ l')%list
      /\ List.Forall (fun a => in_cls ic a c = true) w
      /\ (lo <= n + List.length w)%nat
      /\ match hi with
         | Some h => (n <= h -> n + List.length w <= h)%nat
         | None => True
         end.
Proof.
  assert (Hstop : forall l n p res,
             (if (lo <=? n)%nat then k (mkState p l cs) else None)
             = Some res ->
             exists (l' w : list ascii),
               k (mkState (p + List.length w) l' cs) = Some res
               /\ l = (w ++ l')%list
               /\ List.Forall (fun a => in_cls ic a c = true) w
               /\ (lo <= n + List.length w)%nat
               /\ match hi with
                  | Some h => (n <= h -> n + List.length w <= h)%nat
                  | None => True
                  end).
  { intros l n p res H. destruct (lo <=? n)%nat eqn:E; [| discriminate].
    apply Nat.leb_le in E. exists l, []. cbn [List.length app].
    rewrite !Nat.add_0_r. repeat split; try assumption; try constructor.
    destruct hi; auto. }
  induction l as [| a l IH]; intros n p res H; cbn [match_rep] in H.
  - now apply Hstop.
  - destruct (in_cls ic a c) eqn:Hin; cbn [andb] in H;
      [| now apply Hstop].
    destruct (under hi n) eqn:Hu; [| now apply Hstop].
    destruct (match_rep ic c lo hi k (S n) (S p) l cs) as [r |] eqn:E;
      [| now apply Hstop].
    injection H as <-.
    apply IH in E as (l' & w & Hk & -> & Hf & Hlen & Hhi).
    exists l', (a :: w). cbn [List.length app].
    replace (p + S (List.length w))%nat with (S p + List.length w)%nat
      by lia.
    repeat split; try assumption; [now constructor | lia |].
    destruct hi as [h |]; [| exact I].
    cbn [under] in Hu. apply Nat.ltb_lt in Hu. intros _. lia.
Qed.

(** The matcher is sound: it calls its continuation only in a state that
    a match of the expression leads to. *)
Lemma rmatch_steps (ic : bool) (r : regex) :
  forall k st res,
    rmatch ic r k st = Some res ->
    exists st1, steps ic r st st1 /\ k st1 = Some res.
Proof.
  induction r as [s | c | c lo hi | r1 IH1 r2 IH2 | r1 IH1 r2 IH2 | r1 IH1
                 | n r1 IH1 | | | r1 IH1];
    intros k st res H; cbn [rmatch] in H.
  - now apply match_str_steps.
  - destruct (rest st) as [| a l] eqn:Hr; [discriminate |].
    destruct (in_cls ic a c) eqn:Hin; [| discriminate].
    exists (mkState (S (pos st)) l (caps st)). split; [| assumption].
    exists a. cbn. auto.
  - apply match_rep_steps in H as (l' & w & Hk & Hl & Hf & Hlo & Hhi).
    exists (mkState (pos st + List.length w) l' (caps st)).
    split; [| assumption]. exists w. cbn [steps rest pos caps].
    repeat split; try assumption; try lia.
    destruct hi as [h |]; [| exact I]. cbn in Hhi. lia.
  - apply IH1 in H as (mid & H1 & Hk). apply IH2 in Hk as (st1 & H2 & Hk).
    exists st1. split; [| assumption]. now exists mid.
  - destruct (rmatch ic r1 k st) as [res1 |] eqn:E.
    + injection H as <-. apply IH1 in E as (st1 & H1 & Hk).
      exists st1. split; [now left | assumption].
    + apply IH2 in H as (st1 & H2 & Hk).
      exists st1. split; [now right | assumption].
  - destruct (rmatch ic r1 k st) as [res1 |] eqn:E.
    + injection H as <-. apply IH1 in E as (st1 & H1 & Hk).
      exists st1. split; [now left | assumption].
    + exists st. split; [now right | assumption].
  - apply IH1 in H as (to & H1 & Hk).
    exists (set_cap n st to). split; [| assumption]. now exists to.
  - destruct (pos st =? 0)%nat eqn:E; [| discriminate].
    apply Nat.eqb_eq in E. exists st. cbn [steps]. auto.
  - destruct (rest st) eqn:Hr; [| discriminate]. exists st.
    cbn [steps]. auto.
  - destruct (rmatch ic r1 Some st) as [st' |] eqn:E; [| discriminate].
    apply IH1 in E as (st1 & H1 & [= ->]).
    exists (mkState (pos st) (rest st) (caps st')).
    split; [| assumption]. now exists st'.
Qed.

Lemma exec_bol_steps (r : regex) (s : string) (m : result) :
  exec false (Seq Bol r) s 0 = Some m ->
  exists st1,
    steps false r (mkState 0 (list_ascii_of_string s) []) st1
    /\ captures m = caps st1.
Proof.
  unfold exec. cbn [Nat.leb skipn].
  set (l := list_ascii_of_string s).
  assert (H : forall res,
             search false (Seq Bol r) 0 l = Some res ->
             exists st, rmatch false (Seq Bol r) Some (mkState 0 l [])
                        = Some st /\ res = result_of 0 l st).
  { intros res. destruct l as [| a l']; cbn [search];
      destruct (rmatch false (Seq Bol r) Some _) as [st |];
      try (intros [= <-]; eauto); try discriminate.
    now rewrite bol_search by lia. }
  intros Hs. apply H in Hs as (st & Hm & ->).
  cbn [rmatch pos Nat.eqb] in Hm.
  apply rmatch_steps in Hm as (st1 & Hst & [= ->]).
  exists st. split; [assumption | reflexivity].
Qed.

Lemma set_cap_consumes (n : nat) (st to : state) (w : list ascii) :
  consumes st to w ->
  caps (set_cap n st to) = (n, string_of_list_ascii w) :: caps st.
Proof.
  intros (Hr & Hp & Hc). unfold set_cap. cbn [caps].
  rewrite Hr, Hp, Hc.
  replace (pos st + List.length w - pos st)%nat with (List.length w)
    by lia.
  rewrite List.firstn_app, List.firstn_all, Nat.sub_diag.
  cbn [firstn]. now rewrite List.app_nil_r.
Qed.

Lemma cls_consumes (c : cls) (st to : state) :
  steps false (Cls c) st to ->
  exists a, consumes st to [a] /\ in_cls false a c = true.
Proof.
  intros (a & Hr & Hin & Hp & Hc). exists a. unfold consumes.
  cbn [app List.length]. repeat split; try assumption. lia.
Qed.

Lemma consumes_app (st mid to : state) (w1 w2 : list ascii) :
  consumes st mid w1 -> consumes mid to w2 ->
  consumes st to (w1 ++ w2).
Proof.
  intros (Hr1 & Hp1 & Hc1) (Hr2 & Hp2 & Hc2). unfold consumes.
  rewrite Hr1, Hr2, <- List.app_assoc, List.length_app.
  repeat split; [lia | congruence].
Qed.

Lemma range_digit (a lo hi : ascii) :
  in_cls false a (Range lo hi) = true ->
  digit_value lo <= digit_value a <= digit_value hi.
Proof.
  cbn [in_cls andb]. rewrite Bool.orb_false_r. apply between_digit.
Qed.

(** The characters [[a-b]?[c-d]] takes and the number they spell. *)
Lemma digits_consumed (lo1 hi1 lo2 hi2 : ascii) (st to : state) :
  steps false (Seq (Opt (Cls (Range lo1 hi1))) (Cls (Range lo2 hi2))) st to ->
  0 <= digit_value lo1 <= digit_value hi1 -> 0 <= digit_value lo2 ->
  exists w,
    consumes st to w
    /\ 0 <= parseInt (string_of_list_ascii w)
       <= 10 * digit_value hi1 + digit_value hi2.
Proof.
  intros (mid & [H1 | ->] & H2) Hb1 Hb2.
  - apply cls_consumes in H1 as (a & Ha & Hina).
    apply cls_consumes in H2 as (b & Hb & Hinb).
    exists [a; b]. split; [apply (consumes_app _ _ _ [a] [b] Ha Hb) |].
    apply range_digit in Hina, Hinb.
    unfold parseInt. cbn [string_of_list_ascii parseInt_from]. lia.
  - apply cls_consumes in H2 as (b & Hb & Hinb).
    exists [b]. split; [assumption |].
    apply range_digit in Hinb.
    unfold parseInt. cbn [string_of_list_ascii parseInt_from]. lia.
Qed.

Lemma colon_keeps (st to : state) (s : string) :
  steps false (Str s) st to -> caps to = caps st.
Proof.
  now intros (w & _ & _ & _ & Hc).
Qed.

Lemma all_digits_nonneg (w : list ascii) :
  List.Forall (fun a => in_cls false a (Range "0" "9") = true) w ->
  forall acc, 0 <= acc -> acc <= parseInt_from acc (string_of_list_ascii w).
Proof.
  intros Hw acc Hacc. apply parseInt_from_lower; [assumption |].
  now rewrite list_ascii_of_string_of_list_ascii.
Qed.

Ltac digit_values :=
  change (digit_value "0") with 0 in *;
  change (digit_value "1") with 1 in *;
  change (digit_value "2") with 2 in *;
  change (digit_value "4") with 4 in *;
  change (digit_value "5") with 5 in *;
  change (digit_value "6") with 6 in *;
  change (digit_value "9") with 9 in *.

(** The captures of a match of the expression of [validateTimeDuration]
    and the numbers they spell. *)
Lemma duration_captures (s : string) (m : result) :
  exec false duration_regex s 0 = Some m ->
  (exists s3,
      captures m = [(3%nat, s3)] /\ 0 <= parseInt s3 <= 59)
  \/ (exists s3 s2,
         captures m = [(3%nat, s3); (2%nat, s2)]
         /\ 0 <= parseInt s3 <= 59 /\ 0 <= parseInt s2 <= 59)
  \/ (exists s3 s2 s1,
         captures m = [(3%nat, s3); (2%nat, s2); (1%nat, s1)]
         /\ 0 <= parseInt s3 <= 59 /\ 0 <= parseInt s2 <= 59
         /\ 0 <= parseInt s1 <= 24)
  \/ (exists s4, captures m = [(4%nat, s4)] /\ 60 <= parseInt s4).
Proof.
  intros H. apply exec_bol_steps in H as (st1 & Hst & ->).
  set (st0 := mkState 0 (list_ascii_of_string s) []) in *.
  destruct Hst as (mid & [HA | HB] & (_ & ->)).
  - destruct HA as (m1 & Hopt & (to3 & H3 & ->)).
    apply digits_consumed in H3 as (w3 & Hc3 & Hb3);
      [| digit_values; lia | digit_values; lia].
    digit_values.
    rewrite (set_cap_consumes _ _ _ _ Hc3).
    destruct Hopt as [(m2 & Hopt1 & (m3 & (to2 & H2 & ->) & Hcolon)) | ->].
    + apply colon_keeps in Hcolon. rewrite Hcolon.
      apply digits_consumed in H2 as (w2 & Hc2 & Hb2);
        [| digit_values; lia | digit_values; lia].
    digit_values.
      rewrite (set_cap_consumes _ _ _ _ Hc2).
      destruct Hopt1 as [(m4 & (to1 & H1 & ->) & Hcolon1) | ->].
      * apply colon_keeps in Hcolon1. rewrite Hcolon1.
        right. right. left.
        assert (Hg1 : exists w1,
                   consumes st0 to1 w1
                   /\ 0 <= parseInt (string_of_list_ascii w1) <= 24).
        { destruct H1 as [H1 | (mid1 & Htwo & Hcls)].
          - apply digits_consumed in H1 as (w1 & Hc1 & Hb1);
              [| digit_values; lia | digit_values; lia].
    digit_values.
            exists w1. split; [assumption | lia].
          - destruct Htwo as (w & Hr & Hf & Hp & Hcs).
            cbn [list_ascii_of_string] in Hf.
            inversion Hf as [| a c l l' Ha Hl]; subst.
            inversion Hl; subst.
            apply cls_consumes in Hcls as (b & Hb & Hinb).
            exists [a; b]. split.
            + apply (consumes_app _ mid1 _ [a] [b]); [| assumption].
              unfold consumes. auto.
            + apply range_digit in Hinb. digit_values.
              unfold same_char, canon in Ha. apply Ascii.eqb_eq in Ha.
              subst a. unfold parseInt.
              cbn [string_of_list_ascii parseInt_from].
              digit_values. lia. }
        destruct Hg1 as (w1 & Hc1 & Hb1).
        rewrite (set_cap_consumes _ _ _ _ Hc1).
        do 3 eexists. split; [reflexivity |]. auto.
      * right. left. do 2 eexists. split; [reflexivity |]. auto.
    + left. eexists. split; [reflexivity |]. assumption.
  - right. right. right.
    destruct HB as (to4 & H4 & ->).
    assert (Hg4 : exists w4,
               consumes st0 to4 w4
               /\ 60 <= parseInt (string_of_list_ascii w4)).
    { destruct H4 as [(mid1 & Ha & Hb) | (mid1 & Ha & Hrep)].
      - apply cls_consumes in Ha as (a & Hca & Hina).
        apply cls_consumes in Hb as (b & Hcb & Hinb).
        exists [a; b]. split; [apply (consumes_app _ _ _ [a] [b] Hca Hcb) |].
        apply range_digit in Hina, Hinb. digit_values.
        unfold parseInt. cbn [string_of_list_ascii parseInt_from]. lia.
      - apply cls_consumes in Ha as (a & Hca & Hina).
        destruct Hrep as (w & Hr & Hf & Hlo & _ & Hp & Hcs).
        exists (a :: w). split.
        + apply (consumes_app _ mid1 _ [a] w); [assumption |].
          unfold consumes. auto.
        + apply range_digit in Hina. digit_values.
          destruct w as [| b [| c w]]; cbn [List.length] in Hlo; try lia.
          inversion Hf as [| ? ? Hb Hf1]; subst.
          inversion Hf1 as [| ? ? Hc Hf2]; subst.
          apply range_digit in Hb, Hc. digit_values.
          unfold parseInt. cbn [string_of_list_ascii parseInt_from].
          pose proof (all_digits_nonneg w Hf2
                        (10 * (10 * (10 * 0 + digit_value a)
                               + digit_value b) + digit_value c)
                        ltac:(lia)).
          lia. }
    destruct Hg4 as (w4 & Hc4 & Hb4).
    rewrite (set_cap_consumes _ _ _ _ Hc4).
    eexists. split; [reflexivity |]. assumption.
Qed.

(** A start value matched without a minutes part is matched as a whole,
    by group 3 or by group 4. *)
Lemma bare_captures (s : string) (m : result) :
  exec false duration_regex s 0 = Some m ->
  group m 2 = None ->
  captures m = [(3%nat, s)] \/ captures m = [(4%nat, s)].
Proof.
  intros H H2. apply exec_bol_steps in H as (st1 & Hst & Hcaps).
  unfold group in H2. rewrite Hcaps in *. clear Hcaps m.
  set (st0 := mkState 0 (list_ascii_of_string s) []) in *.
  assert (Hwhole : forall to w,
             consumes st0 to w -> rest to = [] ->
             string_of_list_ascii w = s).
  { intros to w (Hr & _ & _) Hend. cbn [st0 rest] in Hr.
    rewrite Hend, List.app_nil_r in Hr. rewrite <- Hr.
    apply string_of_list_ascii_of_string. }
  destruct Hst as (mid & [HA | HB] & (Hend & ->)).
  - destruct HA as (m1 & Hopt & (to3 & H3 & ->)).
    apply digits_consumed in H3 as (w3 & Hc3 & _);
      [| digit_values; lia | digit_values; lia].
    rewrite (set_cap_consumes _ _ _ _ Hc3) in *.
    destruct Hopt as [(m2 & _ & (m3 & (to2 & Hg2 & ->) & Hcolon)) | ->].
    + apply colon_keeps in Hcolon. rewrite Hcolon in H2.
      unfold set_cap in H2. cbn [caps lookup_cap Nat.eqb] in H2.
      discriminate H2.
    + left. cbn [set_cap rest] in Hend.
      now rewrite (Hwhole to3 w3 Hc3 Hend).
  - right. destruct HB as (to4 & H4 & ->). cbn [set_cap rest] in Hend.
    assert (Hc4 : exists w4, consumes st0 to4 w4).
    { destruct H4 as [(mid1 & Ha & Hb) | (mid1 & Ha & Hrep)].
      - apply cls_consumes in Ha as (a & Hca & _).
        apply cls_consumes in Hb as (b & Hcb & _).
        exists [a; b]. apply (consumes_app _ _ _ [a] [b] Hca Hcb).
      - apply cls_consumes in Ha as (a & Hca & _).
        destruct Hrep as (w & Hr & _ & _ & _ & Hp & Hcs).
        exists (a :: w). apply (consumes_app _ mid1 _ [a] w); [assumption |].
        unfold consumes. auto. }
    destruct Hc4 as (w4 & Hc4).
    rewrite (set_cap_consumes _ _ _ _ Hc4).
    now rewrite (Hwhole to4 w4 Hc4 Hend).
Qed.

(** X26: every start value [validateTimeDuration] accepts gives a whole
    number of seconds, from 0 to 24:59:59 (89999 s), whatever its form.  A
    value matched by group 4, a bare number from 60 up, gives 60 s at
    least and 86400 s at most.  A value matched without a minutes part is a
    bare number of seconds [n], from 0 up, and gives [min(n, 86400)]
    seconds: 59 s at most when group 3 takes it. *)
Theorem validateTimeDuration_range (hoursMinutesSeconds : string) (ms : Z) :
  validateTimeDuration hoursMinutesSeconds = Some ms ->
  0 <= ms <= 89999000
  /\ ms mod 1000 = 0
  /\ (forall matches m4,
        exec false duration_regex hoursMinutesSeconds 0 = Some matches ->
        group matches 4 = Some m4 -> 60000 <= ms <= 86400000)
  /\ (forall matches,
        exec false duration_regex hoursMinutesSeconds 0 = Some matches ->
        group matches 2 = None ->
        ms = Z.min (parseInt hoursMinutesSeconds) 86400 * 1000
        /\ (group matches 4 = None -> 0 <= ms <= 59000)).
Proof.
  intros Hv.
  assert (Hbare : forall matches,
             exec false duration_regex hoursMinutesSeconds 0 = Some matches ->
             group matches 2 = None ->
             ms = Z.min (parseInt hoursMinutesSeconds) 86400 * 1000
             /\ (group matches 4 = None -> 0 <= ms <= 59000)).
  { intros matches Hexec H2.
    pose proof (duration_captures _ _ Hexec) as Hcaps.
    unfold validateTimeDuration in Hv. rewrite Hexec in Hv.
    unfold group in *.
    destruct (bare_captures _ _ Hexec H2) as [Hcap | Hcap];
      rewrite Hcap in *; cbn [lookup_cap Nat.eqb] in *.
    - destruct Hcaps
        as [(s3 & [= <-] & H3)
           | [(s3 & s2 & [=] & _)
             | [(s3 & s2 & s1 & [=] & _) | (s4 & [=] & _)]]].
      unfold timeObjToMilliseconds in Hv.
      cbn [hours minutes seconds tenths] in Hv.
      unfold mult_tenths, mult_seconds, mult_minutes, mult_hours in Hv.
      injection Hv as <-. split; [lia | intros _; lia].
    - injection Hv as <-. split; [| discriminate].
      destruct (Z.ltb_spec 86400 (parseInt hoursMinutesSeconds)); lia. }
  revert Hv.
  unfold validateTimeDuration.
  destruct (exec false duration_regex hoursMinutesSeconds 0)
    as [matches |] eqn:Hexec; [| discriminate].
  unfold group.
  destruct (duration_captures _ _ Hexec)
    as [(s3 & Hcap & H3)
       | [(s3 & s2 & Hcap & H3 & H2)
         | [(s3 & s2 & s1 & Hcap & H3 & H2 & H1)
           | (s4 & Hcap & H4)]]];
    rewrite Hcap; cbn [lookup_cap Nat.eqb]; unfold timeObjToMilliseconds;
    cbn [hours minutes seconds tenths];
    unfold mult_tenths, mult_seconds, mult_minutes, mult_hours.
  - intros [= <-].
    split; [lia |]. split; [Z.div_mod_to_equations; lia |].
    split; [| exact Hbare].
    intros ? ? [= <-]. rewrite Hcap. discriminate.
  - assert (Hm : 0 <= (if String.eqb s2 "" then 0 else parseInt s2) <= 59)
      by (destruct (String.eqb s2 ""); lia).
    intros [= <-].
    split; [lia |]. split; [Z.div_mod_to_equations; lia |].
    split; [| exact Hbare].
    intros ? ? [= <-]. rewrite Hcap. discriminate.
  - assert (Hm : 0 <= (if String.eqb s2 "" then 0 else parseInt s2) <= 59)
      by (destruct (String.eqb s2 ""); lia).
    assert (Hh : 0 <= (if String.eqb s1 "" then 0 else parseInt s1) <= 24)
      by (destruct (String.eqb s1 ""); lia).
    intros [= <-].
    split; [lia |]. split; [Z.div_mod_to_equations; lia |].
    split; [| exact Hbare].
    intros ? ? [= <-]. rewrite Hcap. discriminate.
  - intros [= <-].
    destruct (Z.ltb_spec 86400 (parseInt s4));
      (split; [lia |]); (split; [Z.div_mod_to_equations; lia |]);
      (split; [intros; lia | exact Hbare]).
Qed.

Lemma validateTimeDuration_range_witness :
  (0 <= 89999000 <= 89999000 /\ 89999000 mod 1000 = 0)
  /\ (59000 = Z.min (parseInt "59") 86400 * 1000 /\ 0 <= 59000 <= 59000)
  /\ 86400000 = Z.min (parseInt "90000") 86400 * 1000.
Proof.
  split; [| split].
  - destruct (validateTimeDuration_range "24:59:59" 89999000 eq_refl)
      as (Hr & Hm & _).
    exact (conj Hr Hm).
  - destruct (validateTimeDuration_range "59" 59000 eq_refl)
      as (_ & _ & _ & H).
    destruct (exec false duration_regex "59" 0) as [m |] eqn:E;
      [| discriminate E].
    vm_compute in E. injection E as <-.
    destruct (H _ eq_refl eq_refl) as [Hms Hlow].
    split; [exact Hms | exact (Hlow eq_refl)].
  - destruct (validateTimeDuration_range "90000" 86400000 eq_refl)
      as (_ & _ & _ & H).
    destruct (exec false duration_regex "90000" 0) as [m |] eqn:E;
      [| discriminate E].
    vm_compute in E. injection E as <-.
    exact (proj1 (H _ eq_refl eq_refl)).
Defined.

(** * Properties that depend on the rounding *)

(** ** Binary64 numbers *)

Lemma pow2_pos (e : Z) : (0 < Binary64.pow2 e)%Q.
Proof. apply Qpower_0_lt. reflexivity. Qed.

Lemma pow2_nat (k : Z) :
  0 <= k -> (Binary64.pow2 k == inject_Z (2 ^ k))%Q.
Proof. intros Hk. unfold Binary64.pow2. now rewrite Zpower_Qpower. Qed.

Lemma ilog2_lower (q : Q) :
  ~ (q == 0)%Q -> (Binary64.pow2 (Binary64.ilog2 q) <= Qabs q)%Q.
Proof.
  intros Hq. unfold Binary64.ilog2.
  set (n := Z.abs (Qnum q)). set (d := Zpos (Qden q)).
  destruct (Qle_bool (Binary64.pow2 (Z.log2 n - Z.log2 d)) (Qabs q)) eqn:E.
  - now apply Qle_bool_iff.
  - assert (Hn : 0 < n).
    { unfold n. destruct q as [[| p | p] dq]; cbn; try lia.
      exfalso. apply Hq. reflexivity. }
    assert (Hd : 0 < d) by (unfold d; lia).
    pose proof (Z.log2_spec n Hn) as [Hn1 _].
    pose proof (Z.log2_spec d Hd) as [_ Hd2].
    pose proof (Z.log2_nonneg n). pose proof (Z.log2_nonneg d).
    replace (Z.log2 n - Z.log2 d - 1) with (Z.log2 n - Z.succ (Z.log2 d))
      by lia.
    unfold Binary64.pow2. rewrite Qpower_minus by discriminate.
    fold (Binary64.pow2 (Z.log2 n)).
    fold (Binary64.pow2 (Z.succ (Z.log2 d))).
    rewrite !pow2_nat by lia.
    assert (Eq : (Qabs q == inject_Z n / inject_Z d)%Q).
    { destruct q as [nq dq]. unfold n, d. cbn [Qnum Qden Qabs].
      unfold Qdiv, Qinv, inject_Z, Qmult, Qeq. cbn. lia. }
    rewrite Eq.
    apply Qle_shift_div_l.
    + change 0%Q with (inject_Z 0). rewrite <- Zlt_Qlt. lia.
    + unfold Qdiv. rewrite <- Qmult_assoc, (Qmult_comm (/ _)), Qmult_assoc.
      apply Qle_shift_div_r.
      * change 0%Q with (inject_Z 0). rewrite <- Zlt_Qlt. lia.
      * rewrite <- !inject_Z_mult, <- Zle_Qle. nia.
Qed.

Lemma round_half_even_error (x : Q) :
  (Qabs (inject_Z (Binary64.round_half_even x) - x) <= 1 # 2)%Q.
Proof.
  unfold Binary64.round_half_even.
  pose proof (Qfloor_le x) as Hlo. pose proof (Qlt_floor x) as Hhi.
  rewrite inject_Z_plus in Hhi. change (inject_Z 1) with 1%Q in Hhi.
  apply Qabs_Qle_condition.
  destruct (x - inject_Z (Qfloor x) ?= 1 # 2)%Q eqn:E.
  - apply Qeq_alt in E.
    destruct (Z.even (Qfloor x));
      rewrite ?inject_Z_plus; change (inject_Z 1) with 1%Q; split; lra.
  - apply Qlt_alt in E. split; lra.
  - apply Qgt_alt in E. rewrite inject_Z_plus.
    change (inject_Z 1) with 1%Q. split; lra.
Qed.

(** A rounding is off by at most one part in [2^53]. *)
Lemma fl_error (q : Q) :
  (Qabs (Binary64.fl q - q) <= Qabs q * eps64)%Q.
Proof.
  unfold Binary64.fl, eps64. destruct (Qeq_bool q 0) eqn:E0.
  - apply Qeq_bool_iff in E0. rewrite E0. cbn. discriminate.
  - assert (Hq : ~ (q == 0)%Q) by (now apply Qeq_bool_neq).
    set (e := Binary64.ilog2 q - 52).
    rewrite Qred_correct.
    pose proof (pow2_pos e) as He.
    pose proof (round_half_even_error (q / Binary64.pow2 e)) as Hr.
    pose proof (ilog2_lower q Hq) as Hl.
    assert (Ep : (Binary64.pow2 (Binary64.ilog2 q)
                  == Binary64.pow2 e * inject_Z (2 ^ 52))%Q).
    { replace (Binary64.ilog2 q) with (e + 52) by (unfold e; lia).
      unfold Binary64.pow2 at 1. rewrite Qpower_plus by discriminate.
      fold (Binary64.pow2 e). fold (Binary64.pow2 52).
      now rewrite (pow2_nat 52) by lia. }
    rewrite Ep in Hl.
    assert (Ed : (inject_Z (Binary64.round_half_even (q / Binary64.pow2 e))
                  * Binary64.pow2 e - q
                  == (inject_Z (Binary64.round_half_even
                                  (q / Binary64.pow2 e))
                      - q / Binary64.pow2 e) * Binary64.pow2 e)%Q)
      by (field; lra).
    rewrite Ed, Qabs_Qmult, (Qabs_pos (Binary64.pow2 e)) by lra.
    change (inject_Z (2 ^ 52)) with 4503599627370496%Q in Hl.
    set (r := Qabs (inject_Z (Binary64.round_half_even
                               (q / Binary64.pow2 e))
                    - q / Binary64.pow2 e)) in *.
    assert (Hr0 : (0 <= r)%Q) by apply Qabs_nonneg.
    nra.
Qed.

(** The same, as bounds on the rounded value. *)
Lemma fl_bounds (q : Q) :
  (q - Qabs q * eps64 <= Binary64.fl q <= q + Qabs q * eps64)%Q.
Proof.
  pose proof (fl_error q) as H. apply Qabs_Qle_condition in H. lra.
Qed.

Lemma fl_bounds_pos (q : Q) :
  (0 <= q)%Q ->
  (q - q * eps64 <= Binary64.fl q <= q + q * eps64)%Q.
Proof.
  intros Hq. pose proof (fl_bounds q) as H.
  rewrite (Qabs_pos q Hq) in H. exact H.
Qed.

(** ** Schedule builder *)

Section Filter64.

Variable max : Q.

Lemma tooClose64_comp (x y p : Q) :
  (x == y)%Q -> Binary64.tooClose x p = Binary64.tooClose y p.
Proof.
  intros E. unfold Binary64.tooClose.
  now rewrite (Qltb_comp _ _ (Qeq_refl _) x y E),
    (Qltb_comp x y E _ _ (Qeq_refl _)).
Qed.

Lemma tooCloseAny64_spec (x : Q) (found : list Q) :
  Binary64.tooCloseAny x found = false <-> apart64 found x.
Proof.
  unfold apart64. induction found as [| p found IH]; cbn.
  - split; [intros _ f [] | reflexivity].
  - destruct (Binary64.tooClose x p) eqn:E.
    + split; [discriminate |]. intros H.
      rewrite (H p (or_introl eq_refl)) in E. discriminate.
    + rewrite IH. split.
      * intros H f [<- | Hin]; [assumption | now apply H].
      * intros H f Hin. apply H. now right.
Qed.

Lemma keep64_spec (found : list Q) (item : announcement) :
  Binary64.keep found max item = true
  <-> fresh found (offset item)
      /\ ((offset item <= 30000)%Q \/ apart64 found (offset item))
      /\ (offset item < max)%Q /\ (0 < offset item)%Q.
Proof.
  unfold Binary64.keep.
  rewrite !andb_true_iff, orb_true_iff, !negb_true_iff, !Qltb_lt,
    Qle_bool_iff, indexOf_found_spec, tooCloseAny64_spec.
  tauto.
Qed.

Lemma apart64_app (found : list Q) (y x : Q) :
  apart64 (found ++ [y]) x
  <-> apart64 found x /\ Binary64.tooClose x y = false.
Proof.
  unfold apart64. split.
  - intros H. split; [intros f Hin | ]; apply H; apply in_or_app;
      [left; assumption | right; left; reflexivity].
  - intros [Hf Hy] f Hin. apply in_app_or in Hin as [Hin | [<- | []]];
      [now apply Hf | assumption].
Qed.

Lemma apart64_eq (found : list Q) (x y : Q) :
  (x == y)%Q -> apart64 found x -> apart64 found y.
Proof.
  intros E H f Hin. rewrite <- (tooClose64_comp x y f E). now apply H.
Qed.

(** Every item that passes was tested against the offsets found before. *)
Lemma filter64_kept (offsets : list announcement) :
  forall (found : list Q) (a : announcement),
    In a (Binary64.filter_from found offsets max) ->
    fresh found (offset a)
    /\ ((offset a <= 30000)%Q \/ apart64 found (offset a))
    /\ (offset a < max)%Q /\ (0 < offset a)%Q.
Proof.
  induction offsets as [| item offsets IH]; intros found a Hin;
    cbn [Binary64.filter_from] in Hin; [contradiction |].
  destruct (Binary64.keep found max item) eqn:Hk.
  - destruct Hin as [<- | Hin]; [now apply keep64_spec |].
    apply IH in Hin as (Hf & Ha & Hm & H0).
    apply fresh_app in Hf as [Hf _].
    repeat split; try assumption.
    destruct Ha as [Ha | Ha]; [now left | right].
    now apply apart64_app in Ha as [Ha _].
  - now apply IH.
Qed.

Lemma compatible64_sym (a b : announcement) :
  compatible64 a b -> compatible64 b a.
Proof.
  intros [Hne Hfar]. split.
  - intros E. apply Hne. now symmetry.
  - intros Hb Ha. destruct (Hfar Ha Hb); auto.
Qed.

Lemma filter64_pairs (offsets : list announcement) :
  forall found : list Q,
    ForallOrdPairs compatible64 (Binary64.filter_from found offsets max).
Proof.
  induction offsets as [| item offsets IH]; intros found;
    cbn [Binary64.filter_from]; [constructor |].
  destruct (Binary64.keep found max item) eqn:Hk; [| apply IH].
  constructor; [| apply IH].
  apply Forall_forall. intros b Hb.
  apply filter64_kept in Hb as (Hf & Ha & _).
  apply fresh_app in Hf as [_ Hne]. split; [assumption |].
  intros _ Hb30. destruct Ha as [Ha | Ha]; [lra |].
  apply apart64_app in Ha as [_ Ha]. now right.
Qed.

(** An accepted item is the first item of the input with its offset. *)
Lemma filter64_first (offsets : list announcement) :
  forall (found : list Q) (a : announcement),
    In a (Binary64.filter_from found offsets max) ->
    exists before after : list announcement,
      offsets = (before ++ a :: after)%list
      /\ forall b, In b before -> ~ (offset b == offset a)%Q.
Proof.
  induction offsets as [| item offsets IH]; intros found a Hin;
    cbn [Binary64.filter_from] in Hin; [contradiction |].
  destruct (Binary64.keep found max item) eqn:Hk.
  - destruct Hin as [<- | Hin].
    + exists [], offsets. split; [reflexivity | intros b []].
    + pose proof (filter64_kept _ _ _ Hin) as (Hf & _).
      apply fresh_app in Hf as [_ Hne].
      destruct (IH _ _ Hin) as (before & after & -> & Hb).
      exists (item :: before), after. split; [reflexivity |].
      intros b [<- | Hin']; [assumption | now apply Hb].
  - pose proof (filter64_kept _ _ _ Hin) as (Hf & Ha & Hm & H0).
    destruct (IH _ _ Hin) as (before & after & -> & Hb).
    exists (item :: before), after. split; [reflexivity |].
    intros b [<- | Hin']; [| now apply Hb].
    intros E. symmetry in E.
    assert (Hkeep : Binary64.keep found max item = true).
    { apply keep64_spec. repeat split.
      - now apply (fresh_eq _ _ _ E).
      - destruct Ha as [Ha | Ha]; [left; lra | right].
        now apply (apart64_eq _ _ _ E).
      - lra.
      - lra. }
    congruence.
Qed.

(** What the closeness test guarantees: 5000 ms, less the rounding of the
    two ends of the window. *)
Lemma tooClose64_far (x p : Q) :
  Binary64.tooClose x p = false ->
  (30000 < p)%Q -> (p < max)%Q ->
  (5000 - (max + 5000) * eps64 <= Qabs (x - p))%Q.
Proof.
  intros Hc Hp Hm. unfold Binary64.tooClose in Hc.
  assert (He : (0 < eps64)%Q) by reflexivity.
  apply andb_false_iff in Hc as [Hc | Hc]; apply Qltb_ge in Hc.
  - unfold Binary64.sub in Hc.
    pose proof (fl_bounds_pos (p - 5000) ltac:(lra)) as [_ Hu].
    rewrite Qabs_Qminus. apply Qle_trans with (p - x)%Q; [| apply Qle_Qabs].
    nra.
  - unfold Binary64.add in Hc.
    pose proof (fl_bounds_pos (p + 5000) ltac:(lra)) as [Hl _].
    apply Qle_trans with (x - p)%Q; [| apply Qle_Qabs].
    nra.
Qed.

End Filter64.

Lemma pairs64_distinct_offsets (l : list announcement) :
  ForallOrdPairs compatible64 l -> NoDupA Qeq (List.map offset l).
Proof.
  induction 1 as [| a l Ha Hl IH]; cbn [List.map]; constructor;
    [| assumption].
  intros Hin. apply InA_alt in Hin as (y & E & Hy).
  apply in_map_iff in Hy as (b & <- & Hb).
  rewrite Forall_forall in Ha. now destruct (Ha b Hb).
Qed.

(** C4, amended: in every schedule the code builds, whatever the raw list
    and the duration, each offset lies strictly between 0 and the duration;
    no offset occurs twice; each item is the first item of the raw list
    with its offset; and of two offsets that are both above 30000 ms one
    has passed the closeness test of the source against the other.  That
    test compares with [previous - 5000] and [previous + 5000] rounded to
    binary64, so the two offsets differ by 5000 ms less at most
    [(duration + 5000) / 2^53], and they can differ by less than
    5000 ms. *)
Theorem schedule_invariants (raw : list announcement) (duration : Q) :
  let schedule := sortOffsets (Binary64.filterOffsets raw duration) in
  (forall a, In a schedule -> (0 < offset a)%Q /\ (offset a < duration)%Q)
  /\ NoDupA Qeq (List.map offset schedule)
  /\ (forall a b, In a schedule -> In b schedule ->
        (30000 < offset a)%Q -> (30000 < offset b)%Q ->
        ~ (offset a == offset b)%Q ->
        (Binary64.tooClose (offset a) (offset b) = false
         \/ Binary64.tooClose (offset b) (offset a) = false)
        /\ (5000 - (duration + 5000) * eps64
            <= Qabs (offset a - offset b))%Q)
  /\ (forall a, In a schedule ->
        exists before after : list announcement,
          raw = (before ++ a :: after)%list
          /\ forall b, In b before -> ~ (offset b == offset a)%Q).
Proof.
  intros schedule.
  pose proof (sortOffsets_perm (Binary64.filterOffsets raw duration))
    as Hperm.
  fold schedule in Hperm.
  assert (Hin : forall a, In a schedule ->
                          In a (Binary64.filter_from [] raw duration))
    by (intros a; apply (Permutation_in a Hperm)).
  assert (Hpairs : ForallOrdPairs compatible64 schedule).
  { apply (pairs_perm compatible64 (Binary64.filterOffsets raw duration));
      [apply compatible64_sym | now symmetry | apply filter64_pairs]. }
  assert (Hrange : forall a, In a schedule ->
                             (0 < offset a)%Q /\ (offset a < duration)%Q).
  { intros a Ha. apply Hin, filter64_kept in Ha. tauto. }
  repeat apply conj.
  - exact Hrange.
  - now apply pairs64_distinct_offsets.
  - intros a b Ha Hb Ha30 Hb30 Hne.
    assert (Hc : Binary64.tooClose (offset a) (offset b) = false
                 \/ Binary64.tooClose (offset b) (offset a) = false).
    { destruct (ForallOrdPairs_In Hpairs a b Ha Hb)
        as [-> | [[_ H] | [_ H]]].
      - exfalso. now apply Hne.
      - now apply H.
      - destruct (H Hb30 Ha30); auto. }
    split; [exact Hc |].
    destruct (Hrange a Ha) as [_ Hda]. destruct (Hrange b Hb) as [_ Hdb].
    destruct Hc as [Hc | Hc].
    + now apply (tooClose64_far duration).
    + rewrite Qabs_Qminus. now apply (tooClose64_far duration).
  - intros a Ha. now apply (filter64_first duration raw []), Hin.
Qed.

Lemma schedule_invariants_witness :
  (5000 - (60000 + 5000) * eps64
   <= Qabs (offset (mkAnn 50000 "d") - offset (mkAnn 40000 "a")))%Q
  /\ (0 < offset (mkAnn 50000 "d"))%Q.
Proof.
  pose proof (schedule_invariants
                [ mkAnn 40000 "a"; mkAnn 42000 "b"; mkAnn 40000 "c";
                  mkAnn 50000 "d" ] 60000) as (Hrange & _ & Hfar & _).
  assert (Hs : sortOffsets
                 (Binary64.filterOffsets
                    [ mkAnn 40000 "a"; mkAnn 42000 "b"; mkAnn 40000 "c";
                      mkAnn 50000 "d" ] 60000)
               = [ mkAnn 50000 "d"; mkAnn 40000 "a" ])
    by (vm_compute; reflexivity).
  rewrite Hs in Hrange, Hfar. split.
  - apply Hfar.
    + left. reflexivity.
    + right. left. reflexivity.
    + reflexivity.
    + reflexivity.
    + discriminate.
  - apply Hrange. left. reflexivity.
Defined.

(** C4, as stated, fails.  The notation ["everylast11s last35"] on a timer
    of 52 s makes the code reach [52000 - 11000 - 11000] through a
    millisecond value of 11 s that carries a rounding, which gives
    30000.000000000004; the window [30000.000000000004 + 5000] rounds to
    35000, so that 35000 is not "too close" and is accepted.  Both offsets
    are above 30000 ms and they differ by less than 5000 ms. *)
Lemma schedule_counterexample :
  exists (schedule : list announcement) (a b : announcement),
    Binary64.parseRawIntervals 10 default_suffixes "fraction"
      (JString "everylast11s last35") 52000 None = Some schedule
    /\ In a schedule /\ In b schedule
    /\ offset a = 35000%Q
    /\ offset b = (8246337208320001 # 274877906944)%Q
    /\ (30000 < offset a)%Q /\ (30000 < offset b)%Q
    /\ ~ (offset a == offset b)%Q
    /\ (Qabs (offset a - offset b) < 5000)%Q.
Proof.
  eexists. exists (mkAnn 35000 "35 seconds to go."),
    (mkAnn (8246337208320001 # 274877906944) "30 seconds to go.").
  split; [vm_compute; reflexivity |].
  repeat split; try (vm_compute; discriminate).
  - right. left. reflexivity.
  - right. right. left. reflexivity.
Qed.

(** ** Fraction directives relative to an edge *)

(** The [a]-th offset of a fraction directive relative to an edge is
    [|edge - T / d * a|] up to three roundings. *)
Lemma fraction_offset_error (T edge : Q) (d a : Z) :
  (0 < T)%Q -> 1 <= a <= d ->
  edge = T \/ edge = 0%Q ->
  (Qabs (Binary64.posMinus edge
           (Binary64.mul (Binary64.div T (inject_Z d)) (inject_Z a))
         - Qabs (edge - T / inject_Z d * inject_Z a))
   <= 4 * T * eps64)%Q.
Proof.
  intros HT Ha Hedge.
  assert (HA : (1 <= inject_Z a)%Q)
    by (change 1%Q with (inject_Z 1); rewrite <- Zle_Qle; lia).
  assert (HAD : (inject_Z a <= inject_Z d)%Q) by (rewrite <- Zle_Qle; lia).
  set (A := inject_Z a) in *. set (D := inject_Z d) in *.
  assert (Hq : (0 < T / D)%Q) by (apply Qlt_shift_div_l; lra).
  assert (HqD : (T / D * D == T)%Q) by (field; lra).
  set (q := (T / D)%Q) in *.
  unfold Binary64.div, Binary64.mul. fold q.
  pose proof (fl_bounds_pos q ltac:(lra)) as [Hi1 Hi2].
  set (i := Binary64.fl q) in *.
  assert (HE : (0 < q * A <= T)%Q) by (split; nra).
  assert (HP : (q * A - q * A * eps64 <= i * A
                <= q * A + q * A * eps64)%Q).
  { unfold eps64 in *. split; nra. }
  assert (HP0 : (0 <= i * A)%Q) by (unfold eps64 in *; nra).
  pose proof (fl_bounds_pos (i * A) HP0) as [Hp1 Hp2].
  set (E := (q * A)%Q) in *. set (P := (i * A)%Q) in *.
  set (p := Binary64.fl P) in *.
  unfold Binary64.posMinus, Binary64.sub.
  unfold eps64 in *.
  destruct Hedge as [-> | ->].
  - destruct (Qltb p T) eqn:Hlt;
      [apply Qltb_lt in Hlt | apply Qltb_ge in Hlt].
    + pose proof (fl_bounds_pos (T - p) ltac:(lra)) as [Ho1 Ho2].
      unfold eps64 in *.
      rewrite (Qabs_pos (T - E)) by lra.
      apply Qabs_Qle_condition. split; lra.
    + pose proof (fl_bounds_pos (p - T) ltac:(lra)) as [Ho1 Ho2].
      unfold eps64 in *.
      rewrite (Qabs_pos (T - E)) by lra.
      apply Qabs_Qle_condition. split; lra.
  - assert (Hlt : Qltb p 0 = false) by (apply Qltb_ge; lra).
    rewrite Hlt.
    pose proof (fl_bounds_pos (p - 0) ltac:(lra)) as [Ho1 Ho2].
    unfold eps64 in *.
    rewrite (Qabs_neg (0 - E)) by lra.
    apply Qabs_Qle_condition. split; lra.
Qed.

Lemma fraction_count_bound (matches : result) (d : Z) :
  fraction_count matches d <= d.
Proof.
  unfold fraction_count.
  destruct (_ || _); [lia |].
  destruct (written_multiplier matches =? 0); [lia |].
  destruct (d <=? written_multiplier matches) eqn:E;
    [lia | apply Z.leb_gt in E; lia].
Qed.

(** The count the generator computes from the directive of a token is the
    count read off the token. *)
Lemma fraction_count_of_token (exclude : bool) (matches : result) (d : Z) :
  3 <= d ->
  edge_of matches = "first" \/ edge_of matches = "last" ->
  let dir := as_fraction (interval_of_match exclude matches) d in
  (if (multiplier dir =? 0) || (denominator dir <=? multiplier dir)
   then denominator dir else multiplier dir)
  = fraction_count matches d
  /\ relative dir = edge_of matches.
Proof.
  intros Hd Hedge dir. split; [| reflexivity].
  unfold dir, as_fraction, interval_of_match, fraction_count.
  fold (keyword_of matches) (edge_of matches) (written_multiplier matches).
  cbn [multiplier denominator].
  assert (He : (edge_of matches =? "")%string = false)
    by (destruct Hedge as [-> | ->]; reflexivity).
  rewrite He, orb_false_r, andb_true_r.
  destruct (keyword_of matches =? "every")%string;
    [rewrite orb_true_r; now replace (d - 1 <? 0) with false
       by (symmetry; apply Z.ltb_ge; lia) |].
  rewrite orb_false_r.
  destruct (keyword_of matches =? "all")%string;
    [now replace (d - 1 <? 0) with false
       by (symmetry; apply Z.ltb_ge; lia) |].
  set (m := written_multiplier matches).
  destruct (d - 1 <? m) eqn:E1;
    [apply Z.ltb_lt in E1 | apply Z.ltb_ge in E1].
  - replace (d - 1 =? 0) with false by (symmetry; apply Z.eqb_neq; lia).
    replace (d <=? d - 1) with false by (symmetry; apply Z.leb_gt; lia).
    replace (m =? 0) with false by (symmetry; apply Z.eqb_neq; lia).
    replace (d <=? m) with true by (symmetry; apply Z.leb_le; lia).
    reflexivity.
  - replace (d <=? m) with false by (symmetry; apply Z.leb_gt; lia).
    rewrite orb_false_r. reflexivity.
Qed.

(** C6, amended: a fraction token with denominator [d] in [[3, 10]],
    relative to the first or the last edge, yields exactly [count]
    announcements.  With [all] or [every] in the token [count] is [d]
    whatever multiplier is written; without them [count] is [d] for a
    written multiplier of 0, [d - 1] for a written multiplier of [d] or
    more (the parser caps it), and the written multiplier otherwise, 1
    when none is written.  For [a = 1..count] the [a]-th announcement is at
    [posMinus(edgeAnchor, (T / d) * a)] as binary64 arithmetic gives it,
    which is [|edgeAnchor - T / d * a|] to within [4 * T / 2^53], unless
    that offset is within the 5000 ms window of [T / 2]: then it is the
    half-way announcement at [T / 2]. *)
Theorem fraction_relative_announcements (fuel : nat) (sfx : suffixes)
    (exclude : bool) (T : Q) (matches : result) (m7 : string) :
  group matches 7 = Some m7 ->
  3 <= parseInt m7 <= 10 ->
  edge_of matches = "first" \/ edge_of matches = "last" ->
  let d := parseInt m7 in
  let count := fraction_count matches d in
  let edgeAnchor :=
    if String.eqb (edge_of matches) "first" then T else 0%Q in
  let suffix :=
    if String.eqb (edge_of matches) "first" then first sfx else last sfx in
  let half_ := Binary64.div T 2 in
  let offset_ (a : Z) :=
    Binary64.posMinus edgeAnchor
      (Binary64.mul (Binary64.div T (inject_Z d)) (inject_Z a)) in
  exists items : list announcement,
    Binary64.round_intervals fuel sfx exclude T matches = Some (true, items)
    /\ List.length items = Z.to_nat count
    /\ (forall a : Z, 1 <= a <= count ->
          nth_error items (Z.to_nat (a - 1))
          = Some (if Binary64.tooClose (offset_ a) half_
                  then mkAnn half_ (half sfx)
                  else mkAnn (offset_ a)
                             (makeFractionMessage sfx a d ++ suffix)))
    /\ (forall a : Z, 1 <= a <= count -> (0 < T)%Q ->
          (Qabs (offset_ a
                 - Qabs (edgeAnchor - T / inject_Z d * inject_Z a))
           <= 4 * T * eps64)%Q).
Proof.
  intros H7 Hd Hedge d count edgeAnchor suffix half_ offset_.
  destruct (fraction_count_of_token exclude matches d ltac:(lia) Hedge)
    as [Hcount Hrel].
  assert (He : (edge_of matches =? "")%string = false)
    by (destruct Hedge as [-> | ->]; reflexivity).
  unfold Binary64.round_intervals. rewrite H7. fold d.
  eexists. split; [reflexivity |].
  unfold Binary64.getFractionOffsetAndMessage, Binary64.fraction_offsets.
  rewrite Hcount, Hrel, He. fold count.
  replace (denominator (as_fraction (interval_of_match exclude matches) d))
    with d by reflexivity.
  replace (d =? 2) with false by (symmetry; apply Z.eqb_neq; lia).
  cbn [negb]. fold edgeAnchor suffix half_.
  repeat apply conj.
  - rewrite !length_map. apply upto_length.
  - intros a Ha. rewrite !nth_error_map, upto_nth by assumption.
    cbn [option_map]. unfold Binary64.collapse_half. cbn [offset].
    reflexivity.
  - intros a Ha HT. unfold offset_, edgeAnchor.
    pose proof (fraction_count_bound matches d). fold count in H.
    apply fraction_offset_error; [assumption | lia |].
    destruct (edge_of matches =? "first")%string; auto.
Qed.

Lemma fraction_relative_announcements_witness :
  exists matches : result,
    exec true notation_regex "7last1/5" 0 = Some matches
    /\ exists items : list announcement,
         Binary64.round_intervals 0 default_suffixes false 100000 matches
         = Some (true, items)
         /\ List.length items = 4%nat.
Proof.
  eexists. split; [vm_compute; reflexivity |].
  match goal with
  | |- exists items, Binary64.round_intervals _ _ _ _ ?m = _ /\ _ =>
      destruct (fraction_relative_announcements 0 default_suffixes false
                  100000 m "5")
        as (items & Hitems & Hlen & _)
  end.
  - reflexivity.
  - vm_compute. split; discriminate.
  - right. reflexivity.
  - exists items. split; [exact Hitems | exact Hlen].
Defined.

(** C6, as stated, fails three times.  The token ["7last1/5"], whose
    multiplier 7 is above the denominator, yields 4 announcements, not 5.
    At [T = 32000] the token ["alllast1/8"] puts its third announcement at
    16000, not at [|0 - (32000 / 8) * 3| = 12000].  And at [T = 60000] the
    token ["alllast1/7"] puts its seventh announcement at
    59999.99999999999, not at [|0 - (60000 / 7) * 7| = 60000]. *)
Lemma fraction_relative_counterexample :
  (exists (matches : result) (items : list announcement),
      exec true notation_regex "7last1/5" 0 = Some matches
      /\ group matches 2 = Some "7"
      /\ group matches 7 = Some "5"
      /\ Binary64.round_intervals 0 default_suffixes false 100000 matches
         = Some (true, items)
      /\ List.length items = 4%nat)
  /\ (exists (matches : result) (items : list announcement),
         exec true notation_regex "alllast1/8" 0 = Some matches
         /\ Binary64.round_intervals 0 default_suffixes false 32000 matches
            = Some (true, items)
         /\ nth_error (List.map offset items) 2 = Some 16000%Q
         /\ ~ (16000 == Qabs (0 - 32000 / inject_Z 8 * inject_Z 3))%Q)
  /\ (exists (matches : result) (items : list announcement),
         exec true notation_regex "alllast1/7" 0 = Some matches
         /\ Binary64.round_intervals 0 default_suffixes false 60000 matches
            = Some (true, items)
         /\ nth_error (List.map offset items) 6
            = Some (8246337208319999 # 137438953472)%Q
         /\ ~ (8246337208319999 # 137438953472
               == Qabs (0 - 60000 / inject_Z 7 * inject_Z 7))%Q).
Proof.
  repeat apply conj.
  - do 2 eexists. split; [vm_compute; reflexivity |].
    repeat split.
  - do 2 eexists. split; [vm_compute; reflexivity |].
    split; [vm_compute; reflexivity |].
    split; [vm_compute; reflexivity | vm_compute; discriminate].
  - do 2 eexists. split; [vm_compute; reflexivity |].
    split; [vm_compute; reflexivity |].
    split; [vm_compute; reflexivity | vm_compute; discriminate].
Qed.

(** ** The groups of a token *)

(** A group that an expression does not contain keeps its value. *)
Lemma steps_lookup (ic : bool) (k : nat) (r : regex) :
  forall st st1,
    steps ic r st st1 -> ~ In k (groups r) ->
    lookup_cap k (caps st1) = lookup_cap k (caps st).
Proof.
  induction r as [s | c | c lo hi | r1 IH1 r2 IH2 | r1 IH1 r2 IH2 | r1 IH1
                 | n r1 IH1 | | | r1 IH1];
    intros st st1 H Hk; cbn [steps groups] in H, Hk.
  - destruct H as (w & _ & _ & _ & ->). reflexivity.
  - destruct H as (a & _ & _ & _ & ->). reflexivity.
  - destruct H as (w & _ & _ & _ & _ & _ & ->). reflexivity.
  - destruct H as (mid & H1 & H2).
    rewrite (IH2 _ _ H2), (IH1 _ _ H1); [reflexivity | |];
      intros Hin; apply Hk, in_or_app; auto.
  - destruct H as [H | H]; [apply (IH1 _ _ H) | apply (IH2 _ _ H)];
      intros Hin; apply Hk, in_or_app; auto.
  - destruct H as [H | ->]; [now apply IH1 | reflexivity].
  - destruct H as (to & H & ->). unfold set_cap. cbn [caps lookup_cap].
    destruct (n =? k)%nat eqn:E.
    + apply Nat.eqb_eq in E. exfalso. apply Hk. now left.
    + apply (IH1 _ _ H). intros Hin. apply Hk. now right.
  - destruct H as (_ & ->). reflexivity.
  - destruct H as (_ & ->). reflexivity.
  - destruct H as (st' & H & ->). cbn [caps]. now apply IH1.
Qed.

(** With the [i] flag a range of digits still takes digits only. *)
Lemma digit_range_ic (a lo hi : ascii) :
  (code hi < 65)%nat ->
  in_cls true a (Range lo hi) = true -> between lo hi a = true.
Proof.
  intros Hhi H. cbn [in_cls andb] in H.
  destruct (between lo hi a) eqn:E; [reflexivity | cbn [orb] in H].
  apply orb_prop in H. exfalso. destruct H as [H | H].
  - unfold upper in H.
    destruct ((97 <=? code a) && (code a <=? 122))%nat eqn:L;
      [| congruence].
    apply andb_prop in L. destruct L as [L1 L2].
    apply Nat.leb_le in L1, L2.
    unfold between in H. apply andb_prop in H. destruct H as [_ H].
    apply Nat.leb_le in H. unfold code in *.
    rewrite nat_ascii_embedding in H by lia. lia.
  - unfold lower in H.
    destruct ((65 <=? code a) && (code a <=? 90))%nat eqn:L;
      [| congruence].
    apply andb_prop in L. destruct L as [L1 L2].
    apply Nat.leb_le in L1, L2.
    unfold between in H. apply andb_prop in H. destruct H as [_ H].
    apply Nat.leb_le in H. unfold code in *.
    rewrite nat_ascii_embedding in H by lia. lia.
Qed.

Lemma same_char_digit (a c : ascii) :
  (code c < 65)%nat -> same_char true a c = true -> a = c.
Proof.
  intros Hc H. unfold same_char, canon in H. apply Ascii.eqb_eq in H.
  assert (Ec : upper c = c).
  { unfold upper.
    destruct ((97 <=? code c) && (code c <=? 122))%nat eqn:L;
      [| reflexivity].
    apply andb_prop in L. destruct L as [L _]. apply Nat.leb_le in L. lia. }
  rewrite Ec in H. unfold upper in H.
  destruct ((97 <=? code a) && (code a <=? 122))%nat eqn:L; [| assumption].
  apply andb_prop in L. destruct L as [L1 L2]. apply Nat.leb_le in L1, L2.
  apply (f_equal code) in H. unfold code in *.
  rewrite nat_ascii_embedding in H by lia. lia.
Qed.

Lemma digits_ic (w : list ascii) :
  List.Forall (fun a => in_cls true a digit = true) w ->
  List.Forall (fun a => in_cls false a (Range "0" "9") = true) w.
Proof.
  apply Forall_impl. intros a H.
  apply digit_range_ic in H; [| vm_compute; lia].
  cbn [in_cls andb]. now rewrite H.
Qed.

(** Group 4 holds a number from 1 up. *)
Lemma quantity_group (st st1 : state) :
  steps true (Group 4 (Cls (Range "1" "9") ++ Star digit)) st st1 ->
  exists q, caps st1 = (4%nat, q) :: caps st /\ 1 <= parseInt q.
Proof.
  intros (to & (mid & (a & Hr & Hin & Hp & Hc)
                & (w & Hr2 & Hf & _ & _ & Hp2 & Hc2)) & ->).
  assert (Hcons : consumes st to (a :: w)).
  { unfold consumes. cbn [app List.length].
    repeat split; [now rewrite Hr, Hr2 | lia | congruence]. }
  rewrite (set_cap_consumes _ _ _ _ Hcons).
  eexists. split; [reflexivity |].
  apply digit_range_ic in Hin; [| vm_compute; lia].
  apply between_digit in Hin.
  change (digit_value "1") with 1 in Hin.
  unfold parseInt. cbn [string_of_list_ascii parseInt_from].
  pose proof (all_digits_nonneg w (digits_ic w Hf)
                (10 * 0 + digit_value a) ltac:(lia)).
  lia.
Qed.

(** Group 7 holds a number from 2 to 10. *)
Lemma denominator_group (st st1 : state) :
  steps true (Group 7 (Cls (Range "2" "9") || Str "10")) st st1 ->
  exists m7, caps st1 = (7%nat, m7) :: caps st /\ 2 <= parseInt m7 <= 10.
Proof.
  intros (to & [(a & Hr & Hin & Hp & Hc) | (w & Hr & Hf & Hp & Hc)] & ->).
  - assert (Hcons : consumes st to [a]).
    { unfold consumes. cbn [app List.length].
      repeat split; [assumption | lia | assumption]. }
    rewrite (set_cap_consumes _ _ _ _ Hcons).
    eexists. split; [reflexivity |].
    apply digit_range_ic in Hin; [| vm_compute; lia].
    apply between_digit in Hin.
    change (digit_value "2") with 2 in Hin.
    change (digit_value "9") with 9 in Hin.
    unfold parseInt. cbn [string_of_list_ascii parseInt_from]. lia.
  - assert (Hcons : consumes st to w) by (unfold consumes; auto).
    rewrite (set_cap_consumes _ _ _ _ Hcons).
    eexists. split; [reflexivity |].
    cbn [list_ascii_of_string] in Hf.
    inversion Hf as [| a c l l' Ha Hl]; subst.
    inversion Hl as [| b c l0 l0' Hb Hl0]; subst.
    inversion Hl0; subst.
    apply same_char_digit in Ha; [| vm_compute; lia].
    apply same_char_digit in Hb; [| vm_compute; lia].
    subst a b. vm_compute. split; discriminate.
Qed.

(** What the grammar leaves in the groups of a token that matches: a
    denominator from 2 to 10 in group 7, or no group 7 and a quantity from
    1 up in group 4. *)
Lemma token_groups (t : list ascii) (st : state) :
  match_token t = Some st ->
  (exists m7, lookup_cap 7 (caps st) = Some m7 /\ 2 <= parseInt m7 <= 10)
  \/ (lookup_cap 7 (caps st) = None
      /\ exists q, lookup_cap 4 (caps st) = Some q /\ 1 <= parseInt q).
Proof.
  unfold match_token. intros H.
  apply rmatch_steps in H as (st1 & Hst & [= ->]).
  destruct Hst as (g & Hg & (_ & ->)).
  destruct Hg as (m1 & H1 & m2 & H2 & m3 & H3 & m4 & H4 & m5 & H5
                  & m6 & H6 & [HL | HR]).
  - right. destruct HL as (a4 & Hq & Hrest).
    apply quantity_group in Hq as (q & Hq & Hq1).
    split.
    + rewrite (steps_lookup _ 7 _ _ _ Hrest), Hq
        by (cbn; intuition discriminate).
      cbn [lookup_cap Nat.eqb].
      rewrite (steps_lookup _ 7 _ _ _ H6), (steps_lookup _ 7 _ _ _ H5),
        (steps_lookup _ 7 _ _ _ H4), (steps_lookup _ 7 _ _ _ H3),
        (steps_lookup _ 7 _ _ _ H2), (steps_lookup _ 7 _ _ _ H1)
        by (cbn; intuition discriminate).
      reflexivity.
    + exists q. split; [| assumption].
      rewrite (steps_lookup _ 4 _ _ _ Hrest), Hq
        by (cbn; intuition discriminate).
      reflexivity.
  - left. destruct HR as (b1 & _ & b2 & _ & b3 & _ & H7).
    apply denominator_group in H7 as (m7 & H7 & Hd).
    exists m7. rewrite H7. split; [reflexivity | assumption].
Qed.

Lemma matching_in (ts : list (list ascii)) (m : result) :
  In m (matching ts) ->
  exists t st, match_token t = Some st /\ captures m = caps st.
Proof.
  induction ts as [| t ts IH]; cbn [matching]; [intros [] |].
  unfold token_result.
  destruct (match_token t) as [st |] eqn:E; cbn [option_map];
    [| exact IH].
  intros [<- | Hin]; [| now apply IH].
  exists t, st. split; [assumption | reflexivity].
Qed.

(** The groups of the tokens of a notation that match. *)
Lemma matching_groups (s : string) (m : result) :
  In m (matching (tokens s)) ->
  (exists m7, group m 7 = Some m7 /\ 2 <= parseInt m7 <= 10)
  \/ (group m 7 = None
      /\ exists q, group m 4 = Some q /\ 1 <= parseInt q).
Proof.
  intros Hin. apply matching_in in Hin as (t & st & Hm & Hc).
  unfold group. rewrite Hc. now apply token_groups in Hm.
Qed.

(** ** The loops of the generators *)

(** The countdown [for (let a = count; a > 0; a -= 1)] ends: below 2^52 a
    subtraction of 1 takes at least one half away. *)
Lemma for_down64_ends (body : Q -> announcement) :
  forall (n : nat) (a : Q),
    (a <= 4503599627370496)%Q ->
    (2 * a < inject_Z (Z.of_nat n))%Q ->
    exists r : list announcement,
      (List.length r <= n)%nat
      /\ forall fuel : nat,
           (n < fuel)%nat -> Binary64.for_down fuel a body = Some r.
Proof.
  induction n as [| n IH]; intros a Ha Hn.
  - exists []. split; [cbn; lia |]. intros [| fuel] Hf; [lia |].
    cbn [Binary64.for_down].
    replace (Qltb 0 a) with false; [reflexivity |].
    symmetry. apply Qltb_ge.
    change (inject_Z (Z.of_nat 0)) with 0%Q in Hn. lra.
  - rewrite Nat2Z.inj_succ in Hn. unfold Z.succ in Hn.
    rewrite inject_Z_plus in Hn. change (inject_Z 1) with 1%Q in Hn.
    destruct (Qltb 0 a) eqn:E.
    + pose proof (proj1 (Qltb_lt 0 a) E) as Hpos.
      assert (Hnext : (Binary64.sub a 1 <= a - (1 # 2))%Q).
      { unfold Binary64.sub.
        pose proof (fl_bounds (a - 1)) as [_ Hu].
        assert (Habs : (Qabs (a - 1) <= 4503599627370496)%Q)
          by (apply Qabs_Qle_condition; split; lra).
        unfold eps64 in Hu. lra. }
      destruct (IH (Binary64.sub a 1)) as (r & Hlen & Hr); [lra | lra |].
      exists (body a :: r). split; [cbn [List.length]; lia |].
      intros [| fuel] Hf; [lia |].
      cbn [Binary64.for_down]. rewrite E, Hr by lia. reflexivity.
    + exists []. split; [cbn; lia |]. intros [| fuel] Hf; [lia |].
      cbn [Binary64.for_down]. now rewrite E.
Qed.

(** The loop [for (let offset = start; offset <= bound; offset += step)]
    ends: with a bound of at most 2^33 an addition of 2 or more takes the
    offset up by at least 1. *)
Lemma for_up64_ends (step bound : Q) (body : Q -> list announcement)
    (c : nat) :
  (2 <= step)%Q -> (bound <= 8589934592)%Q ->
  (forall x : Q, (List.length (body x) <= c)%nat) ->
  forall (n : nat) (offset : Q),
    (0 <= offset)%Q ->
    (bound - offset < inject_Z (Z.of_nat n))%Q ->
    exists r : list announcement,
      (List.length r <= n * c)%nat
      /\ forall fuel : nat,
           (n < fuel)%nat ->
           Binary64.for_up fuel offset step bound body = Some r.
Proof.
  intros Hstep Hbound Hbody.
  induction n as [| n IH]; intros offset H0 Hn.
  - exists []. split; [cbn; lia |]. intros [| fuel] Hf; [lia |].
    cbn [Binary64.for_up].
    replace (Qle_bool offset bound) with false; [reflexivity |].
    symmetry. apply Qle_bool_gt.
    change (inject_Z (Z.of_nat 0)) with 0%Q in Hn. lra.
  - rewrite Nat2Z.inj_succ in Hn. unfold Z.succ in Hn.
    rewrite inject_Z_plus in Hn. change (inject_Z 1) with 1%Q in Hn.
    destruct (Qle_bool offset bound) eqn:E.
    + pose proof (proj1 (Qle_bool_iff offset bound) E) as Hle.
      assert (Hnext : (offset + 1 <= Binary64.add offset step)%Q).
      { unfold Binary64.add.
        pose proof (fl_bounds_pos (offset + step) ltac:(lra)) as [Hl _].
        unfold eps64 in Hl. lra. }
      destruct (IH (Binary64.add offset step)) as (r & Hlen & Hr);
        [lra | lra |].
      exists (body offset ++ r)%list. split.
      * rewrite length_app. specialize (Hbody offset).
        cbn [Nat.mul]. lia.
      * intros [| fuel] Hf; [lia |].
        cbn [Binary64.for_up]. rewrite E, Hr by lia. reflexivity.
    + exists []. split; [cbn; lia |]. intros [| fuel] Hf; [lia |].
      cbn [Binary64.for_up]. now rewrite E.
Qed.

(** The time generator returns when the duration and the quantity are at
    most [B]: no loop takes more than [2 * B + 1] rounds, and at most
    [2 * B + 2] announcements are pushed. *)
Lemma getTimeOffsetAndMessage64_ends (sfx : suffixes) (dir : intervalObj)
    (T : Q) (B : Z) :
  0 <= B <= 4294967296 ->
  (0 <= T <= inject_Z B)%Q ->
  1 <= time dir <= B ->
  exists r : list announcement,
    Z.of_nat (List.length r) <= 2 * B + 2
    /\ forall fuel : nat,
         (Z.to_nat (2 * B + 1) < fuel)%nat ->
         Binary64.getTimeOffsetAndMessage fuel sfx dir T = Some r.
Proof.
  intros HB HT Htime.
  assert (Hz1 : (1 <= inject_Z (time dir))%Q)
    by (change 1%Q with (inject_Z 1); rewrite <- Zle_Qle; lia).
  assert (Hz2 : (inject_Z (time dir) <= inject_Z B)%Q)
    by (rewrite <- Zle_Qle; lia).
  assert (HB2 : (inject_Z B <= 4294967296)%Q)
    by (change 4294967296%Q with (inject_Z 4294967296);
        rewrite <- Zle_Qle; lia).
  assert (HN : inject_Z (Z.of_nat (Z.to_nat (2 * B + 1)))
               = (2 * inject_Z B + 1)%Q).
  { rewrite Z2Nat.id by lia.
    now rewrite inject_Z_plus, inject_Z_mult. }
  pose proof (fl_bounds_pos (inject_Z (time dir)) ltac:(lra)) as Ht.
  fold (Binary64.of_Z (time dir)) in Ht.
  unfold Binary64.getTimeOffsetAndMessage.
  set (time_ := Binary64.of_Z (time dir)) in *.
  unfold eps64 in Ht.
  assert (Hh : (0 <= T / 2 <= T)%Q).
  { assert (E : (T / 2 == T * (1 # 2))%Q) by field. rewrite E. lra. }
  pose proof (fl_bounds_pos (T / 2) ltac:(lra)) as Hhalf.
  fold (Binary64.div T 2) in Hhalf. unfold eps64 in Hhalf.
  destruct ((all dir || every dir) || (1 <? multiplier dir)) eqn:C1.
  - destruct ((all dir || every dir) && (multiplier dir <=? 1)) eqn:C2.
    + destruct (relative dir =? "")%string eqn:C3.
      * (* both edges *)
        pose proof (fl_bounds_pos (time_ * 1000) ltac:(lra)) as Hi.
        fold (Binary64.mul time_ 1000) in Hi. unfold eps64 in Hi.
        set (interval := Binary64.mul time_ 1000) in *.
        match goal with
        | |- context [Binary64.for_up _ interval interval _ ?body] =>
            destruct (for_up64_ends interval (Binary64.div T 2) body 2
                        ltac:(lra) ltac:(lra)
                        ltac:(intros; cbn [List.length]; lia)
                        (Z.to_nat B) interval ltac:(lra))
              as (r & Hlen & Hr)
        end.
        { rewrite Z2Nat.id by lia. lra. }
        exists r. split; [lia |].
        intros fuel Hf. apply Hr. lia.
      * (* one edge *)
        destruct (every dir) eqn:Ev; cbv iota beta.
        -- set (unit_ := if (unit dir =? "m")%string then 60000%Q
                         else if (unit dir =? "h")%string then 3600000%Q
                              else 1000%Q).
           assert (Hu : (999 <= unit_ * time_)%Q
                        /\ (0 <= unit_ * time_)%Q).
           { unfold unit_.
             destruct (unit dir =? "m")%string;
               [| destruct (unit dir =? "h")%string]; split; lra. }
           destruct Hu as [Hu Hu0].
           pose proof (fl_bounds_pos (unit_ * time_) Hu0) as Hi.
           fold (Binary64.mul unit_ time_) in Hi. unfold eps64 in Hi.
           set (interval := Binary64.mul unit_ time_) in *.
           assert (Hc : (0 <= T / interval <= T)%Q).
           { split.
             - apply Qle_shift_div_l; lra.
             - apply Qle_shift_div_r; [lra | nra]. }
           pose proof (fl_bounds_pos (T / interval) ltac:(lra)) as Hcount.
           fold (Binary64.div T interval) in Hcount.
           unfold eps64 in Hcount.
           match goal with
           | |- context [Binary64.for_down _ _ ?body] =>
               destruct (for_down64_ends body (Z.to_nat (2 * B + 1))
                           (Binary64.div T interval))
                 as (r & Hlen & Hr)
           end.
           { lra. }
           { rewrite HN. lra. }
           exists r. split; [lia |]. exact Hr.
        -- match goal with
           | |- context [Binary64.for_down _ _ ?body] =>
               destruct (for_down64_ends body (Z.to_nat (2 * B + 1)) time_)
                 as (r & Hlen & Hr)
           end.
           { lra. }
           { rewrite HN. lra. }
           exists r. split; [lia |]. exact Hr.
    + destruct (1 <? multiplier dir) eqn:C4.
      * (* the loop starts above its bound *)
        set (unit_ := if (unit dir =? "s")%string then 10000%Q
                      else if (unit dir =? "m")%string then 60000%Q
                           else 3600000%Q).
        assert (Hu : (10000 * time_ <= time_ * unit_)%Q).
        { unfold unit_.
          destruct (unit dir =? "s")%string;
            [| destruct (unit dir =? "m")%string]; lra. }
        pose proof (fl_bounds_pos (time_ * unit_) ltac:(lra)) as Hi.
        fold (Binary64.mul time_ unit_) in Hi. unfold eps64 in Hi.
        set (interval := Binary64.mul time_ unit_) in *.
        match goal with
        | |- context [Binary64.for_up _ interval interval _ ?body] =>
            destruct (for_up64_ends interval time_ body 1
                        ltac:(lra) ltac:(lra)
                        ltac:(intros; cbn [List.length]; lia)
                        O interval ltac:(lra))
              as (r & Hlen & Hr)
        end.
        { change (inject_Z (Z.of_nat 0)) with 0%Q. lra. }
        exists r. split; [lia |].
        intros fuel Hf. apply Hr. lia.
      * exists []. split; [cbn [List.length]; lia | reflexivity].
  - eexists. split; [| reflexivity]. cbn [List.length]. lia.
Qed.

Lemma flat_map_pairs_length (A B : Type) (f : A -> list B) (l : list A) :
  (forall a, List.length (f a) = 2%nat) ->
  List.length (List.flat_map f l) = (2 * List.length l)%nat.
Proof.
  intros Hf. induction l as [| a l IH]; [reflexivity |].
  cbn [List.flat_map]. rewrite length_app, IH, Hf.
  cbn [List.length]. lia.
Qed.

(** A fraction directive gives at most ten announcements. *)
Lemma fraction_length (sfx : suffixes) (dir : intervalObj) (T : Q) :
  2 <= denominator dir <= 10 ->
  (List.length (Binary64.getFractionOffsetAndMessage sfx dir T) <= 10)%nat.
Proof.
  intros Hd. unfold Binary64.getFractionOffsetAndMessage.
  destruct (denominator dir =? 2); [cbn [List.length]; lia |].
  rewrite length_map. unfold Binary64.fraction_offsets.
  set (count := if (multiplier dir =? 0)
                   || (denominator dir <=? multiplier dir)
                then denominator dir else multiplier dir).
  assert (Hcount : count <= 10).
  { unfold count.
    destruct ((multiplier dir =? 0) || (denominator dir <=? multiplier dir))
      eqn:E; [lia |].
    apply orb_false_iff in E as [_ E]. apply Z.leb_gt in E. lia. }
  destruct (negb (relative dir =? "")%string).
  - rewrite length_map, upto_length. lia.
  - rewrite flat_map_pairs_length by reflexivity.
    rewrite upto_length.
    assert (count / 2 <= 5) by (apply Z.div_le_upper_bound; lia).
    lia.
Qed.

(** What the bound [B] asks of a match: a denominator from 2 to 10, or a
    quantity from 1 to [B]. *)
Lemma round_intervals_ends (sfx : suffixes) (exclude : bool) (T : Q)
    (B : Z) (m : result) :
  0 <= B <= 4294967296 ->
  (0 <= T <= inject_Z B)%Q ->
  (exists m7, group m 7 = Some m7 /\ 2 <= parseInt m7 <= 10)
  \/ (group m 7 = None
      /\ exists q, group m 4 = Some q /\ 1 <= parseInt q <= B) ->
  exists (fraction : bool) (tmpIntervals : list announcement),
    Z.of_nat (List.length tmpIntervals) <= 2 * B + 10
    /\ forall fuel : nat,
         (Z.to_nat (2 * B + 1) < fuel)%nat ->
         Binary64.round_intervals fuel sfx exclude T m
         = Some (fraction, tmpIntervals).
Proof.
  intros HB HT [(m7 & H7 & Hd) | (H7 & q & H4 & Hq)];
    unfold Binary64.round_intervals; rewrite H7.
  - do 2 eexists. split; [| reflexivity].
    pose proof (fraction_length sfx
                  (as_fraction (interval_of_match exclude m) (parseInt m7))
                  T Hd).
    lia.
  - rewrite H4.
    destruct (getTimeOffsetAndMessage64_ends sfx
                (as_time (interval_of_match exclude m)
                   match group m 5 with
                   | Some m5 => toLocaleLowerCase m5
                   | None => "s"
                   end (parseInt q)) T B HB HT Hq) as (r & Hlen & Hr).
    exists false, r. split; [lia |].
    intros fuel Hf. now rewrite (Hr fuel Hf).
Qed.

(** The loop over the tokens: with more than [2 * B + 1] rounds for each
    inner loop every round returns, and the arrays grow by at most
    [2 * B + 10] announcements a token. *)
Lemma parse_rounds_end (sfx : suffixes) (priority : string) (exclude : bool)
    (T : Q) (B : Z) :
  0 <= B <= 4294967296 ->
  (0 <= T <= inject_Z B)%Q ->
  forall ms : list result,
    (forall m, In m ms ->
       (exists m7, group m 7 = Some m7 /\ 2 <= parseInt m7 <= 10)
       \/ (group m 7 = None
           /\ exists q, group m 4 = Some q /\ 1 <= parseInt q <= B)) ->
    forall acc : arrays,
    exists acc' : arrays,
      items acc' <= items acc + Z.of_nat (List.length ms) * (2 * B + 10)
      /\ forall fuel : nat,
           (Z.to_nat (2 * B + 1) < fuel)%nat ->
           List.fold_left (Binary64.parse_round fuel sfx priority exclude T)
             ms (Some acc)
           = Some acc'.
Proof.
  intros HB HT. induction ms as [| m ms IH]; intros Hms acc.
  - exists acc. split; [cbn [List.length]; lia | reflexivity].
  - destruct (round_intervals_ends sfx exclude T B m HB HT
                (Hms m (or_introl eq_refl)))
      as (fraction & tmp & Hlen & Hround).
    set (acc1 :=
           if String.eqb priority "order"
           then mkArrays (timeIntervals acc) (fractionIntervals acc)
                         (orderIntervals acc ++ tmp)
           else if fraction
                then mkArrays (timeIntervals acc)
                              (fractionIntervals acc ++ tmp)
                              (orderIntervals acc)
                else mkArrays (timeIntervals acc ++ tmp)
                              (fractionIntervals acc)
                              (orderIntervals acc)).
    assert (Hitems : items acc1 = items acc + Z.of_nat (List.length tmp)).
    { unfold acc1, items.
      destruct (String.eqb priority "order"); [| destruct fraction];
        cbn [timeIntervals fractionIntervals orderIntervals];
        rewrite length_app; lia. }
    destruct (IH (fun m' Hin => Hms m' (or_intror Hin)) acc1)
      as (acc' & Hbound & Hfold).
    exists acc'. split.
    + cbn [List.length]. rewrite Nat2Z.inj_succ. nia.
    + intros fuel Hf. cbn [List.fold_left].
      unfold Binary64.parse_round at 2. rewrite (Hround fuel Hf).
      fold acc1. now apply Hfold.
Qed.

(** *** The parser, token by token *)

Lemma round_intervals64_ext (fuel : nat) (sfx : suffixes) (exclude : bool)
    (T : Q) (m m' : result) :
  captures m = captures m' ->
  Binary64.round_intervals fuel sfx exclude T m
  = Binary64.round_intervals fuel sfx exclude T m'.
Proof.
  intros E. unfold Binary64.round_intervals, interval_of_match, group.
  rewrite E. destruct (lookup_cap 7 (captures m')); reflexivity.
Qed.

Lemma parse_rounds64_ext (fuel : nat) (sfx : suffixes) (priority : string)
    (exclude : bool) (T : Q) (ms ms' : list result) :
  List.map captures ms = List.map captures ms' ->
  forall acc,
    List.fold_left (Binary64.parse_round fuel sfx priority exclude T) ms acc
    = List.fold_left (Binary64.parse_round fuel sfx priority exclude T)
        ms' acc.
Proof.
  revert ms'. induction ms as [| m ms IH]; intros [| m' ms'] E acc;
    try discriminate E; [reflexivity |].
  injection E as Em Ems. cbn [List.fold_left].
  replace (Binary64.parse_round fuel sfx priority exclude T acc m)
    with (Binary64.parse_round fuel sfx priority exclude T acc m').
  - now apply IH.
  - unfold Binary64.parse_round.
    now rewrite (round_intervals64_ext fuel sfx exclude T m m' Em).
Qed.

(** What the parser returns is what the tokens that match expand to. *)
Lemma parseRawIntervals64_tokens (fuel : nat) (sfx : suffixes)
    (priority : string) (s : string) (T : Q) (omit : option bool) :
  Binary64.parseRawIntervals fuel sfx priority (JString s) T omit
  = option_map (Binary64.build priority T)
      (expand64 fuel sfx priority s T omit).
Proof.
  unfold Binary64.parseRawIntervals, expand64.
  destruct (s =? "")%string eqn:E.
  - apply String.eqb_eq in E. subst s.
    cbn [tokens list_ascii_of_string tokens_acc matching List.fold_left
         option_map].
    unfold Binary64.build.
    cbn [orderIntervals timeIntervals fractionIntervals app].
    destruct (priority =? "order")%string;
      [| destruct (priority =? "time")%string]; reflexivity.
  - destruct (exec_loop_enough s (enough_fuel (JString s)))
      as (ms & -> & Hms); [cbn [enough_fuel]; lia |].
    f_equal. now apply parse_rounds64_ext.
Qed.

(** A countdown from a number that a subtraction of 1 does not move never
    ends. *)
Lemma for_down_stalls (body : Q -> announcement) (a : Q) :
  Qltb 0 a = true -> Binary64.sub a 1 = a ->
  forall fuel : nat, Binary64.for_down fuel a body = None.
Proof.
  intros Hpos Hsame. induction fuel as [| fuel IH]; [reflexivity |].
  cbn [Binary64.for_down]. now rewrite Hpos, Hsame, IH.
Qed.

(** An "all ... first or last" directive whose quantity a subtraction of 1
    does not move never comes back from its countdown. *)
Lemma getTimeOffsetAndMessage_stalls (sfx : suffixes) (dir : intervalObj)
    (T : Q) :
  all dir = true -> every dir = false ->
  (multiplier dir <=? 1) = true ->
  (relative dir =? "")%string = false ->
  Qltb 0 (Binary64.of_Z (time dir)) = true ->
  Binary64.sub (Binary64.of_Z (time dir)) 1 = Binary64.of_Z (time dir) ->
  forall fuel : nat, Binary64.getTimeOffsetAndMessage fuel sfx dir T = None.
Proof.
  intros Hall Hevery Hm Hrel Hpos Hsame fuel.
  unfold Binary64.getTimeOffsetAndMessage.
  rewrite Hall, Hevery, Hm, Hrel. cbn [orb andb]. cbv iota beta.
  now apply for_down_stalls.
Qed.

(** C8, amended: the parser raises no error and returns a list, the empty
    one for the empty string and for every value that is not a string,
    provided that each loop of its generators ends and no array outgrows
    the 2^32 - 1 items it can hold.  That is so when the duration in ms
    and every quantity in the notation are at most a bound [B] with
    [2 * B + 10] times the number of tokens that match at most 2^32 - 1:
    no loop then takes more than [2 * B + 1] rounds, and the arrays take at
    most [2 * B + 10] announcements for each token that matches.  With or
    without the bound, what the parser does is decided token by token: it
    returns what the tokens that match the grammar expand to, in order, so
    that a token that does not match is skipped and the tokens around it
    are parsed as if it were not there; the groups of those tokens are
    the groups of the matches that the loop of the source sees. *)
Theorem parser_tolerant (sfx : suffixes) (priority : string) (T : Q)
    (omit : option bool) :
  (forall (s : string) (B : Z),
      0 <= B <= 4294967296 ->
      (0 <= T <= inject_Z B)%Q ->
      (forall m q, In m (matching (tokens s)) ->
                   group m 4 = Some q -> parseInt q <= B) ->
      Z.of_nat (List.length (matching (tokens s))) * (2 * B + 10)
      <= 4294967295 ->
      exists acc : arrays,
        items acc
        <= Z.of_nat (List.length (matching (tokens s))) * (2 * B + 10)
        /\ forall fuel : nat,
             (Z.to_nat (2 * B + 1) < fuel)%nat ->
             expand64 fuel sfx priority s T omit = Some acc
             /\ Binary64.parseRawIntervals fuel sfx priority (JString s) T
                  omit
                = Some (Binary64.build priority T acc))
  /\ (forall (fuel : nat) (s : string),
        Binary64.parseRawIntervals fuel sfx priority (JString s) T omit
        = option_map (Binary64.build priority T)
            (expand64 fuel sfx priority s T omit))
  /\ (forall s : string,
        exists ms : list result,
          exec_loop (enough_fuel (JString s)) s 0 = Some ms
          /\ List.map captures ms
             = List.map captures (matching (tokens s)))
  /\ (forall (fuel : nat) (sp : ascii) (s1 t s2 : string),
        is_space sp = true ->
        Forall nonspace (list_ascii_of_string t) ->
        match_token (list_ascii_of_string t) = None ->
        Binary64.parseRawIntervals fuel sfx priority
          (JString (s1 ++ String sp (t ++ String sp s2))) T omit
        = Binary64.parseRawIntervals fuel sfx priority
            (JString (s1 ++ String sp s2)) T omit)
  /\ (forall fuel : nat,
        Binary64.parseRawIntervals fuel sfx priority (JString "") T omit
        = Some [])
  /\ (forall (fuel : nat) (v : jsval),
        (forall s, v <> JString s) ->
        Binary64.parseRawIntervals fuel sfx priority v T omit = Some []).
Proof.
  repeat apply conj.
  - intros s B HB HT Hq _.
    destruct (parse_rounds_end sfx priority
                match omit with Some b => b | None => false end
                T B HB HT (matching (tokens s)))
      with (acc := mkArrays [] [] []) as (acc & Hitems & Hfold).
    { intros m Hin.
      destruct (matching_groups s m Hin) as [H7 | (H7 & q & H4 & Hq1)];
        [now left | right].
      split; [assumption |]. exists q. split; [assumption |].
      specialize (Hq m q Hin H4). lia. }
    exists acc. split; [exact Hitems |].
    intros fuel Hf. rewrite parseRawIntervals64_tokens.
    unfold expand64. rewrite (Hfold fuel Hf). split; reflexivity.
  - intros fuel s. apply parseRawIntervals64_tokens.
  - intros s. apply exec_loop_enough. cbn [enough_fuel]. lia.
  - intros fuel sp s1 t s2 Hsp Ht Hm. rewrite !parseRawIntervals64_tokens.
    unfold expand64. now rewrite (matching_skips sp s1 t s2 Hsp Ht Hm).
  - reflexivity.
  - intros fuel [s | q | b | |] Hv; try reflexivity. now destruct (Hv s).
Qed.

Lemma parser_tolerant_witness :
  (exists acc : arrays,
      forall fuel : nat,
        (Z.to_nat (2 * 60000 + 1) < fuel)%nat ->
        Binary64.parseRawIntervals fuel default_suffixes "fraction"
          (JString "last20 bogus 1/2") 60000 None
        = Some (Binary64.build "fraction" 60000 acc))
  /\ forall fuel : nat,
       Binary64.parseRawIntervals fuel default_suffixes "fraction"
         (JString ("last20" ++ String " " ("bogus" ++ String " " "1/2")))
         60000 None
       = Binary64.parseRawIntervals fuel default_suffixes "fraction"
           (JString ("last20" ++ String " " "1/2")) 60000 None.
Proof.
  destruct (parser_tolerant default_suffixes "fraction" 60000 None)
    as (Hret & _ & _ & Hskip & _).
  split.
  - destruct (Hret "last20 bogus 1/2" 60000) as (acc & _ & Hacc).
    + lia.
    + split; discriminate.
    + intros m q Hin H4. vm_compute in Hin.
      destruct Hin as [<- | [<- | []]]; vm_compute in H4;
        [| discriminate H4].
      injection H4 as <-. vm_compute. discriminate.
    + vm_compute. discriminate.
    + exists acc. intros fuel Hf. now apply Hacc.
  - intros fuel. apply Hskip.
    + reflexivity.
    + repeat constructor.
    + reflexivity.
Defined.

(** C8, as stated, fails.  On ["alllast100000000000000000000"] the
    countdown of the source starts from 10^20, a number from which
    [a -= 1] takes nothing: with any number of rounds the loop has not
    ended, and the parser returns no list. *)
Lemma parser_counterexample :
  Binary64.sub (Binary64.of_Z (parseInt "100000000000000000000")) 1
  = Binary64.of_Z (parseInt "100000000000000000000")
  /\ forall fuel : nat,
       Binary64.parseRawIntervals fuel default_suffixes "fraction"
         (JString "alllast100000000000000000000") 60000 None
       = None.
Proof.
  split; [vm_compute; reflexivity |].
  intros fuel. rewrite parseRawIntervals64_tokens. unfold expand64.
  replace (matching (tokens "alllast100000000000000000000"))
    with [ mkResult 0 28 "alllast100000000000000000000"
             [ (5%nat, ""); (4%nat, "100000000000000000000");
               (3%nat, "last"); (1%nat, "all") ] ]
    by (vm_compute; reflexivity).
  cbn [List.fold_left]. unfold Binary64.parse_round.
  unfold Binary64.round_intervals.
  cbn [group captures lookup_cap Nat.eqb].
  rewrite getTimeOffsetAndMessage_stalls; try reflexivity.
Qed.

(** ** Numbers that arithmetic does not round *)

Lemma pow2_le (a b : Z) :
  a <= b -> (Binary64.pow2 a <= Binary64.pow2 b)%Q.
Proof.
  intros Hab. replace b with (a + (b - a)) by lia.
  unfold Binary64.pow2 at 2. rewrite Qpower_plus by discriminate.
  fold (Binary64.pow2 a) (Binary64.pow2 (b - a)).
  pose proof (pow2_pos a) as Ha.
  assert (H1 : (1 <= Binary64.pow2 (b - a))%Q).
  { rewrite pow2_nat by lia. change 1%Q with (inject_Z 1).
    rewrite <- Zle_Qle.
    pose proof (Z.pow_pos_nonneg 2 (b - a) ltac:(lia) ltac:(lia)). lia. }
  nra.
Qed.

Lemma round_half_even_Z (x : Q) (n : Z) :
  (x == inject_Z n)%Q -> Binary64.round_half_even x = n.
Proof.
  intros E. unfold Binary64.round_half_even.
  assert (Hf : Qfloor x = n) by (rewrite E; apply Qfloor_Z).
  rewrite Hf.
  assert (Hlt : (x - inject_Z n < 1 # 2)%Q) by (rewrite E; lra).
  destruct (x - inject_Z n ?= 1 # 2)%Q eqn:C; [| reflexivity |].
  - apply Qeq_alt in C. lra.
  - apply Qgt_alt in C. lra.
Qed.

(** A number with a significand of 53 bits is its own rounding. *)
Lemma fl_exact (q : Q) (n k : Z) :
  (q == inject_Z n * Binary64.pow2 k)%Q ->
  Z.abs n < 9007199254740992 ->
  (Binary64.fl q == q)%Q.
Proof.
  intros Eq Hn. unfold Binary64.fl.
  destruct (Qeq_bool q 0) eqn:E0.
  - apply Qeq_bool_iff in E0. now rewrite E0.
  - assert (Hq : ~ (q == 0)%Q) by (now apply Qeq_bool_neq).
    rewrite Qred_correct.
    pose proof (ilog2_lower q Hq) as Hl.
    pose proof (pow2_pos k) as Hk.
    assert (Habs : (Qabs q < Binary64.pow2 (53 + k))%Q).
    { rewrite Eq, Qabs_Qmult, (Qabs_pos (Binary64.pow2 k)) by lra.
      unfold Binary64.pow2 at 2. rewrite Qpower_plus by discriminate.
      fold (Binary64.pow2 53) (Binary64.pow2 k).
      rewrite (pow2_nat 53) by lia.
      change (inject_Z (2 ^ 53)) with 9007199254740992%Q.
      assert (Hn' : (Qabs (inject_Z n) < 9007199254740992)%Q).
      { change (Qabs (inject_Z n)) with (inject_Z (Z.abs n)).
        change 9007199254740992%Q with (inject_Z 9007199254740992).
        now rewrite <- Zlt_Qlt. }
      nra. }
    assert (He : Binary64.ilog2 q - 52 <= k).
    { destruct (Z_le_gt_dec (Binary64.ilog2 q) (52 + k)) as [H | H];
        [lia | exfalso].
      pose proof (pow2_le (53 + k) (Binary64.ilog2 q) ltac:(lia)). lra. }
    set (e := Binary64.ilog2 q - 52) in *.
    pose proof (pow2_pos e) as Hpe.
    assert (Ek : (Binary64.pow2 k
                  == inject_Z (2 ^ (k - e)) * Binary64.pow2 e)%Q).
    { rewrite <- pow2_nat by lia. unfold Binary64.pow2.
      rewrite <- Qpower_plus by discriminate.
      now replace (k - e + e) with k by lia. }
    assert (Ex : (q / Binary64.pow2 e == inject_Z (n * 2 ^ (k - e)))%Q).
    { rewrite Eq, Ek, inject_Z_mult. field. lra. }
    rewrite (round_half_even_Z _ _ Ex), inject_Z_mult, Eq, Ek. ring.
Qed.

(** The results of the arithmetic are in lowest terms, so that one that
    is an integer is that integer as a term. *)
Lemma fl_eq_Z (q : Q) (z : Z) :
  (Binary64.fl q == inject_Z z)%Q -> Binary64.fl q = inject_Z z.
Proof.
  unfold Binary64.fl. destruct (Qeq_bool q 0).
  - intros E. assert (z = 0); [| now subst].
    unfold Qeq, inject_Z in E. cbn in E. lia.
  - intros E. rewrite Qred_correct in E.
    rewrite <- (Qcanon.Qred_identity (inject_Z z)) by apply Z.gcd_1_r.
    now apply Qred_complete.
Qed.

Lemma fl_Z (q : Q) (z : Z) :
  (q == inject_Z z)%Q -> Z.abs z < 9007199254740992 ->
  Binary64.fl q = inject_Z z.
Proof.
  intros E Hz. apply fl_eq_Z. rewrite <- E.
  apply (fl_exact q z 0); [| assumption].
  rewrite E. unfold Binary64.pow2. cbn [Qpower]. ring.
Qed.

Lemma of_Z_exact (z : Z) :
  Z.abs z < 9007199254740992 -> Binary64.of_Z z = inject_Z z.
Proof. intros Hz. now apply fl_Z. Qed.

Lemma sub_Z (a b : Z) :
  Z.abs (a - b) < 9007199254740992 ->
  Binary64.sub (inject_Z a) (inject_Z b) = inject_Z (a - b).
Proof.
  intros H. apply fl_Z; [| assumption].
  unfold Z.sub. rewrite inject_Z_plus, inject_Z_opp. ring.
Qed.

Lemma add_Z (a b : Z) :
  Z.abs (a + b) < 9007199254740992 ->
  Binary64.add (inject_Z a) (inject_Z b) = inject_Z (a + b).
Proof.
  intros H. apply fl_Z; [| assumption]. now rewrite inject_Z_plus.
Qed.

Lemma mul_Z (a b : Z) :
  Z.abs (a * b) < 9007199254740992 ->
  Binary64.mul (inject_Z a) (inject_Z b) = inject_Z (a * b).
Proof.
  intros H. apply fl_Z; [| assumption]. now rewrite inject_Z_mult.
Qed.

Lemma div_Z (m i : Z) :
  i <> 0 -> Z.abs m < 9007199254740992 ->
  Binary64.div (inject_Z (m * i)) (inject_Z i) = inject_Z m.
Proof.
  intros Hi H. apply fl_Z; [| assumption].
  rewrite inject_Z_mult. field.
  intros E. apply Hi. unfold Qeq, inject_Z in E. cbn in E. lia.
Qed.

(** ** Time directives on whole numbers *)

Lemma posMinus_Z (a b : Z) :
  Z.abs (a - b) < 9007199254740992 ->
  Binary64.posMinus (inject_Z a) (inject_Z b) = inject_Z (Z.abs (a - b)).
Proof.
  intros H. unfold Binary64.posMinus.
  destruct (Qltb (inject_Z b) (inject_Z a)) eqn:E.
  - apply Qltb_lt in E. rewrite <- Zlt_Qlt in E.
    rewrite sub_Z by assumption. f_equal. lia.
  - apply Qltb_ge in E. rewrite <- Zle_Qle in E.
    rewrite sub_Z by lia. f_equal. lia.
Qed.

(** A countdown from a whole number below 2^53 takes every whole number
    down to 1. *)
Lemma for_down_exact (body : Q -> announcement) :
  forall n fuel : nat,
    (n < fuel)%nat -> Z.of_nat n < 9007199254740992 ->
    Binary64.for_down fuel (inject_Z (Z.of_nat n)) body
    = Some (List.map (fun k => body (inject_Z (Z.of_nat (n - k))))
                     (seq 0 n)).
Proof.
  induction n as [| n IH]; intros [| fuel] Hf Hn; try lia;
    cbn [Binary64.for_down].
  - reflexivity.
  - replace (Qltb 0 (inject_Z (Z.of_nat (S n)))) with true
      by (symmetry; apply Qltb_lt; change 0%Q with (inject_Z 0);
          rewrite <- Zlt_Qlt; lia).
    change 1%Q with (inject_Z 1). rewrite sub_Z by lia.
    replace (Z.of_nat (S n) - 1) with (Z.of_nat n) by lia.
    rewrite IH by lia. cbn [option_map seq List.map]. do 2 f_equal.
    rewrite <- seq_shift, List.map_map. reflexivity.
Qed.

Lemma nth_error_map_seq (A : Type) (f : nat -> A) (n k : nat) :
  (k < n)%nat -> nth_error (List.map f (seq 0 n)) k = Some (f k).
Proof.
  intros Hk. rewrite nth_error_map.
  rewrite nth_error_nth' with (d := O) by (rewrite length_seq; lia).
  rewrite seq_nth by lia. reflexivity.
Qed.

(** The relative branch of [getTimeOffsetAndMessage] once its count is a
    whole number [c] and its interval a whole number [i] of
    milliseconds. *)
Lemma countdown_items (fuel : nat) (modifier : Q) (suffix : string)
    (forceSufix : bool) (c i : Z) :
  0 <= c -> 0 < i -> c * i < 9007199254740992 ->
  (Z.to_nat c < fuel)%nat ->
  exists items : list announcement,
    Binary64.for_down fuel (inject_Z c)
      (fun a =>
         let offset := Binary64.mul a (inject_Z i) in
         mkAnn (Binary64.posMinus modifier offset)
               (Binary64.makeTimeMessage offset suffix forceSufix))
    = Some items
    /\ List.length items = Z.to_nat c
    /\ forall k : Z, 0 <= k < c ->
         nth_error items (Z.to_nat k)
         = Some (mkAnn (Binary64.posMinus modifier (inject_Z ((c - k) * i)))
                       (Binary64.makeTimeMessage (inject_Z ((c - k) * i))
                          suffix forceSufix)).
Proof.
  intros Hc Hi Hci Hf.
  replace (inject_Z c) with (inject_Z (Z.of_nat (Z.to_nat c)))
    by (now rewrite Z2Nat.id by lia).
  rewrite for_down_exact by nia.
  eexists. split; [reflexivity |]. split.
  - now rewrite length_map, length_seq.
  - intros k Hk. rewrite nth_error_map_seq by lia.
    cbv zeta.
    replace (Z.of_nat (Z.to_nat c - Z.to_nat k)) with (c - k) by lia.
    rewrite mul_Z by nia. reflexivity.
Qed.

(** X11: [all] with [first] or [last] on a quantity [n] of at most 2^31
    counts the last (or the first) [n] units: the loop ends within [n + 1]
    rounds and gives exactly [n] announcements, the [k]-th of them
    [n - k] units away from the edge, for [k = 0 .. n - 1], with the
    message of that distance; for a duration of a whole number of
    milliseconds the offset is [|edge - (n - k) * unit|] without any
    rounding. *)
Theorem relative_countdown (fuel : nat) (sfx : suffixes)
    (dir : intervalObj) (T : Q) :
  all dir = true -> every dir = false -> multiplier dir <= 1 ->
  relative dir <> "" -> 0 <= time dir <= 2147483648 ->
  (Z.to_nat (time dir) < fuel)%nat ->
  let edge := if String.eqb (relative dir) "first" then T else 0%Q in
  let suffix :=
    if String.eqb (relative dir) "first" then first sfx else last sfx in
  let distance (k : Z) := (time dir - k) * unit_Z (unit dir) in
  exists items : list announcement,
    Binary64.getTimeOffsetAndMessage fuel sfx dir T = Some items
    /\ List.length items = Z.to_nat (time dir)
    /\ (forall k : Z, 0 <= k < time dir ->
          nth_error items (Z.to_nat k)
          = Some (mkAnn (Binary64.posMinus edge (inject_Z (distance k)))
                        (Binary64.makeTimeMessage (inject_Z (distance k))
                           suffix (String.eqb (relative dir) "first"))))
    /\ (forall t k : Z,
          T = inject_Z t -> 0 <= t <= 4503599627370496 ->
          0 <= k < time dir ->
          Binary64.posMinus edge (inject_Z (distance k))
          = inject_Z
              (Z.abs ((if String.eqb (relative dir) "first" then t else 0)
                      - distance k))).
Proof.
  intros Hall Hev Hm Hrel Ht Hf edge suffix distance.
  assert (Hu : 1000 <= unit_Z (unit dir) <= 3600000).
  { unfold unit_Z.
    destruct (unit dir =? "m")%string; [| destruct (unit dir =? "h")%string];
      lia. }
  assert (Hrel' : (relative dir =? "")%string = false)
    by (now apply String.eqb_neq).
  destruct (countdown_items fuel edge suffix
              (String.eqb (relative dir) "first") (time dir)
              (unit_Z (unit dir)))
    as (items & Hitems & Hlen & Hnth); try lia; [nia |].
  exists items. repeat apply conj; try assumption.
  - rewrite <- Hitems. unfold Binary64.getTimeOffsetAndMessage.
    rewrite Hall, Hev, Hrel'. cbn [orb andb].
    replace (multiplier dir <=? 1) with true
      by (symmetry; now apply Z.leb_le).
    cbv iota beta. rewrite of_Z_exact by lia.
    unfold edge, suffix, unit_Z.
    destruct (relative dir =? "first")%string; cbn [negb];
      destruct (unit dir =? "m")%string;
      try destruct (unit dir =? "h")%string; reflexivity.
  - intros t k HT Ht' Hk. unfold edge.
    destruct (relative dir =? "first")%string.
    + rewrite HT. apply posMinus_Z. unfold distance. nia.
    + change 0%Q with (inject_Z 0). apply posMinus_Z. unfold distance. nia.
Qed.

Lemma relative_countdown_witness :
  exists items : list announcement,
    Binary64.getTimeOffsetAndMessage 11 default_suffixes
      (mkInterval true false 0 "last" false false "allLast10" 0 "" 10)
      180000
    = Some items
    /\ List.length items = 10%nat
    /\ nth_error items 3
       = Some (mkAnn 7000 "7").
Proof.
  destruct (relative_countdown 11 default_suffixes
              (mkInterval true false 0 "last" false false "allLast10" 0 ""
                 10) 180000)
    as (items & Hitems & Hlen & Hnth & _);
    [ reflexivity | reflexivity | cbn [multiplier]; lia
    | cbn [relative]; discriminate | cbn [time]; lia
    | cbn [time]; lia | ].
  exists items. repeat apply conj; [assumption | exact Hlen |].
  etransitivity; [exact (Hnth 3 ltac:(cbn [time]; lia)) |].
  vm_compute. reflexivity.
Defined.

(** X12: [every] with [first] or [last] on a quantity from 1 up, when the
    duration is a whole number [m] of intervals of [i] ms each, with [m]
    from 1 to 2^31, announces each of them: the loop ends within [m + 1]
    rounds and gives exactly [m] announcements, the [k]-th of them for the
    remaining time [(m - k) * i], at that offset when the directive is
    relative to [last] and at [k * i] when it is relative to [first], with
    no rounding. *)
Theorem every_cadence (fuel : nat) (sfx : suffixes) (dir : intervalObj)
    (T : Q) (m : Z) :
  every dir = true -> multiplier dir <= 1 -> relative dir <> "" ->
  1 <= time dir ->
  let i := unit_Z (unit dir) * time dir in
  1 <= m <= 2147483648 -> m * i < 4503599627370496 ->
  T = inject_Z (m * i) ->
  (Z.to_nat m < fuel)%nat ->
  let suffix :=
    if String.eqb (relative dir) "first" then first sfx else last sfx in
  exists items : list announcement,
    Binary64.getTimeOffsetAndMessage fuel sfx dir T = Some items
    /\ List.length items = Z.to_nat m
    /\ forall k : Z, 0 <= k < m ->
         nth_error items (Z.to_nat k)
         = Some (mkAnn (inject_Z (if String.eqb (relative dir) "first"
                                  then k * i else (m - k) * i))
                       (Binary64.makeTimeMessage (inject_Z ((m - k) * i))
                          suffix (String.eqb (relative dir) "first"))).
Proof.
  intros Hev Hm Hrel Ht i Hm0 Hmi HT Hf suffix.
  assert (Hu : 1000 <= unit_Z (unit dir) <= 3600000).
  { unfold unit_Z.
    destruct (unit dir =? "m")%string; [| destruct (unit dir =? "h")%string];
      lia. }
  assert (Hi : 1000 <= i) by (unfold i; nia).
  assert (Hrel' : (relative dir =? "")%string = false)
    by (now apply String.eqb_neq).
  set (edge := if String.eqb (relative dir) "first" then T else 0%Q).
  destruct (countdown_items fuel edge suffix
              (String.eqb (relative dir) "first") m i)
    as (items & Hitems & Hlen & Hnth); try lia.
  exists items. repeat apply conj; try assumption.
  - rewrite <- Hitems. unfold Binary64.getTimeOffsetAndMessage.
    rewrite Hev, Hrel'. rewrite orb_true_r. cbn [orb andb].
    replace (multiplier dir <=? 1) with true
      by (symmetry; now apply Z.leb_le).
    cbv iota beta.
    assert (Htime : Binary64.of_Z (time dir) = inject_Z (time dir)).
    { apply of_Z_exact. nia. }
    assert (Hint : Binary64.mul
                     (if (unit dir =? "m")%string then 60000%Q
                      else if (unit dir =? "h")%string then 3600000%Q
                           else 1000%Q) (Binary64.of_Z (time dir))
                   = inject_Z i).
    { rewrite Htime. unfold i, unit_Z in *.
      destruct (unit dir =? "m")%string;
        [| destruct (unit dir =? "h")%string];
        match goal with
        | |- Binary64.mul ?c _ = _ =>
            change c with (inject_Z (Qnum c))
        end; cbn [Qnum]; apply mul_Z; nia. }
    rewrite Hint, HT, div_Z by nia.
    unfold edge, suffix.
    destruct (relative dir =? "first")%string; cbn [negb];
      rewrite ?HT; reflexivity.
  - intros k Hk. rewrite (Hnth k Hk). do 2 f_equal. unfold edge.
    destruct (relative dir =? "first")%string.
    + rewrite HT, posMinus_Z by nia. f_equal. nia.
    + change 0%Q with (inject_Z 0). rewrite posMinus_Z by nia.
      f_equal. nia.
Qed.

Lemma every_cadence_witness :
  exists items : list announcement,
    Binary64.getTimeOffsetAndMessage 4 default_suffixes
      (mkInterval false true 0 "last" false false "everylast30s" 0 "s" 30)
      90000
    = Some items
    /\ List.length items = 3%nat
    /\ nth_error items 1 = Some (mkAnn 60000 "1 minute to go.").
Proof.
  destruct (every_cadence 4 default_suffixes
              (mkInterval false true 0 "last" false false "everylast30s" 0
                 "s" 30) 90000 3)
    as (items & Hitems & Hlen & Hnth);
    [ reflexivity | cbn [multiplier]; lia | cbn [relative]; discriminate
    | cbn [time]; lia | lia | vm_compute; reflexivity | reflexivity
    | lia | ].
  exists items. repeat apply conj; [assumption | exact Hlen |].
  etransitivity; [exact (Hnth 1 ltac:(lia)) |].
  vm_compute. reflexivity.
Defined.

(** ** Fraction directives relative to no edge *)

(** X9: a fraction directive that is relative to no edge, with a
    denominator [d] from 3 to 10, announces in pairs: for
    [a = 1 .. floor(count / 2)] one announcement "to go" at
    [T - interval * a] and one "gone" at [interval * a], with
    [interval = T / d] and each operation rounded as the code does it, each
    replaced by the half-way announcement when it is within the 5000 ms
    window of [T / 2].  Before that replacement the two offsets of a pair
    add up to [T] to within the one rounding of the subtraction, and with
    no rounding at all when [T] is [d] times a whole number of
    milliseconds. *)
Theorem fraction_pairs (sfx : suffixes) (dir : intervalObj) (T : Q) :
  3 <= denominator dir <= 10 -> relative dir = "" ->
  let d := denominator dir in
  let count :=
    if (multiplier dir =? 0) || (d <=? multiplier dir)
    then d else multiplier dir in
  let gone (a : Z) :=
    Binary64.mul (Binary64.div T (inject_Z d)) (inject_Z a) in
  let togo (a : Z) := Binary64.sub T (gone a) in
  let half_ := Binary64.div T 2 in
  List.length (Binary64.getFractionOffsetAndMessage sfx dir T)
  = (2 * Z.to_nat (count / 2))%nat
  /\ (forall a : Z, 1 <= a <= count / 2 ->
        nth_error (Binary64.getFractionOffsetAndMessage sfx dir T)
                  (2 * Z.to_nat (a - 1))
        = Some (Binary64.collapse_half sfx half_
                  (mkAnn (togo a)
                         (makeFractionMessage sfx a d ++ last sfx)))
        /\ nth_error (Binary64.getFractionOffsetAndMessage sfx dir T)
                     (2 * Z.to_nat (a - 1) + 1)
           = Some (Binary64.collapse_half sfx half_
                     (mkAnn (gone a)
                            (makeFractionMessage sfx a d ++ first sfx)))
        /\ (Qabs (togo a + gone a - T) <= Qabs (T - gone a) * eps64)%Q)
  /\ (forall q a : Z,
        T = inject_Z (q * d) ->
        0 <= q -> q * d < 4503599627370496 -> 0 <= a <= d ->
        gone a = inject_Z (q * a) /\ togo a = inject_Z (q * (d - a))).
Proof.
  intros Hd Hrel d count gone togo half_.
  unfold Binary64.getFractionOffsetAndMessage, Binary64.fraction_offsets.
  replace (denominator dir =? 2) with false
    by (symmetry; apply Z.eqb_neq; lia).
  rewrite Hrel. cbn [String.eqb negb]. fold d count half_.
  repeat apply conj.
  - rewrite length_map.
    rewrite (length_pairs _ _
               (fun a => mkAnn (togo a)
                               (makeFractionMessage sfx a d ++ last sfx))
               (fun a => mkAnn (gone a)
                               (makeFractionMessage sfx a d ++ first sfx))).
    now rewrite upto_length.
  - intros a Ha. rewrite !nth_error_map.
    destruct (nth_error_pairs _ _
                (fun a => mkAnn (togo a)
                                (makeFractionMessage sfx a d ++ last sfx))
                (fun a => mkAnn (gone a)
                                (makeFractionMessage sfx a d ++ first sfx))
                (upto (count / 2)) (Z.to_nat (a - 1))) as [H1 H2].
    unfold togo, gone in H1, H2 |- *. fold d in H1, H2.
    rewrite H1, H2, upto_nth by assumption. cbn [option_map].
    repeat split.
    pose proof (fl_error
                  (T - Binary64.mul (Binary64.div T (inject_Z d))
                         (inject_Z a))) as He.
    unfold Binary64.sub.
    set (x := (T - Binary64.mul (Binary64.div T (inject_Z d))
                     (inject_Z a))%Q) in *.
    assert (E : (Binary64.fl x
                 + Binary64.mul (Binary64.div T (inject_Z d)) (inject_Z a)
                 - T == Binary64.fl x - x)%Q) by (unfold x; ring).
    now rewrite E.
  - intros q a HT Hq Hqd Ha. unfold d in *.
    assert (Hgone : gone a = inject_Z (q * a)).
    { unfold gone. rewrite HT, div_Z by lia. apply mul_Z. nia. }
    split; [exact Hgone |].
    unfold togo. rewrite Hgone, HT, sub_Z by nia. f_equal. ring.
Qed.

Lemma fraction_pairs_witness :
  List.length
    (Binary64.getFractionOffsetAndMessage default_suffixes
       (mkInterval true false 0 "" false true "1/5" 5 "" 0) 100000)
  = 4%nat
  /\ nth_error
       (Binary64.getFractionOffsetAndMessage default_suffixes
          (mkInterval true false 0 "" false true "1/5" 5 "" 0) 100000) 2
     = Some (mkAnn 60000 "2 fifths to go.")
  /\ nth_error
       (Binary64.getFractionOffsetAndMessage default_suffixes
          (mkInterval true false 0 "" false true "1/5" 5 "" 0) 100000) 3
     = Some (mkAnn 40000 "2 fifths gone.").
Proof.
  destruct (fraction_pairs default_suffixes
              (mkInterval true false 0 "" false true "1/5" 5 "" 0) 100000)
    as (Hlen & Hnth & _); [cbn [denominator]; lia | reflexivity |].
  split; [exact Hlen |].
  destruct (Hnth 2) as (H1 & H2 & _); [vm_compute; split; discriminate |].
  split.
  - etransitivity; [exact H1 | vm_compute; reflexivity].
  - etransitivity; [exact H2 | vm_compute; reflexivity].
Defined.

(** ** Building twice *)

Lemma filter64_idem (max : Q) (offsets : list announcement) :
  forall found,
    Binary64.filter_from found (Binary64.filter_from found offsets max) max
    = Binary64.filter_from found offsets max.
Proof.
  induction offsets as [| item offsets IH]; intros found;
    cbn [Binary64.filter_from]; [reflexivity |].
  destruct (Binary64.keep found max item) eqn:Hk; [| apply IH].
  cbn [Binary64.filter_from]. rewrite Hk. f_equal. apply IH.
Qed.

(** Around a whole number of milliseconds the window of the closeness
    test is exact. *)
Lemma tooClose64_whole (x p : Q) :
  whole_ms p -> Binary64.tooClose x p = tooClose x p.
Proof.
  intros (z & -> & Hz). unfold Binary64.tooClose, tooClose.
  change 5000%Q with (inject_Z 5000).
  rewrite sub_Z, add_Z by lia. f_equal; apply Qltb_comp;
    try reflexivity.
  - unfold Z.sub. rewrite inject_Z_plus, inject_Z_opp. ring.
  - now rewrite inject_Z_plus.
Qed.

Lemma tooCloseAny64_whole (x : Q) (found : list Q) :
  Forall whole_ms found ->
  Binary64.tooCloseAny x found = tooCloseAny x found.
Proof.
  induction 1 as [| p found Hp Hfound IH];
    cbn [Binary64.tooCloseAny tooCloseAny]; [reflexivity |].
  now rewrite tooClose64_whole, IH.
Qed.

Lemma filter64_whole (max : Q) (offsets : list announcement) :
  Forall (fun a => whole_ms (offset a)) offsets ->
  forall found,
    Forall whole_ms found ->
    Binary64.filter_from found offsets max = filter_from found offsets max.
Proof.
  induction 1 as [| item offsets Hitem Hoffsets IH]; intros found Hfound;
    cbn [Binary64.filter_from filter_from]; [reflexivity |].
  assert (Hk : Binary64.keep found max item = keep found max item)
    by (unfold Binary64.keep, keep; now rewrite tooCloseAny64_whole).
  rewrite Hk. destruct (keep found max item); [f_equal |]; apply IH;
    try assumption.
  apply Forall_app. split; [assumption | now constructor].
Qed.

Lemma filter_from_incl (max : Q) (offsets : list announcement) :
  forall found a, In a (filter_from found offsets max) -> In a offsets.
Proof.
  induction offsets as [| item offsets IH]; intros found a;
    cbn [filter_from]; [tauto |].
  destruct (keep found max item); [intros [<- | H] |];
    [now left | right; now apply (IH _ _ H) |].
  intros H. right. now apply (IH _ _ H).
Qed.

(** X6: filtering a filtered list drops nothing more.  When every offset
    is a whole number of milliseconds, of at most 2^52, a built schedule
    that is filtered and sorted again against the same duration is the
    schedule itself; with other offsets the second pass can drop an item,
    because the window of the closeness test is rounded. *)
Theorem build_idempotent (raw : list announcement) (duration : Q) :
  Binary64.filterOffsets (Binary64.filterOffsets raw duration) duration
  = Binary64.filterOffsets raw duration
  /\ (Forall (fun a => whole_ms (offset a)) raw ->
      sortOffsets
        (Binary64.filterOffsets
           (sortOffsets (Binary64.filterOffsets raw duration)) duration)
      = sortOffsets (Binary64.filterOffsets raw duration)).
Proof.
  split; [apply filter64_idem |].
  intros Hraw. unfold Binary64.filterOffsets.
  rewrite (filter64_whole duration raw Hraw []) by constructor.
  fold (filterOffsets raw duration).
  rewrite (filter64_whole duration
             (sortOffsets (filterOffsets raw duration))) by
    (try constructor; apply Forall_forall; intros a Ha;
     apply (Permutation_in a (sortOffsets_perm _)) in Ha;
     apply filter_from_incl in Ha;
     now apply (proj1 (Forall_forall _ raw) Hraw)).
  apply refilter_exact.
Qed.

Lemma build_idempotent_witness :
  sortOffsets
    (Binary64.filterOffsets
       (sortOffsets
          (Binary64.filterOffsets
             [ mkAnn 40000 "a"; mkAnn 42000 "b"; mkAnn 40000 "c";
               mkAnn 50000 "d" ] 60000)) 60000)
  = [ mkAnn 50000 "d"; mkAnn 40000 "a" ].
Proof.
  destruct (build_idempotent
              [ mkAnn 40000 "a"; mkAnn 42000 "b"; mkAnn 40000 "c";
                mkAnn 50000 "d" ] 60000) as [_ H].
  rewrite H; [vm_compute; reflexivity |].
  repeat constructor;
    [exists 40000 | exists 42000 | exists 40000 | exists 50000];
    (split; [reflexivity | cbn; lia]).
Defined.

(** A second pass that drops an item: the schedule of
    ["everylast11s last35"] on 52 s holds 35000 and 30000.000000000004;
    once sorted, 35000 comes first and 30000.000000000004 is inside its
    window. *)
Example refilter_drops :
  exists schedule : list announcement,
    Binary64.parseRawIntervals 10 default_suffixes "fraction"
      (JString "everylast11s last35") 52000 None = Some schedule
    /\ List.length schedule = 5%nat
    /\ List.length (Binary64.filterOffsets schedule 52000) = 4%nat.
Proof.
  eexists. split; [vm_compute; reflexivity |].
  split; vm_compute; reflexivity.
Qed.
